(** * Loop fusion and loop predication: a shallow embedding

    This development embeds the decision procedures of two LLVM loop passes,

    - [llvm/lib/Transforms/Scalar/LoopFuse.cpp] (module [LoopFuse]) and
    - [llvm/lib/Transforms/Scalar/LoopPredication.cpp] (module
      [LoopPredication]),

    and proves properties of them.  The analyses the passes consult
    (dominator trees, scalar evolution, dependence information, alias
    analysis) are not part of these two files: they are taken as
    parameters of the sections below, and every theorem says which of
    their properties it relies on.

    Conventions.
    - A pointer is an [option]: [None] is [nullptr].
    - [assert] is compiled out, as in a release ([NDEBUG]) build;
      [llvm_unreachable] is the explicit outcome [Unreachable], and the
      use of a null pointer where the code reads through it is the
      explicit outcome [NullDereference].
    - [LLVM_DEBUG] output is not modelled. *)

From Stdlib Require Import ZArith List Bool Lia PeanoNat Arith.
Import ListNotations.

Set Implicit Arguments.

(** ** Outcomes of code that may not return

    [Ret a] is the normal return of [a]; [Unreachable] is an execution
    that reaches [llvm_unreachable]; [NullDereference] is an execution
    that reads through a null pointer. *)

Inductive Res (A : Type) : Type :=
| Ret (a : A)
| Unreachable
| NullDereference.

Arguments Ret {A} a.
Arguments Unreachable {A}.
Arguments NullDereference {A}.

Definition bindRes {A B : Type} (m : Res A) (k : A -> Res B) : Res B :=
  match m with
  | Ret a => k a
  | Unreachable => Unreachable
  | NullDereference => NullDereference
  end.

Declare Scope res_scope.
Delimit Scope res_scope with res.
Notation "x <- m ;; k" := (bindRes m (fun x => k))
  (at level 100, m at next level, right associativity) : res_scope.

(** ** Integer comparison predicates *)

Module CmpInst.

Inductive Predicate : Type :=
| ICMP_EQ | ICMP_NE
| ICMP_UGT | ICMP_UGE | ICMP_ULT | ICMP_ULE
| ICMP_SGT | ICMP_SGE | ICMP_SLT | ICMP_SLE.

Definition Predicate_eq_dec (p q : Predicate) : {p = q} + {p <> q}.
Proof. decide equality. Defined.

Definition Predicate_eqb (p q : Predicate) : bool :=
  if Predicate_eq_dec p q then true else false.

Definition isEquality (P : Predicate) : bool :=
  match P with
  | ICMP_EQ | ICMP_NE => true
  | _ => false
  end.

(** [CmpInst::getSwappedPredicate]: the predicate that holds of [(b, a)]
    exactly when the given one holds of [(a, b)].  The function belongs
    to the IR library; [parseLoopICmp] uses it when it exchanges the two
    operands of a comparison. *)
Definition getSwappedPredicate (P : Predicate) : Predicate :=
  match P with
  | ICMP_EQ => ICMP_EQ
  | ICMP_NE => ICMP_NE
  | ICMP_UGT => ICMP_ULT
  | ICMP_UGE => ICMP_ULE
  | ICMP_ULT => ICMP_UGT
  | ICMP_ULE => ICMP_UGE
  | ICMP_SGT => ICMP_SLT
  | ICMP_SGE => ICMP_SLE
  | ICMP_SLT => ICMP_SGT
  | ICMP_SLE => ICMP_SGE
  end.

(** [CmpInst::getInversePredicate]: the logical negation. *)
Definition getInversePredicate (P : Predicate) : Predicate :=
  match P with
  | ICMP_EQ => ICMP_NE
  | ICMP_NE => ICMP_EQ
  | ICMP_UGT => ICMP_ULE
  | ICMP_UGE => ICMP_ULT
  | ICMP_ULT => ICMP_UGE
  | ICMP_ULE => ICMP_UGT
  | ICMP_SGT => ICMP_SLE
  | ICMP_SGE => ICMP_SLT
  | ICMP_SLT => ICMP_SGE
  | ICMP_SLE => ICMP_SGT
  end.

(** [CmpInst::getFlippedStrictnessPredicate].  The function belongs to
    the IR library.  It is modelled after the header comment of
    LoopPredication.cpp, which tabulates the limit check
    [latchLimit <pred> rhs] emitted for each latch predicate:

    - latch [u<]  gives [rhs u>= latchLimit], that is [latchLimit u<= rhs];
    - latch [u<=] gives [rhs u>  latchLimit], that is [latchLimit u<  rhs];
    - latch [s<]  gives [rhs s>= latchLimit], that is [latchLimit s<= rhs];
    - latch [s<=] gives [rhs s>  latchLimit], that is [latchLimit s<  rhs];

    and, for the count-down loop, [u>] gives [latchLimit u>= 1], [u>=]
    gives [latchLimit u> 1], and likewise for the signed predicates.  So
    the strictness is flipped while direction and signedness are kept.
    Equality predicates have no strictness: the library function ends in
    [llvm_unreachable] on them. *)
Definition getFlippedStrictnessPredicate (P : Predicate) : Res Predicate :=
  match P with
  | ICMP_SGT => Ret ICMP_SGE
  | ICMP_SLT => Ret ICMP_SLE
  | ICMP_SGE => Ret ICMP_SGT
  | ICMP_SLE => Ret ICMP_SLT
  | ICMP_UGT => Ret ICMP_UGE
  | ICMP_ULT => Ret ICMP_ULE
  | ICMP_UGE => Ret ICMP_UGT
  | ICMP_ULE => Ret ICMP_ULT
  | ICMP_EQ | ICMP_NE => Unreachable
  end.

(** *** Meaning of a predicate on [w]-bit integers

    A [w]-bit integer is the [Z] in [[0, 2^w)] of its unsigned reading. *)

Definition wrap (w : N) (x : Z) : Z := (x mod 2 ^ Z.of_N w)%Z.

Definition signed (w : N) (x : Z) : Z :=
  (if x <? 2 ^ (Z.of_N w - 1) then x else x - 2 ^ Z.of_N w)%Z.

Definition evalPredicate (w : N) (P : Predicate) (a b : Z) : bool :=
  match P with
  | ICMP_EQ => (a =? b)%Z
  | ICMP_NE => negb (a =? b)%Z
  | ICMP_UGT => (b <? a)%Z
  | ICMP_UGE => (b <=? a)%Z
  | ICMP_ULT => (a <? b)%Z
  | ICMP_ULE => (a <=? b)%Z
  | ICMP_SGT => (signed w b <? signed w a)%Z
  | ICMP_SGE => (signed w b <=? signed w a)%Z
  | ICMP_SLT => (signed w a <? signed w b)%Z
  | ICMP_SLE => (signed w a <=? signed w b)%Z
  end.

End CmpInst.

Export CmpInst.

(** ** Scalar-evolution expressions

    The engine keeps one object per expression, so two [const SCEV *] are
    the same pointer exactly when the expressions are the same term:
    pointer comparison is [SCEV_eq_dec].

    Types are kept one object per type as well, so two [Type *] are the
    same pointer exactly when they are the same type.  The types of
    expressions are the integer types and the pointer types.  An integer
    type is its width.  A pointer type is named by [Id], which stands for
    its element type and address space, and comes with the size the data
    layout gives it: two pointer types, or a pointer type and an integer
    type, may have the same size and are different types all the same. *)

Definition Loop := positive.
Definition BasicBlock := positive.
Definition ValueId := positive.

Inductive Type_ : Type :=
| IntegerTy (NumBits : N)
| PointerTy (Id : positive) (SizeInBits : N).

Definition Type_eq_dec (a b : Type_) : {a = b} + {a <> b}.
Proof. decide equality; try apply N.eq_dec; apply Pos.eq_dec. Defined.

Definition Type_eqb (a b : Type_) : bool :=
  if Type_eq_dec a b then true else false.

(** [DL.getTypeSizeInBits].  Where a type stands for a number, in the
    width of a wrap-around or of a comparison, the number is this
    size. *)
Definition getTypeSizeInBits (Ty : Type_) : N :=
  match Ty with
  | IntegerTy NumBits => NumBits
  | PointerTy _ SizeInBits => SizeInBits
  end.

Coercion getTypeSizeInBits : Type_ >-> N.

Definition i32 : Type_ := IntegerTy 32.
Definition i64 : Type_ := IntegerTy 64.

Bind Scope positive_scope with Loop.
Bind Scope positive_scope with BasicBlock.
Bind Scope positive_scope with ValueId.

(** A constant is a [ConstantInt], of an integer type: it has the
    width of that type.  An add recurrence [{Start,+,Step,+,More...}<L>]
    has at least two operands, [Start :: Step :: More]; it is affine when
    it has exactly two. *)
#[local] Set Warnings "-register-all".

Inductive SCEV : Type :=
| SCEVCouldNotCompute
| SCEVConstant (BitWidth : N) (V : Z)
| SCEVUnknown (Ty : Type_) (V : ValueId)
| SCEVTruncateExpr (Op : SCEV) (Ty : Type_)
| SCEVAddExpr (LHS RHS : SCEV)
| SCEVMulExpr (LHS RHS : SCEV)
| SCEVAddRecExpr (Start Step : SCEV) (More : list SCEV) (L : Loop).

Fixpoint SCEV_eq_dec (a b : SCEV) {struct a} : {a = b} + {a <> b}.
Proof.
  decide equality;
    try apply Type_eq_dec; try apply N.eq_dec; try apply Z.eq_dec;
    try apply Pos.eq_dec.
  apply list_eq_dec, SCEV_eq_dec.
Defined.

Definition SCEV_eqb (a b : SCEV) : bool :=
  if SCEV_eq_dec a b then true else false.

Lemma SCEV_eqb_eq (a b : SCEV) : SCEV_eqb a b = true <-> a = b.
Proof.
  unfold SCEV_eqb. destruct (SCEV_eq_dec a b); split; congruence.
Qed.


Definition isa_SCEVCouldNotCompute (S : SCEV) : bool :=
  match S with
  | SCEVCouldNotCompute => true
  | _ => false
  end.

Lemma isa_SCEVCouldNotCompute_iff (S : SCEV) :
  isa_SCEVCouldNotCompute S = true <-> S = SCEVCouldNotCompute.
Proof. destruct S; simpl; split; congruence. Qed.

Lemma isa_SCEVCouldNotCompute_false (S : SCEV) :
  isa_SCEVCouldNotCompute S = false <-> S <> SCEVCouldNotCompute.
Proof. destruct S; simpl; split; congruence. Qed.

(** [dyn_cast<SCEVAddRecExpr>] followed by [getLoop()]. *)
Definition getLoop (S : SCEV) : option Loop :=
  match S with
  | SCEVAddRecExpr _ _ _ L => Some L
  | _ => None
  end.

Definition isAffine (S : SCEV) : bool :=
  match S with
  | SCEVAddRecExpr _ _ [] _ => true
  | _ => false
  end.

Definition getStart (S : SCEV) : SCEV :=
  match S with
  | SCEVAddRecExpr Start _ _ _ => Start
  | _ => S
  end.

(** [SCEVAddRecExpr::getStepRecurrence]: operand 1 of an affine
    recurrence, otherwise the recurrence of the operands but the first. *)
Definition getStepRecurrence (S : SCEV) : SCEV :=
  match S with
  | SCEVAddRecExpr _ Step [] _ => Step
  | SCEVAddRecExpr _ Step (M :: Ms) L => SCEVAddRecExpr Step M Ms L
  | _ => S
  end.

(** * Loop fusion (LoopFuse.cpp) *)

Module LoopFuse.

Definition Instruction := positive.

(** The [STATISTIC] counters of the file. *)
Inductive Statistic : Type :=
| FuseCounter | NumFusionCandidates
| InvalidPreheader | InvalidHeader | InvalidExitingBlock | InvalidExitBlock
| InvalidLatch | InvalidLoop
| AddressTakenBB | MayThrowException | ContainsVolatileAccess
| NotSimplifiedForm | InvalidDependencies
| UnknownTripCount | UncomputableTripCount | NonEqualTripCount
| NonAdjacent | NonEmptyPreheader | FusionNotBeneficial
| NonIdenticalGuards | NonEmptyExitBlock | NonEmptyGuardBlock.

Definition Statistic_eq_dec (a b : Statistic) : {a = b} + {a <> b}.
Proof. decide equality. Defined.

Inductive FusionDependenceAnalysisChoice : Type :=
| FUSION_DEPENDENCE_ANALYSIS_SCEV
| FUSION_DEPENDENCE_ANALYSIS_DA
| FUSION_DEPENDENCE_ANALYSIS_ALL.

(** A conditional branch.  [getCondition] is the result of
    [dyn_cast<Instruction>(getCondition())]. *)
Record BranchInst : Type := {
  getParent : BasicBlock;
  getCondition : option Instruction;
  getSuccessor0 : BasicBlock;
  getSuccessor1 : BasicBlock
}.

(** The members [DT], [PDT] and [ORE] of a candidate point to the
    analyses of the function, the same for every candidate: they are
    parameters of the section below.  [L] is never null: the constructor
    dereferences it. *)
Record FusionCandidate : Type := {
  Preheader : option BasicBlock;
  Header : option BasicBlock;
  ExitingBlock : option BasicBlock;
  ExitBlock : option BasicBlock;
  Latch : option BasicBlock;
  L : Loop;
  MemReads : list Instruction;
  MemWrites : list Instruction;
  Valid : bool;
  GuardBranch : option BranchInst
}.

Definition ptr_eqb (a b : option BasicBlock) : bool :=
  match a, b with
  | Some x, Some y => Pos.eqb x y
  | None, None => true
  | _, _ => false
  end.

Definition isNull {A : Type} (p : option A) : bool :=
  match p with
  | Some _ => false
  | None => true
  end.

Definition getEntryBlock (FC : FusionCandidate) : option BasicBlock :=
  match GuardBranch FC with
  | Some GB => Some (getParent GB)
  | None => Preheader FC
  end.

(** Only called on guarded loops; without a guard the source dereferences
    a null pointer, here the result is null. *)
Definition getNonLoopBlock (FC : FusionCandidate) : option BasicBlock :=
  match GuardBranch FC with
  | Some GB =>
      if ptr_eqb (Some (getSuccessor0 GB)) (Preheader FC)
      then Some (getSuccessor1 GB)
      else Some (getSuccessor0 GB)
  | None => None
  end.

Inductive RemarkKind : Type :=
| OptimizationRemark
| OptimizationRemarkMissed
| OptimizationRemarkAnalysis.

(** What [ORE.emit] receives: the kind, the statistic whose name and
    description are printed, the loop whose start location is used, and
    the preheaders named [Cand1] and [Cand2]. *)
Record Remark : Type := {
  RKind : RemarkKind;
  RStat : Statistic;
  RLoop : Loop;
  RCand1 : option BasicBlock;
  RCand2 : option BasicBlock
}.

Section Fuser.

(** The function under transformation together with its analyses.  The
    pass mutates it only through [performFusion]. *)
Variable IR : Type.

Variable DT_dominates : IR -> option BasicBlock -> option BasicBlock -> bool.
Variable PDT_dominates : IR -> option BasicBlock -> option BasicBlock -> bool.
Variable getBackedgeTakenCount : IR -> Loop -> SCEV.
Variable hasLoopInvariantBackedgeTakenCount : IR -> Loop -> bool.
Variable Loop_isInvalid : IR -> Loop -> bool.
Variable isLoopSimplifyForm : IR -> Loop -> bool.
Variable Loop_getHeader : IR -> Loop -> BasicBlock.
Variable Loop_contains : IR -> Loop -> Loop -> bool.
Variable Loop_containsBlock : IR -> Loop -> BasicBlock -> bool.
Variable Loop_blocks : IR -> Loop -> list BasicBlock.
Variable BasicBlock_size : IR -> BasicBlock -> nat.
Variable BasicBlock_instructions : IR -> BasicBlock -> list Instruction.
Variable Instruction_getParent : IR -> Instruction -> BasicBlock.
(** Each operand after [dyn_cast<Instruction>]. *)
Variable Instruction_operands : IR -> Instruction -> list (option Instruction).
Variable isIdenticalTo : IR -> Instruction -> Instruction -> bool.
Variable getLoadStorePointerOperand : IR -> Instruction -> option ValueId.
Variable getSCEVAtScope : IR -> ValueId -> Loop -> SCEV.
Variable isKnownPositive : IR -> SCEV -> bool.
Variable isKnownPredicate : IR -> Predicate -> SCEV -> SCEV -> bool.
(** [DI.depends(&I0, &I1, true)] returned a dependence. *)
Variable DI_depends : IR -> Instruction -> Instruction -> bool.
(** The command-line option [loop-fusion-dependence-analysis]. *)
Variable FusionDependenceAnalysis : FusionDependenceAnalysisChoice.

(** *** State of the pass *)

Record PassState : Type := {
  Stats : Statistic -> nat;
  Remarks : list Remark;
  RemovedLoops : list Loop;
  FusionCandidates : list (list FusionCandidate);
  TheIR : IR
}.

Definition ST (A : Type) : Type := PassState -> A * PassState.

Definition ret {A : Type} (a : A) : ST A := fun st => (a, st).

Definition bind {A B : Type} (m : ST A) (k : A -> ST B) : ST B :=
  fun st => let (a, st') := m st in k a st'.

Notation "x <- m ;; k" := (bind m (fun x => k))
  (at level 100, m at next level, right associativity).
Notation "m ;;; k" := (bind m (fun _ => k))
  (at level 100, right associativity).

Definition getIR : ST IR := fun st => (TheIR st, st).

(** [++Stat] *)
Definition incr (S : Statistic) : ST unit := fun st =>
  (tt, {| Stats := fun S' => if Statistic_eq_dec S' S
                             then Datatypes.S (Stats st S') else Stats st S';
          Remarks := Remarks st;
          RemovedLoops := RemovedLoops st;
          FusionCandidates := FusionCandidates st;
          TheIR := TheIR st |}).

(** [ORE.emit] *)
Definition emit (R : Remark) : ST unit := fun st =>
  (tt, {| Stats := Stats st;
          Remarks := Remarks st ++ [R];
          RemovedLoops := RemovedLoops st;
          FusionCandidates := FusionCandidates st;
          TheIR := TheIR st |}).

(** [LDT.removeLoop] *)
Definition removeLoop (Lp : Loop) : ST unit := fun st =>
  (tt, {| Stats := Stats st;
          Remarks := Remarks st;
          RemovedLoops := Lp :: RemovedLoops st;
          FusionCandidates := FusionCandidates st;
          TheIR := TheIR st |}).

Definition setIR (ir : IR) : ST unit := fun st =>
  (tt, {| Stats := Stats st;
          Remarks := Remarks st;
          RemovedLoops := RemovedLoops st;
          FusionCandidates := FusionCandidates st;
          TheIR := ir |}).

Definition setFusionCandidates (C : list (list FusionCandidate)) : ST unit :=
  fun st =>
  (tt, {| Stats := Stats st;
          Remarks := Remarks st;
          RemovedLoops := RemovedLoops st;
          FusionCandidates := C;
          TheIR := TheIR st |}).

(** *** Fusion candidates *)

Definition isValid (ir : IR) (FC : FusionCandidate) : bool :=
  negb (isNull (Preheader FC)) && negb (isNull (Header FC)) &&
  negb (isNull (ExitingBlock FC)) && negb (isNull (ExitBlock FC)) &&
  negb (isNull (Latch FC)) && negb (Loop_isInvalid ir (L FC)) && Valid FC.

Definition reportInvalidCandidate (FC : FusionCandidate) (Stat : Statistic)
  : ST bool :=
  incr Stat ;;;
  emit {| RKind := OptimizationRemarkAnalysis; RStat := Stat;
          RLoop := L FC; RCand1 := Preheader FC; RCand2 := None |} ;;;
  ret false.

Definition when (c : bool) (m : ST unit) : ST unit :=
  if c then m else ret tt.

Definition isEligibleForFusion (FC : FusionCandidate) : ST bool :=
  ir <- getIR ;;
  if negb (isValid ir FC) then
    when (isNull (Preheader FC)) (incr InvalidPreheader) ;;;
    when (isNull (Header FC)) (incr InvalidHeader) ;;;
    when (isNull (ExitingBlock FC)) (incr InvalidExitingBlock) ;;;
    when (isNull (ExitBlock FC)) (incr InvalidExitBlock) ;;;
    when (isNull (Latch FC)) (incr InvalidLatch) ;;;
    when (Loop_isInvalid ir (L FC)) (incr InvalidLoop) ;;;
    ret false
  else if negb (hasLoopInvariantBackedgeTakenCount ir (L FC)) then
    reportInvalidCandidate FC UnknownTripCount
  else if negb (isLoopSimplifyForm ir (L FC)) then
    reportInvalidCandidate FC NotSimplifiedForm
  else ret true.

(** [FusionCandidateCompare::operator()] *)
Definition FusionCandidateCompare (ir : IR) (LHS RHS : FusionCandidate)
  : Res bool :=
  let LHSEntryBlock := getEntryBlock LHS in
  let RHSEntryBlock := getEntryBlock RHS in
  if DT_dominates ir RHSEntryBlock LHSEntryBlock then Ret false
  else if DT_dominates ir LHSEntryBlock RHSEntryBlock then Ret true
  else Unreachable.

Definition isControlFlowEquivalent (ir : IR) (FC0 FC1 : FusionCandidate)
  : bool :=
  let FC0EntryBlock := getEntryBlock FC0 in
  let FC1EntryBlock := getEntryBlock FC1 in
  if DT_dominates ir FC0EntryBlock FC1EntryBlock then
    PDT_dominates ir FC1EntryBlock FC0EntryBlock
  else if DT_dominates ir FC1EntryBlock FC0EntryBlock then
    PDT_dominates ir FC0EntryBlock FC1EntryBlock
  else false.

Definition isBeneficialFusion (FC0 FC1 : FusionCandidate) : bool := true.

Definition identicalTripCounts (FC0 FC1 : FusionCandidate) : ST bool :=
  ir <- getIR ;;
  let TripCount0 := getBackedgeTakenCount ir (L FC0) in
  if isa_SCEVCouldNotCompute TripCount0 then
    incr UncomputableTripCount ;;; ret false
  else
    let TripCount1 := getBackedgeTakenCount ir (L FC1) in
    if isa_SCEVCouldNotCompute TripCount1 then
      incr UncomputableTripCount ;;; ret false
    else ret (SCEV_eqb TripCount0 TripCount1).

Definition isAdjacent (FC0 FC1 : FusionCandidate) : bool :=
  if negb (isNull (GuardBranch FC0)) then
    ptr_eqb (getNonLoopBlock FC0) (getEntryBlock FC1)
  else
    ptr_eqb (ExitBlock FC0) (getEntryBlock FC1).

(** Called with both candidates guarded. *)
Definition haveIdenticalGuards (ir : IR) (FC0 FC1 : FusionCandidate) : bool :=
  match GuardBranch FC0, GuardBranch FC1 with
  | Some GB0, Some GB1 =>
      let differ :=
        match getCondition GB0, getCondition GB1 with
        | Some FC0CmpInst, Some FC1CmpInst =>
            negb (isIdenticalTo ir FC0CmpInst FC1CmpInst)
        | _, _ => false
        end in
      if differ then false
      else if ptr_eqb (Some (getSuccessor0 GB0)) (Preheader FC0) then
        ptr_eqb (Some (getSuccessor0 GB1)) (Preheader FC1)
      else
        ptr_eqb (Some (getSuccessor1 GB1)) (Preheader FC1)
  | _, _ => false
  end.

Definition isEmptyGuardBlock (ir : IR) (FC : FusionCandidate) : bool :=
  match GuardBranch FC with
  | Some GB =>
      match getCondition GB with
      | Some CmpInst =>
          let GuardBlock := getParent GB in
          if Pos.eqb (Instruction_getParent ir CmpInst) GuardBlock
          then Nat.eqb (BasicBlock_size ir GuardBlock) 2
          else Nat.eqb (BasicBlock_size ir GuardBlock) 1
      | None => false
      end
  | None => false
  end.

Definition isEmptyPreheader (ir : IR) (FC : FusionCandidate) : bool :=
  match Preheader FC with
  | Some P => Nat.eqb (BasicBlock_size ir P) 1
  | None => false
  end.

Definition isEmptyExitBlock (ir : IR) (FC : FusionCandidate) : bool :=
  match ExitBlock FC with
  | Some E => Nat.eqb (BasicBlock_size ir E) 1
  | None => false
  end.

(** *** Dependence checks *)

(** Builders of the scalar-evolution engine: each returns the engine's
    expression for the given operands. *)
Variable getTruncateExpr : IR -> SCEV -> Type_ -> SCEV.
Variable getAddExpr : IR -> SCEV -> SCEV -> SCEV.
Variable getMulExpr : IR -> SCEV -> SCEV -> SCEV.
(** [getAddRecExpr ir Operands L]; [Operands] has at least two elements. *)
Variable getAddRecExpr : IR -> list SCEV -> Loop -> SCEV.

(** [AddRecLoopReplacer]: [visit] of the rewriter, with its [Valid] flag
    threaded through.  The cases other than [visitAddRecExpr] are those of
    [SCEVRewriteVisitor]: rebuild the expression from the visited
    operands. *)
Fixpoint AddRecLoopReplacer_visit (ir : IR) (OldL NewL : Loop) (UseMax : bool)
    (Expr : SCEV) (Valid : bool) {struct Expr} : SCEV * bool :=
  match Expr with
  | SCEVCouldNotCompute => (Expr, Valid)
  | SCEVConstant _ _ => (Expr, Valid)
  | SCEVUnknown _ _ => (Expr, Valid)
  | SCEVTruncateExpr Op Ty =>
      let (Op', V1) := AddRecLoopReplacer_visit ir OldL NewL UseMax Op Valid in
      (getTruncateExpr ir Op' Ty, V1)
  | SCEVAddExpr A B =>
      let (A', V1) := AddRecLoopReplacer_visit ir OldL NewL UseMax A Valid in
      let (B', V2) := AddRecLoopReplacer_visit ir OldL NewL UseMax B V1 in
      (getAddExpr ir A' B', V2)
  | SCEVMulExpr A B =>
      let (A', V1) := AddRecLoopReplacer_visit ir OldL NewL UseMax A Valid in
      let (B', V2) := AddRecLoopReplacer_visit ir OldL NewL UseMax B V1 in
      (getMulExpr ir A' B', V2)
  | SCEVAddRecExpr Start Step More ExprL =>
      if Pos.eqb ExprL OldL then
        (getAddRecExpr ir (Start :: Step :: More) NewL, Valid)
      else if Loop_contains ir OldL ExprL then
        let Pos := isKnownPositive ir (getStepRecurrence Expr) in
        if negb UseMax || negb Pos || negb (isAffine Expr) then (Expr, false)
        else AddRecLoopReplacer_visit ir OldL NewL UseMax Start Valid
      else
        let (Start', V1) :=
          AddRecLoopReplacer_visit ir OldL NewL UseMax Start Valid in
        let (Step', V2) :=
          AddRecLoopReplacer_visit ir OldL NewL UseMax Step V1 in
        let (More', V3) :=
          (fix visitOperands (Ops : list SCEV) (V : bool) : list SCEV * bool :=
             match Ops with
             | [] => ([], V)
             | Op :: Ops' =>
                 let (Op', V') :=
                   AddRecLoopReplacer_visit ir OldL NewL UseMax Op V in
                 let (Ops'', V'') := visitOperands Ops' V' in
                 (Op' :: Ops'', V'')
             end) More V2 in
        (getAddRecExpr ir (Start' :: Step' :: More') ExprL, V3)
  end.

(** [SCEVExprContains]: some sub-expression of [Root], [Root] included,
    satisfies [Pred]. *)
Fixpoint SCEVExprContains (Pred : SCEV -> bool) (Root : SCEV) : bool :=
  Pred Root ||
  match Root with
  | SCEVTruncateExpr Op _ => SCEVExprContains Pred Op
  | SCEVAddExpr A B | SCEVMulExpr A B =>
      SCEVExprContains Pred A || SCEVExprContains Pred B
  | SCEVAddRecExpr Start Step More _ =>
      SCEVExprContains Pred Start || SCEVExprContains Pred Step ||
      existsb (SCEVExprContains Pred) More
  | _ => false
  end.

Definition HasNonLinearDominanceRelation (ir : IR) (L0Header : BasicBlock)
    (S : SCEV) : bool :=
  match getLoop S with
  | None => false
  | Some AddRecL =>
      negb (DT_dominates ir (Some L0Header)
              (Some (Loop_getHeader ir AddRecL))) &&
      negb (DT_dominates ir (Some (Loop_getHeader ir AddRecL))
              (Some L0Header))
  end.

Definition accessDiffIsPositive (ir : IR) (L0 L1 : Loop)
    (I0 I1 : Instruction) (EqualIsInvalid : bool) : bool :=
  match getLoadStorePointerOperand ir I0,
        getLoadStorePointerOperand ir I1 with
  | Some Ptr0, Some Ptr1 =>
      let SCEVPtr0 := getSCEVAtScope ir Ptr0 L0 in
      let SCEVPtr1 := getSCEVAtScope ir Ptr1 L1 in
      let (SCEVPtr0', wasValidSCEV) :=
        AddRecLoopReplacer_visit ir L0 L1 true SCEVPtr0 true in
      if negb wasValidSCEV then false
      else
        let L0Header := Loop_getHeader ir L0 in
        if SCEVExprContains (HasNonLinearDominanceRelation ir L0Header)
             SCEVPtr1
        then false
        else
          let Pred := if EqualIsInvalid then ICMP_SGT else ICMP_SGE in
          let IsAlwaysGE := isKnownPredicate ir Pred SCEVPtr0' SCEVPtr1 in
          IsAlwaysGE
  | _, _ => false
  end.

(** The overload of [dependencesAllowFusion] for one pair of
    instructions. *)
Definition dependencesAllowFusionInst (ir : IR) (FC0 FC1 : FusionCandidate)
    (I0 I1 : Instruction) (AnyDep : bool)
    (DepChoice : FusionDependenceAnalysisChoice) : bool :=
  let viaSCEV := accessDiffIsPositive ir (L FC0) (L FC1) I0 I1 AnyDep in
  let viaDA := if DI_depends ir I0 I1 then false else true in
  match DepChoice with
  | FUSION_DEPENDENCE_ANALYSIS_SCEV => viaSCEV
  | FUSION_DEPENDENCE_ANALYSIS_DA => viaDA
  | FUSION_DEPENDENCE_ANALYSIS_ALL => viaSCEV || viaDA
  end.

(** The three loop nests of [dependencesAllowFusion], each as the test
    that no iteration takes the early return. *)
Definition writesOfFirstAllowFusion (ir : IR) (FC0 FC1 : FusionCandidate)
  : bool :=
  forallb (fun WriteL0 =>
    forallb (fun WriteL1 =>
      dependencesAllowFusionInst ir FC0 FC1 WriteL0 WriteL1 false
        FusionDependenceAnalysis) (MemWrites FC1) &&
    forallb (fun ReadL1 =>
      dependencesAllowFusionInst ir FC0 FC1 WriteL0 ReadL1 false
        FusionDependenceAnalysis) (MemReads FC1)) (MemWrites FC0).

Definition writesOfSecondAllowFusion (ir : IR) (FC0 FC1 : FusionCandidate)
  : bool :=
  forallb (fun WriteL1 =>
    forallb (fun WriteL0 =>
      dependencesAllowFusionInst ir FC0 FC1 WriteL0 WriteL1 false
        FusionDependenceAnalysis) (MemWrites FC0) &&
    forallb (fun ReadL0 =>
      dependencesAllowFusionInst ir FC0 FC1 ReadL0 WriteL1 false
        FusionDependenceAnalysis) (MemReads FC0)) (MemWrites FC1).

Definition usesDefOfFirst (ir : IR) (FC0 FC1 : FusionCandidate) : bool :=
  existsb (fun BB =>
    existsb (fun I =>
      existsb (fun Op =>
        match Op with
        | Some Def =>
            Loop_containsBlock ir (L FC0) (Instruction_getParent ir Def)
        | None => false
        end) (Instruction_operands ir I))
      (BasicBlock_instructions ir BB))
    (Loop_blocks ir (L FC1)).

Definition dependencesAllowFusion (FC0 FC1 : FusionCandidate) : ST bool :=
  ir <- getIR ;;
  if negb (writesOfFirstAllowFusion ir FC0 FC1) then
    incr InvalidDependencies ;;; ret false
  else if negb (writesOfSecondAllowFusion ir FC0 FC1) then
    incr InvalidDependencies ;;; ret false
  else if usesDefOfFirst ir FC0 FC1 then
    incr InvalidDependencies ;;; ret false
  else ret true.

(** *** The traversal of the candidate sets *)

Definition reportLoopFusion (Kind : RemarkKind) (FC0 FC1 : FusionCandidate)
    (Stat : Statistic) : ST unit :=
  incr Stat ;;;
  emit {| RKind := Kind; RStat := Stat; RLoop := L FC0;
          RCand1 := Preheader FC0; RCand2 := Preheader FC1 |}.

(** The body of the inner loop of [fuseCandidates] up to the comment
    "All analysis has completed": [false] where the source executes
    [continue], [true] where it goes on to fuse the pair. *)
Definition legalToFuse (FC0 FC1 : FusionCandidate) : ST bool :=
  SameTripCount <- identicalTripCounts FC0 FC1 ;;
  if negb SameTripCount then
    reportLoopFusion OptimizationRemarkMissed FC0 FC1 NonEqualTripCount ;;;
    ret false
  else if negb (isAdjacent FC0 FC1) then
    reportLoopFusion OptimizationRemarkMissed FC0 FC1 NonAdjacent ;;;
    ret false
  else
  ir <- getIR ;;
  if negb (isNull (GuardBranch FC0)) && negb (isNull (GuardBranch FC1)) &&
     negb (haveIdenticalGuards ir FC0 FC1) then
    reportLoopFusion OptimizationRemarkMissed FC0 FC1 NonIdenticalGuards ;;;
    ret false
  else if negb (isEmptyPreheader ir FC1) then
    reportLoopFusion OptimizationRemarkMissed FC0 FC1 NonEmptyPreheader ;;;
    ret false
  else if negb (isNull (GuardBranch FC0)) &&
          negb (isEmptyExitBlock ir FC0) then
    reportLoopFusion OptimizationRemarkMissed FC0 FC1 NonEmptyExitBlock ;;;
    ret false
  else if negb (isNull (GuardBranch FC1)) &&
          negb (isEmptyGuardBlock ir FC1) then
    reportLoopFusion OptimizationRemarkMissed FC0 FC1 NonEmptyGuardBlock ;;;
    ret false
  else
  DepsOk <- dependencesAllowFusion FC0 FC1 ;;
  if negb DepsOk then
    reportLoopFusion OptimizationRemarkMissed FC0 FC1 InvalidDependencies ;;;
    ret false
  else
  let BeneficialToFuse := isBeneficialFusion FC0 FC1 in
  if negb BeneficialToFuse then
    reportLoopFusion OptimizationRemarkMissed FC0 FC1 FusionNotBeneficial ;;;
    ret false
  else ret true.


(** *** Construction of a candidate *)

Variable getLoopPreheader : IR -> Loop -> option BasicBlock.
Variable getExitingBlock : IR -> Loop -> option BasicBlock.
Variable getExitBlock : IR -> Loop -> option BasicBlock.
Variable getLoopLatch : IR -> Loop -> option BasicBlock.
Variable isLoopExiting : IR -> Loop -> option BasicBlock -> bool.
Variable getLoopGuardBranch : IR -> Loop -> option BranchInst.
Variable hasAddressTaken : IR -> BasicBlock -> bool.
Variable mayThrow : IR -> Instruction -> bool.
(** [dyn_cast<StoreInst>] succeeds and the store is volatile; the same
    for loads. *)
Variable isVolatileStore : IR -> Instruction -> bool.
Variable isVolatileLoad : IR -> Instruction -> bool.
Variable mayWriteToMemory : IR -> Instruction -> bool.
Variable mayReadFromMemory : IR -> Instruction -> bool.

(** The walk of the constructor over the instructions of one block: the
    statistic of the first disqualifying instruction, or the memory reads
    and writes collected so far. *)
Fixpoint scanInstructions (ir : IR) (Insts : list Instruction)
    (Reads Writes : list Instruction)
  : Statistic + (list Instruction * list Instruction) :=
  match Insts with
  | [] => inr (Reads, Writes)
  | Inst :: Insts' =>
      if mayThrow ir Inst then inl MayThrowException
      else if isVolatileStore ir Inst then inl ContainsVolatileAccess
      else if isVolatileLoad ir Inst then inl ContainsVolatileAccess
      else
        let Writes' := if mayWriteToMemory ir Inst then Writes ++ [Inst]
                       else Writes in
        let Reads' := if mayReadFromMemory ir Inst then Reads ++ [Inst]
                      else Reads in
        scanInstructions ir Insts' Reads' Writes'
  end.

Fixpoint scanBlocks (ir : IR) (Blocks : list BasicBlock)
    (Reads Writes : list Instruction)
  : Statistic + (list Instruction * list Instruction) :=
  match Blocks with
  | [] => inr (Reads, Writes)
  | BB :: Blocks' =>
      if hasAddressTaken ir BB then inl AddressTakenBB
      else
        match scanInstructions ir (BasicBlock_instructions ir BB)
                Reads Writes with
        | inl Stat => inl Stat
        | inr (Reads', Writes') => scanBlocks ir Blocks' Reads' Writes'
        end
  end.

(** The constructor [FusionCandidate(L, DT, PDT, ORE)].

    It reads through two pointers that may be null.  [isRotated] passes
    the latch to [Loop::isLoopExiting], which walks the successors of
    the block it is given: a loop with several latches, whose
    [getLoopLatch] is null, ends the execution there.  And
    [reportInvalidCandidate] reads [Preheader->getParent()]: a loop
    without a preheader ends the execution when one of its instructions
    or blocks prevents fusion.  [isEligibleForFusion] calls
    [reportInvalidCandidate] on valid candidates only, whose preheader
    is not null. *)
Definition newFusionCandidate (Lp : Loop) (st : PassState)
  : Res (FusionCandidate * PassState) :=
  let ir := TheIR st in
  match getLoopLatch ir Lp with
  | None => NullDereference
  | Some TheLatch =>
      let Candidate := fun Reads Writes IsValid =>
        {| Preheader := getLoopPreheader ir Lp;
           Header := Some (Loop_getHeader ir Lp);
           ExitingBlock := getExitingBlock ir Lp;
           ExitBlock := getExitBlock ir Lp;
           Latch := Some TheLatch;
           L := Lp;
           MemReads := Reads;
           MemWrites := Writes;
           Valid := IsValid;
           GuardBranch := if isLoopExiting ir Lp (Some TheLatch)
                          then getLoopGuardBranch ir Lp else None |} in
      match scanBlocks ir (Loop_blocks ir Lp) [] [] with
      | inl Stat =>
          match getLoopPreheader ir Lp with
          | None => NullDereference
          | Some _ =>
              Ret (Candidate [] [] false,
                   snd (reportInvalidCandidate (Candidate [] [] false)
                          Stat st))
          end
      | inr (Reads, Writes) => Ret (Candidate Reads Writes true, st)
      end
  end.

(** *** The candidate sets

    A [FusionCandidateSet] is a [std::set] ordered by
    [FusionCandidateCompare]; it is the list of its elements in iteration
    order, and an iterator is an index into it.  [set_insert] gives the
    position of the element and whether it was inserted: an element
    equivalent to one of the set is not. *)
Fixpoint set_insert (ir : IR) (x : FusionCandidate)
    (CandSet : list FusionCandidate)
  : Res (nat * bool * list FusionCandidate) :=
  match CandSet with
  | [] => Ret (0, true, [x])
  | e :: CandSet' =>
      (before <- FusionCandidateCompare ir x e ;;
       if before then Ret (0, true, x :: e :: CandSet')
       else
         after <- FusionCandidateCompare ir e x ;;
         if after then
           r <- set_insert ir x CandSet' ;;
           let '(pos, inserted, CandSet'') := r in
           Ret (S pos, inserted, e :: CandSet'')
         else Ret (0, false, e :: CandSet'))%res
  end.

Fixpoint set_erase (pos : nat) (CandSet : list FusionCandidate)
  : list FusionCandidate :=
  match pos, CandSet with
  | _, [] => []
  | O, _ :: CandSet' => CandSet'
  | S pos', e :: CandSet' => e :: set_erase pos' CandSet'
  end.

(** The CFG surgery of [performFusion] is not part of this embedding: it
    gives the new state of the function and the surviving loop. *)
Variable performFusion : IR -> FusionCandidate -> FusionCandidate -> IR * Loop.

(** The end of the body of the inner loop, from "Report fusion to the
    Optimization Remarks" to [LDT.removeLoop]. *)
Definition fusePair (FC0 FC1 : FusionCandidate) (st : PassState)
  : Res (FusionCandidate * PassState) :=
  let st1 := snd (reportLoopFusion OptimizationRemark FC0 FC1 FuseCounter
                    st) in
  let (ir', FusedLoop) := performFusion (TheIR st1) FC0 FC1 in
  (r <- newFusionCandidate FusedLoop (snd (setIR ir' st1)) ;;
   let (FusedCand, st2) := r : FusionCandidate * PassState in
   Ret (FusedCand, snd (removeLoop (L FC1) st2)))%res.

(** The two nested loops of [fuseCandidates] over one candidate set.
    [FC0] and [FC1] are the two iterators; one unfolding of the function
    is one evaluation of [++FC1; FC1 != CandidateSet.end()], followed by
    the body of the inner loop, or by [++FC0] and the start of the next
    inner loop when the inner loop is exhausted.  [None] is "out of
    fuel". *)
Fixpoint fuseCandidateSet (fuel : nat) (CandidateSet : list FusionCandidate)
    (FC0 FC1 : nat) (Fused : bool) (st : PassState)
  : option (Res (bool * list FusionCandidate * PassState)) :=
  match fuel with
  | O => None
  | S fuel' =>
      match nth_error CandidateSet FC0 with
      | None => Some (Ret (Fused, CandidateSet, st))
      | Some Cand0 =>
          match nth_error CandidateSet (S FC1) with
          | None => fuseCandidateSet fuel' CandidateSet (S FC0) (S FC0) Fused st
          | Some Cand1 =>
              let (Legal, st1) := legalToFuse Cand0 Cand1 st in
              if Legal then
                match fusePair Cand0 Cand1 st1 with
                | Unreachable => Some Unreachable
                | NullDereference => Some NullDereference
                | Ret (FusedCand, st2) =>
                    match set_insert (TheIR st2) FusedCand
                            (set_erase FC0
                               (set_erase (S FC1) CandidateSet)) with
                    | Unreachable => Some Unreachable
                    | NullDereference => Some NullDereference
                    | Ret (InsertPos, _, CandidateSet') =>
                        fuseCandidateSet fuel' CandidateSet' InsertPos
                          InsertPos true st2
                    end
                end
              else fuseCandidateSet fuel' CandidateSet FC0 (S FC1) Fused st1
          end
      end
  end.

(** Enough fuel for a set of [n] candidates. *)
Definition fuseFuel (n : nat) : nat := (n + 2) * (n + 2) * (n + 2).

Fixpoint fuseCandidateSets (Sets : list (list FusionCandidate))
    (Fused : bool) (st : PassState)
  : option (Res (bool * list (list FusionCandidate) * PassState)) :=
  match Sets with
  | [] => Some (Ret (Fused, [], st))
  | CandidateSet :: Sets' =>
      if Nat.ltb (length CandidateSet) 2 then
        match fuseCandidateSets Sets' Fused st with
        | Some (Ret (Fused', Sets'', st')) =>
            Some (Ret (Fused', CandidateSet :: Sets'', st'))
        | r => r
        end
      else
        match fuseCandidateSet (fuseFuel (length CandidateSet))
                CandidateSet 0 0 Fused st with
        | Some (Ret (Fused1, CandidateSet', st1)) =>
            match fuseCandidateSets Sets' Fused1 st1 with
            | Some (Ret (Fused', Sets'', st')) =>
                Some (Ret (Fused', CandidateSet' :: Sets'', st'))
            | r => r
            end
        | Some Unreachable => Some Unreachable
        | Some NullDereference => Some NullDereference
        | None => None
        end
  end.

Definition fuseCandidates (st : PassState)
  : option (Res (bool * PassState)) :=
  match fuseCandidateSets (FusionCandidates st) false st with
  | Some (Ret (Fused, Sets, st')) =>
      Some (Ret (Fused, snd (setFusionCandidates Sets st')))
  | Some Unreachable => Some Unreachable
  | Some NullDereference => Some NullDereference
  | None => None
  end.


(** [collectFusionCandidates]: the set a new candidate goes to. *)
Fixpoint placeCandidate (ir : IR) (CurrCand : FusionCandidate)
    (Sets : list (list FusionCandidate))
  : Res (list (list FusionCandidate)) :=
  match Sets with
  | [] => Ret [[CurrCand]]
  | CurrCandSet :: Sets' =>
      match CurrCandSet with
      | First :: _ =>
          if isControlFlowEquivalent ir First CurrCand then
            (r <- set_insert ir CurrCand CurrCandSet ;;
             let '(_, _, CurrCandSet') := r in
             Ret (CurrCandSet' :: Sets'))%res
          else
            (Sets'' <- placeCandidate ir CurrCand Sets' ;;
             Ret (CurrCandSet :: Sets''))%res
      | [] =>
          (Sets'' <- placeCandidate ir CurrCand Sets' ;;
           Ret (CurrCandSet :: Sets''))%res
      end
  end.

Fixpoint collectFusionCandidates (LV : list Loop) (st : PassState)
  : Res PassState :=
  match LV with
  | [] => Ret st
  | Lp :: LV' =>
      match newFusionCandidate Lp st with
      | Unreachable => Unreachable
      | NullDereference => NullDereference
      | Ret (CurrCand, st1) =>
          let (Eligible, st2) := isEligibleForFusion CurrCand st1 in
          if negb Eligible then collectFusionCandidates LV' st2
          else
            match placeCandidate (TheIR st2) CurrCand
                    (FusionCandidates st2) with
            | Unreachable => Unreachable
            | NullDereference => NullDereference
            | Ret Sets =>
                collectFusionCandidates LV'
                  (snd ((setFusionCandidates Sets ;;;
                         incr NumFusionCandidates) st2))
            end
      end
  end.

(** *** The loops of each nesting level

    [LI] gives the top-level loops of the function and every loop gives
    its sub-loops; both are read from the function as it is when they are
    asked for. *)
Variable LI_topLevelLoops : IR -> list Loop.
Variable Loop_subLoops : IR -> Loop -> list Loop.

(** [LoopDepthTree].  Its set [RemovedLoops] is the field of that name of
    the state of the pass: a list that may repeat a loop, the set holding
    it once.  [Depth] is an [unsigned]. *)
Record LoopDepthTree : Type := {
  Depth : Z;
  LoopsOnLevel : list (list Loop)
}.

(** The constructor: one vector, the top-level loops from the last to the
    first, when the function has loops. *)
Definition newLoopDepthTree (ir : IR) : LoopDepthTree :=
  {| Depth := 1;
     LoopsOnLevel := match LI_topLevelLoops ir with
                     | [] => []
                     | _ :: _ => [rev (LI_topLevelLoops ir)]
                     end |}.

Definition isRemovedLoop (st : PassState) (Lp : Loop) : bool :=
  existsb (Pos.eqb Lp) (RemovedLoops st).

(** [size()]: the number of vectors minus the number of removed loops,
    in [size_t], taken to have 64 bits. *)
Definition LDT_size (LDT : LoopDepthTree) (st : PassState) : Z :=
  wrap 64 (Z.of_nat (length (LoopsOnLevel LDT)) -
           Z.of_nat (length (nodup Pos.eq_dec (RemovedLoops st)))).

Definition LDT_empty (LDT : LoopDepthTree) (st : PassState) : bool :=
  (LDT_size LDT st =? 0)%Z.

Definition descend (LDT : LoopDepthTree) : ST LoopDepthTree := fun st =>
  let LoopsOnNextLevel :=
    flat_map (fun LV =>
      flat_map (fun Lp =>
        if negb (isRemovedLoop st Lp) &&
           negb (Nat.eqb (length (Loop_subLoops (TheIR st) Lp)) 0)
        then [Loop_subLoops (TheIR st) Lp] else []) LV)
      (LoopsOnLevel LDT) in
  ({| Depth := wrap 32 (Depth LDT + 1); LoopsOnLevel := LoopsOnNextLevel |},
   {| Stats := Stats st;
      Remarks := Remarks st;
      RemovedLoops := [];
      FusionCandidates := FusionCandidates st;
      TheIR := TheIR st |}).

(** The loop of [fuseLoops] over the vectors of one level; [None] is
    passed on from [fuseCandidates]. *)
Fixpoint fuseLoopVectors (LVs : list (list Loop)) (Changed : bool)
    (st : PassState) : option (Res (bool * PassState)) :=
  match LVs with
  | [] => Some (Ret (Changed, st))
  | LV :: LVs' =>
      if Nat.eqb (length LV) 1 then fuseLoopVectors LVs' Changed st
      else
        match collectFusionCandidates LV st with
        | Unreachable => Some Unreachable
        | NullDereference => Some NullDereference
        | Ret st1 =>
            match fuseCandidates st1 with
            | Some (Ret (Fused, st2)) =>
                fuseLoopVectors LVs' (Changed || Fused) st2
            | Some Unreachable => Some Unreachable
            | Some NullDereference => Some NullDereference
            | None => None
            end
        end
  end.

(** The [while] loop of [fuseLoops], one level for each unit of fuel. *)
Fixpoint fuseLoops_levels (fuel : nat) (LDT : LoopDepthTree) (Changed : bool)
    (st : PassState) : option (Res (bool * PassState)) :=
  match fuel with
  | O => None
  | S fuel' =>
      if LDT_empty LDT st then Some (Ret (Changed, st))
      else
        match fuseLoopVectors (LoopsOnLevel LDT) Changed st with
        | Some (Ret (Changed', st1)) =>
            let (LDT', st2) := descend LDT st1 in
            fuseLoops_levels fuel' LDT' Changed'
              (snd (setFusionCandidates [] st2))
        | Some Unreachable => Some Unreachable
        | Some NullDereference => Some NullDereference
        | None => None
        end
  end.

(** The constructor of [LoopFuser] on the function of [st], with no
    candidate and no removed loop, followed by [fuseLoops]. *)
Definition fuseLoops (fuel : nat) (st : PassState)
  : option (Res (bool * PassState)) :=
  fuseLoops_levels fuel (newLoopDepthTree (TheIR st)) false
    {| Stats := Stats st;
       Remarks := Remarks st;
       RemovedLoops := [];
       FusionCandidates := [];
       TheIR := TheIR st |}.

(** *** The order of the checks, in the words of the specification

    The pairwise checks in their stated order: whether the check applies
    to the pair, whether it passes, and the statistic of its failure. *)

Definition spec_sameTripCount (ir : IR) (FC0 FC1 : FusionCandidate) : bool :=
  negb (isa_SCEVCouldNotCompute (getBackedgeTakenCount ir (L FC0))) &&
  negb (isa_SCEVCouldNotCompute (getBackedgeTakenCount ir (L FC1))) &&
  SCEV_eqb (getBackedgeTakenCount ir (L FC0))
           (getBackedgeTakenCount ir (L FC1)).

Definition spec_dependenceSafe (ir : IR) (FC0 FC1 : FusionCandidate) : bool :=
  writesOfFirstAllowFusion ir FC0 FC1 &&
  writesOfSecondAllowFusion ir FC0 FC1 &&
  negb (usesDefOfFirst ir FC0 FC1).

Definition spec_checks (ir : IR) (FC0 FC1 : FusionCandidate)
  : list (bool * bool * Statistic) :=
  let guarded0 := negb (isNull (GuardBranch FC0)) in
  let guarded1 := negb (isNull (GuardBranch FC1)) in
  [ (true, spec_sameTripCount ir FC0 FC1, NonEqualTripCount);
    (true, isAdjacent FC0 FC1, NonAdjacent);
    (guarded0 && guarded1, haveIdenticalGuards ir FC0 FC1,
       NonIdenticalGuards);
    (true, isEmptyPreheader ir FC1, NonEmptyPreheader);
    (guarded0, isEmptyExitBlock ir FC0, NonEmptyExitBlock);
    (guarded1, isEmptyGuardBlock ir FC1, NonEmptyGuardBlock);
    (true, spec_dependenceSafe ir FC0 FC1, InvalidDependencies);
    (true, isBeneficialFusion FC0 FC1, FusionNotBeneficial) ].

Definition spec_firstFailure (ir : IR) (FC0 FC1 : FusionCandidate)
  : option Statistic :=
  match find (fun c : bool * bool * Statistic =>
                let '(applies, passes, _) := c in applies && negb passes)
             (spec_checks ir FC0 FC1) with
  | Some (_, _, Stat) => Some Stat
  | None => None
  end.

Definition missedRemark (FC0 FC1 : FusionCandidate) (Stat : Statistic)
  : Remark :=
  {| RKind := OptimizationRemarkMissed; RStat := Stat; RLoop := L FC0;
     RCand1 := Preheader FC0; RCand2 := Preheader FC1 |}.

(** All pairs of a set, in the order the two nested loops visit them. *)
Fixpoint pairsInOrder (CandSet : list FusionCandidate)
  : list (FusionCandidate * FusionCandidate) :=
  match CandSet with
  | [] => []
  | FC0 :: CandSet' => map (pair FC0) CandSet' ++ pairsInOrder CandSet'
  end.

(** What rejecting a pair under [Stat] does to the state of the pass: one
    missed-optimization remark for the pair, [Stat] counted, and nothing
    else touched, except that an uncomputable trip count is also counted
    under [UncomputableTripCount]. *)
Definition rejectedUnder (Stat : Statistic) (FC0 FC1 : FusionCandidate)
    (st st' : PassState) : Prop :=
  Remarks st' = Remarks st ++ [missedRemark FC0 FC1 Stat] /\
  Stats st Stat < Stats st' Stat /\
  (forall S', S' <> Stat ->
     (S' = UncomputableTripCount -> Stat <> NonEqualTripCount) ->
     Stats st' S' = Stats st S') /\
  TheIR st' = TheIR st /\
  FusionCandidates st' = FusionCandidates st /\
  RemovedLoops st' = RemovedLoops st.

(** The state after the checks of each pair of a list, in order. *)
Definition runPairs (Pairs : list (FusionCandidate * FusionCandidate))
    (st : PassState) : PassState :=
  fold_left (fun st' p => snd (legalToFuse (fst p) (snd p) st')) Pairs st.

(** [R] is the missed-optimization remark of the first failing check of
    the pair [p]. *)
Definition remarkOfPair (ir : IR) (p : FusionCandidate * FusionCandidate)
    (R : Remark) : Prop :=
  exists Stat, spec_firstFailure ir (fst p) (snd p) = Some Stat /\
               R = missedRemark (fst p) (snd p) Stat.

(** The address comparison of the specification: both accesses have a
    pointer operand, the address of the first, restated for the second
    loop, is valid, the address of the second has no recurrence unrelated
    by dominance, and the engine knows [Pred] of the two addresses. *)
Definition spec_addressKnown (ir : IR) (Pred : Predicate) (L0 L1 : Loop)
    (I0 I1 : Instruction) : bool :=
  match getLoadStorePointerOperand ir I0,
        getLoadStorePointerOperand ir I1 with
  | Some Ptr0, Some Ptr1 =>
      let Rewritten :=
        AddRecLoopReplacer_visit ir L0 L1 true
          (getSCEVAtScope ir Ptr0 L0) true in
      snd Rewritten &&
      negb (SCEVExprContains
              (HasNonLinearDominanceRelation ir (Loop_getHeader ir L0))
              (getSCEVAtScope ir Ptr1 L1)) &&
      isKnownPredicate ir Pred (fst Rewritten) (getSCEVAtScope ir Ptr1 L1)
  | _, _ => false
  end.

(** A pair of accesses is allowed under the configured analyses, the
    scalar-evolution method comparing with [Pred]. *)
Definition spec_pairAllowed (ir : IR) (Pred : Predicate)
    (FC0 FC1 : FusionCandidate) (I0 I1 : Instruction) : bool :=
  match FusionDependenceAnalysis with
  | FUSION_DEPENDENCE_ANALYSIS_SCEV =>
      spec_addressKnown ir Pred (L FC0) (L FC1) I0 I1
  | FUSION_DEPENDENCE_ANALYSIS_DA => negb (DI_depends ir I0 I1)
  | FUSION_DEPENDENCE_ANALYSIS_ALL =>
      spec_addressKnown ir Pred (L FC0) (L FC1) I0 I1 ||
      negb (DI_depends ir I0 I1)
  end.

(** ** Properties *)

Lemma ptr_eqb_eq (a b : option BasicBlock) : ptr_eqb a b = true <-> a = b.
Proof.
  destruct a as [x|], b as [y|]; simpl; split; intro H;
    try congruence; try reflexivity.
  - apply Pos.eqb_eq in H. now subst.
  - injection H as ->. apply Pos.eqb_refl.
Qed.

(** What [isAdjacent] tests when the first candidate has no guard
    branch: that the first candidate's exit block is the second
    candidate's entry block, which is the second candidate's preheader
    when it is unguarded and the block of its guard branch when it is
    guarded.  The comment above [isAdjacent] speaks of the preheader;
    the two differ for a guarded second candidate. *)
Theorem isAdjacent_unguarded (FC0 FC1 : FusionCandidate) :
  GuardBranch FC0 = None ->
  (isAdjacent FC0 FC1 = true <-> ExitBlock FC0 = getEntryBlock FC1) /\
  (GuardBranch FC1 = None -> getEntryBlock FC1 = Preheader FC1) /\
  (forall GB, GuardBranch FC1 = Some GB ->
     getEntryBlock FC1 = Some (getParent GB)).
Proof.
  intro HG. unfold isAdjacent, getEntryBlock. rewrite HG. simpl.
  split; [apply ptr_eqb_eq|].
  split; [intros ->; reflexivity | intros GB ->; reflexivity].
Qed.

(** C8: the control-flow-equivalence test gives the same answer when its
    two arguments are exchanged.  The only thing asked of the dominator
    tree is that the entry blocks of the two candidates, if each
    dominates the other, are the same block; nothing is asked of it on
    any other block. *)
Theorem isControlFlowEquivalent_symmetric (ir : IR)
    (FC0 FC1 : FusionCandidate) :
  (DT_dominates ir (getEntryBlock FC0) (getEntryBlock FC1) = true ->
   DT_dominates ir (getEntryBlock FC1) (getEntryBlock FC0) = true ->
   getEntryBlock FC0 = getEntryBlock FC1) ->
  isControlFlowEquivalent ir FC0 FC1 = isControlFlowEquivalent ir FC1 FC0.
Proof.
  intros Hanti. unfold isControlFlowEquivalent.
  destruct (DT_dominates ir (getEntryBlock FC0) (getEntryBlock FC1)) eqn:H01;
    destruct (DT_dominates ir (getEntryBlock FC1) (getEntryBlock FC0)) eqn:H10;
    try reflexivity.
  now rewrite (Hanti eq_refl eq_refl).
Qed.

(** C9: the comparator of a candidate set answers [false] on two
    candidates with the same entry block, in particular on a candidate and
    itself, a block dominating itself; it never orders two candidates
    both ways; and it is transitive where dominance is.  So it is a
    strict order. *)
Theorem FusionCandidateCompare_irreflexive (ir : IR) :
  (forall b, DT_dominates ir b b = true) ->
  (forall a b c, DT_dominates ir a b = true -> DT_dominates ir b c = true ->
                 DT_dominates ir a c = true) ->
  (forall LHS RHS, getEntryBlock LHS = getEntryBlock RHS ->
     FusionCandidateCompare ir LHS RHS = Ret false) /\
  (forall FC, FusionCandidateCompare ir FC FC = Ret false) /\
  (forall LHS RHS, FusionCandidateCompare ir LHS RHS = Ret true ->
     FusionCandidateCompare ir RHS LHS = Ret false) /\
  (forall A B C, FusionCandidateCompare ir A B = Ret true ->
     FusionCandidateCompare ir B C = Ret true ->
     FusionCandidateCompare ir A C = Ret true).
Proof.
  intros Hrefl Htrans.
  assert (Hsame : forall LHS RHS, getEntryBlock LHS = getEntryBlock RHS ->
            FusionCandidateCompare ir LHS RHS = Ret false).
  { intros LHS RHS E. unfold FusionCandidateCompare.
    rewrite E, Hrefl. reflexivity. }
  split; [exact Hsame|].
  split; [intro FC; now apply Hsame|].
  split.
  - intros LHS RHS. unfold FusionCandidateCompare.
    destruct (DT_dominates ir (getEntryBlock RHS) (getEntryBlock LHS));
      [discriminate|].
    destruct (DT_dominates ir (getEntryBlock LHS) (getEntryBlock RHS));
      [reflexivity | discriminate].
  - intros A B C. unfold FusionCandidateCompare.
    destruct (DT_dominates ir (getEntryBlock B) (getEntryBlock A)) eqn:HBA;
      [discriminate|].
    destruct (DT_dominates ir (getEntryBlock A) (getEntryBlock B)) eqn:HAB;
      [|discriminate].
    destruct (DT_dominates ir (getEntryBlock C) (getEntryBlock B)) eqn:HCB;
      [discriminate|].
    destruct (DT_dominates ir (getEntryBlock B) (getEntryBlock C)) eqn:HBC;
      [|discriminate].
    intros _ _.
    destruct (DT_dominates ir (getEntryBlock C) (getEntryBlock A)) eqn:HCA.
    + rewrite (Htrans _ _ _ HCA HAB) in HCB. discriminate.
    + now rewrite (Htrans _ _ _ HAB HBC).
Qed.


Lemma identicalTripCounts_fst (FC0 FC1 : FusionCandidate) (st : PassState) :
  fst (identicalTripCounts FC0 FC1 st) =
  spec_sameTripCount (TheIR st) FC0 FC1.
Proof.
  unfold identicalTripCounts, spec_sameTripCount, bind, ret, getIR. simpl.
  destruct (isa_SCEVCouldNotCompute (getBackedgeTakenCount (TheIR st) (L FC0)));
    [reflexivity|].
  destruct (isa_SCEVCouldNotCompute (getBackedgeTakenCount (TheIR st) (L FC1)));
    reflexivity.
Qed.

Lemma identicalTripCounts_IR (FC0 FC1 : FusionCandidate) (st : PassState) :
  TheIR (snd (identicalTripCounts FC0 FC1 st)) = TheIR st.
Proof.
  unfold identicalTripCounts, bind, ret, getIR, incr. simpl.
  destruct (isa_SCEVCouldNotCompute (getBackedgeTakenCount (TheIR st) (L FC0)));
    [reflexivity|].
  destruct (isa_SCEVCouldNotCompute (getBackedgeTakenCount (TheIR st) (L FC1)));
    reflexivity.
Qed.

(** C5: the trip-count test accepts a pair exactly when both
    backedge-taken counts are computable and are the same expression
    object; when it rejects, [UncomputableTripCount] counts an
    uncomputable trip count, and the traversal counts the pair under
    [NonEqualTripCount], reports it as missed and goes to the next
    pair. *)
Theorem identicalTripCounts_same_expression
    (FC0 FC1 : FusionCandidate) (st : PassState) :
  let TripCount0 := getBackedgeTakenCount (TheIR st) (L FC0) in
  let TripCount1 := getBackedgeTakenCount (TheIR st) (L FC1) in
  (fst (identicalTripCounts FC0 FC1 st) = true <->
     TripCount0 <> SCEVCouldNotCompute /\
     TripCount1 <> SCEVCouldNotCompute /\
     TripCount0 = TripCount1) /\
  (fst (identicalTripCounts FC0 FC1 st) = false ->
     Stats (snd (identicalTripCounts FC0 FC1 st)) UncomputableTripCount =
       (if isa_SCEVCouldNotCompute TripCount0 ||
           isa_SCEVCouldNotCompute TripCount1
        then S (Stats st UncomputableTripCount)
        else Stats st UncomputableTripCount) /\
     fst (legalToFuse FC0 FC1 st) = false /\
     Stats (snd (legalToFuse FC0 FC1 st)) NonEqualTripCount =
       S (Stats st NonEqualTripCount) /\
     Remarks (snd (legalToFuse FC0 FC1 st)) =
       Remarks st ++ [missedRemark FC0 FC1 NonEqualTripCount]).
Proof.
  cbv zeta. split.
  - rewrite identicalTripCounts_fst. unfold spec_sameTripCount.
    rewrite !andb_true_iff, !negb_true_iff, !isa_SCEVCouldNotCompute_false,
      SCEV_eqb_eq.
    tauto.
  - unfold legalToFuse, identicalTripCounts, reportLoopFusion.
    unfold bind, ret, getIR, incr, emit. simpl.
    destruct (isa_SCEVCouldNotCompute
                (getBackedgeTakenCount (TheIR st) (L FC0))); simpl;
      [intros _; repeat split; reflexivity|].
    destruct (isa_SCEVCouldNotCompute
                (getBackedgeTakenCount (TheIR st) (L FC1))); simpl;
      [intros _; repeat split; reflexivity|].
    intros ->. simpl. repeat split; reflexivity.
Qed.

Lemma identicalTripCounts_run (FC0 FC1 : FusionCandidate) (st : PassState) :
  identicalTripCounts FC0 FC1 st =
  if spec_sameTripCount (TheIR st) FC0 FC1 then (true, st)
  else (false,
        if isa_SCEVCouldNotCompute (getBackedgeTakenCount (TheIR st) (L FC0))
           || isa_SCEVCouldNotCompute
                (getBackedgeTakenCount (TheIR st) (L FC1))
        then snd (incr UncomputableTripCount st) else st).
Proof.
  unfold identicalTripCounts, spec_sameTripCount, bind, ret, getIR. simpl.
  destruct (isa_SCEVCouldNotCompute (getBackedgeTakenCount (TheIR st) (L FC0)));
    [reflexivity|].
  destruct (isa_SCEVCouldNotCompute (getBackedgeTakenCount (TheIR st) (L FC1)));
    [reflexivity|].
  simpl. destruct (SCEV_eqb _ _); reflexivity.
Qed.

Lemma dependencesAllowFusion_run (FC0 FC1 : FusionCandidate) (st : PassState) :
  dependencesAllowFusion FC0 FC1 st =
  if spec_dependenceSafe (TheIR st) FC0 FC1 then (true, st)
  else (false, snd (incr InvalidDependencies st)).
Proof.
  unfold dependencesAllowFusion, spec_dependenceSafe, bind, ret, getIR. simpl.
  destruct (writesOfFirstAllowFusion (TheIR st) FC0 FC1); [|reflexivity].
  destruct (writesOfSecondAllowFusion (TheIR st) FC0 FC1); [|reflexivity].
  destruct (usesDefOfFirst (TheIR st) FC0 FC1); reflexivity.
Qed.

Ltac rejected_case :=
  intros r ->; simpl; split; [reflexivity|];
  unfold rejectedUnder; simpl;
  repeat split; try reflexivity; try lia;
  intros S' Hne Hun;
  repeat (destruct (Statistic_eq_dec _ _); try congruence);
  try (exfalso; now apply Hun).

Ltac report_case :=
  unfold reportLoopFusion, bind, ret, incr, emit; simpl; rejected_case.

(** One pair: the outcome of the checks is that of the first failing
    check of the specification's list. *)
Lemma legalToFuse_first_failure (FC0 FC1 : FusionCandidate) (st : PassState) :
  match spec_firstFailure (TheIR st) FC0 FC1 with
  | Some Stat =>
      fst (legalToFuse FC0 FC1 st) = false /\
      rejectedUnder Stat FC0 FC1 st (snd (legalToFuse FC0 FC1 st))
  | None => legalToFuse FC0 FC1 st = (true, st)
  end.
Proof.
  generalize (eq_refl (legalToFuse FC0 FC1 st)).
  generalize (legalToFuse FC0 FC1 st) at 1 3 4 5.
  unfold legalToFuse, spec_firstFailure, spec_checks, find.
  unfold bind at 1. rewrite identicalTripCounts_run.
  destruct (spec_sameTripCount (TheIR st) FC0 FC1); simpl.
  2:{ destruct (isa_SCEVCouldNotCompute
                  (getBackedgeTakenCount (TheIR st) (L FC0)) ||
                isa_SCEVCouldNotCompute
                  (getBackedgeTakenCount (TheIR st) (L FC1)));
        report_case. }
  destruct (isAdjacent FC0 FC1); simpl; [|report_case].
  unfold bind at 1, getIR at 1.
  destruct (negb (isNull (GuardBranch FC0))) eqn:G0;
    destruct (negb (isNull (GuardBranch FC1))) eqn:G1; simpl;
    (destruct (haveIdenticalGuards (TheIR st) FC0 FC1); simpl;
     try (report_case; fail));
    (destruct (isEmptyPreheader (TheIR st) FC1); simpl; [|report_case]);
    try (destruct (isEmptyExitBlock (TheIR st) FC0); simpl; [|report_case]);
    try (destruct (isEmptyGuardBlock (TheIR st) FC1); simpl; [|report_case]);
    (unfold bind at 1; rewrite dependencesAllowFusion_run;
     destruct (spec_dependenceSafe (TheIR st) FC0 FC1); simpl;
     [intros r ->; reflexivity | report_case]).
Qed.


Lemma legalToFuse_rejects (FC0 FC1 : FusionCandidate) (st : PassState) :
  spec_firstFailure (TheIR st) FC0 FC1 <> None ->
  fst (legalToFuse FC0 FC1 st) = false /\
  TheIR (snd (legalToFuse FC0 FC1 st)) = TheIR st /\
  exists R, remarkOfPair (TheIR st) (FC0, FC1) R /\
            Remarks (snd (legalToFuse FC0 FC1 st)) = Remarks st ++ [R].
Proof.
  intro Hf. pose proof (legalToFuse_first_failure FC0 FC1 st) as H.
  destruct (spec_firstFailure (TheIR st) FC0 FC1) as [Stat|] eqn:E;
    [|congruence].
  destruct H as (H1 & H2 & _ & _ & H3 & _).
  repeat split; try assumption.
  exists (missedRemark FC0 FC1 Stat). split; [|assumption].
  exists Stat. simpl. auto.
Qed.

Lemma runPairs_rejects (ir : IR)
    (Pairs : list (FusionCandidate * FusionCandidate)) :
  forall st, TheIR st = ir ->
  (forall p, In p Pairs -> spec_firstFailure ir (fst p) (snd p) <> None) ->
  TheIR (runPairs Pairs st) = ir /\
  exists NewRemarks,
    Remarks (runPairs Pairs st) = Remarks st ++ NewRemarks /\
    Forall2 (remarkOfPair ir) Pairs NewRemarks.
Proof.
  induction Pairs as [|p Pairs IH]; intros st Hir Hall.
  - split; [assumption|]. exists []. rewrite app_nil_r. split; constructor.
  - change (runPairs (p :: Pairs) st)
      with (runPairs Pairs (snd (legalToFuse (fst p) (snd p) st))).
    assert (Hp : spec_firstFailure (TheIR st) (fst p) (snd p) <> None)
      by (rewrite Hir; apply Hall; now left).
    destruct (legalToFuse_rejects _ _ _ Hp) as (_ & Hir1 & R & HR & HRem).
    destruct (IH (snd (legalToFuse (fst p) (snd p) st))) as (Hir2 & Rs & HRs & HF).
    + congruence.
    + intros q Hq. apply Hall. now right.
    + split; [exact Hir2|]. exists (R :: Rs). split.
      * rewrite HRs, HRem, <- app_assoc. reflexivity.
      * constructor; [|assumption].
        rewrite Hir in HR. destruct p; exact HR.
Qed.

Lemma nth_error_skipn_cons (A : Type) (l : list A) (n : nat) (x : A) :
  nth_error l n = Some x -> skipn n l = x :: skipn (S n) l.
Proof.
  revert n. induction l as [|y l IH]; intros [|n] H; simpl in *;
    try discriminate.
  - now injection H as ->.
  - now apply IH.
Qed.

(** The inner loop over the candidates after position [j], none of which
    may be fused with the candidate at [i]. *)
Lemma fuseCandidateSet_inner (CandidateSet : list FusionCandidate)
    (i : nat) (Cand0 : FusionCandidate) :
  nth_error CandidateSet i = Some Cand0 ->
  forall k j fuel Fused st,
    length CandidateSet = S j + k ->
    (forall Cand1, In Cand1 (skipn (S j) CandidateSet) ->
       spec_firstFailure (TheIR st) Cand0 Cand1 <> None) ->
    fuseCandidateSet (S k + fuel) CandidateSet i j Fused st =
    fuseCandidateSet fuel CandidateSet (S i) (S i) Fused
      (runPairs (map (pair Cand0) (skipn (S j) CandidateSet)) st).
Proof.
  intros Hi. induction k as [|k IH]; intros j fuel Fused st Hlen Hall.
  - assert (Hnone : nth_error CandidateSet (S j) = None)
      by (apply nth_error_None; lia).
    assert (Hskip : skipn (S j) CandidateSet = [])
      by (apply skipn_all2; lia).
    rewrite Hskip. cbn [plus fuseCandidateSet]. rewrite Hi, Hnone.
    reflexivity.
  - destruct (nth_error CandidateSet (S j)) as [Cand1|] eqn:Hj.
    2:{ apply nth_error_None in Hj. lia. }
    pose proof (nth_error_skipn_cons _ _ Hj) as Hskip.
    assert (Hf : spec_firstFailure (TheIR st) Cand0 Cand1 <> None).
    { apply Hall. rewrite Hskip. now left. }
    destruct (legalToFuse_rejects _ _ _ Hf) as (Hfalse & Hir & _).
    change (S (S k) + fuel) with (S (S k + fuel)).
    cbn [fuseCandidateSet]. rewrite Hi, Hj.
    destruct (legalToFuse Cand0 Cand1 st) as [Legal st1] eqn:HL.
    simpl in Hfalse, Hir. subst Legal.
    rewrite IH.
    + rewrite Hskip. unfold runPairs. simpl. rewrite HL. reflexivity.
    + lia.
    + intros C HC. rewrite Hir. apply Hall. rewrite Hskip. now right.
Qed.

Lemma pairsInOrder_In_cons (Cand0 : FusionCandidate)
    (Rest : list FusionCandidate) (p : FusionCandidate * FusionCandidate) :
  In p (pairsInOrder (Cand0 :: Rest)) <->
  (exists Cand1, In Cand1 Rest /\ p = (Cand0, Cand1)) \/
  In p (pairsInOrder Rest).
Proof.
  simpl. rewrite in_app_iff, in_map_iff.
  split; intros [H|H]; auto; left; destruct H as (c & H1 & H2); exists c;
    auto.
Qed.

(** The outer loop from position [i] on a set none of whose remaining
    pairs may be fused. *)
Lemma fuseCandidateSet_outer (CandidateSet : list FusionCandidate) :
  forall m i fuel Fused st,
    length CandidateSet = i + m ->
    m * (m + 1) + 1 <= fuel ->
    (forall p, In p (pairsInOrder (skipn i CandidateSet)) ->
       spec_firstFailure (TheIR st) (fst p) (snd p) <> None) ->
    fuseCandidateSet fuel CandidateSet i i Fused st =
    Some (Ret (Fused, CandidateSet,
               runPairs (pairsInOrder (skipn i CandidateSet)) st)).
Proof.
  induction m as [|m IH]; intros i fuel Fused st Hlen Hfuel Hall.
  - assert (Hnone : nth_error CandidateSet i = None)
      by (apply nth_error_None; lia).
    assert (Hskip : skipn i CandidateSet = []) by (apply skipn_all2; lia).
    rewrite Hskip. destruct fuel as [|fuel]; [lia|].
    cbn [fuseCandidateSet]. rewrite Hnone. reflexivity.
  - destruct (nth_error CandidateSet i) as [Cand0|] eqn:Hi.
    2:{ apply nth_error_None in Hi. lia. }
    pose proof (nth_error_skipn_cons _ _ Hi) as Hskip.
    rewrite Hskip in *.
    replace fuel with (S m + (fuel - S m)) by lia.
    rewrite (@fuseCandidateSet_inner CandidateSet i Cand0 Hi m i).
    + assert (Hfirst : forall p,
                In p (map (pair Cand0) (skipn (S i) CandidateSet)) ->
                spec_firstFailure (TheIR st) (fst p) (snd p) <> None).
      { intros p Hp. apply Hall. simpl. apply in_app_iff. now left. }
      destruct (runPairs_rejects (ir := TheIR st) _ st eq_refl Hfirst)
        as (Hir & _).
      rewrite IH.
      * simpl. unfold runPairs. rewrite fold_left_app. reflexivity.
      * lia.
      * nia.
      * intros p Hp. rewrite Hir. apply Hall.
        apply pairsInOrder_In_cons. now right.
    + lia.
    + intros Cand1 HC.
      apply (Hall (Cand0, Cand1)).
      apply pairsInOrder_In_cons. left. exists Cand1. auto.
Qed.

(** *** The traversal ends *)

Lemma set_insert_length (ir : IR) (x : FusionCandidate) :
  forall (CandSet CandSet' : list FusionCandidate) (pos : nat) (b : bool),
    set_insert ir x CandSet = Ret (pos, b, CandSet') ->
    length CandSet' <= S (length CandSet).
Proof.
  induction CandSet as [|e CandSet IH]; intros CandSet' pos b; simpl.
  - intros [= _ _ <-]. simpl. lia.
  - destruct (FusionCandidateCompare ir x e) as [[|]| |]; simpl;
      try discriminate.
    + intros [= _ _ <-]. simpl. lia.
    + destruct (FusionCandidateCompare ir e x) as [[|]| |]; simpl;
        try discriminate.
      * destruct (set_insert ir x CandSet) as [[[p' b'] l']| |] eqn:E; simpl;
          try discriminate.
        intros [= _ _ <-]. simpl. specialize (IH _ _ _ eq_refl). lia.
      * intros [= _ _ <-]. simpl. lia.
Qed.

Lemma set_erase_length (CandSet : list FusionCandidate) :
  forall pos, pos < length CandSet ->
    S (length (set_erase pos CandSet)) = length CandSet.
Proof.
  induction CandSet as [|e CandSet IH]; intros [|pos] H; simpl in *;
    try lia.
  rewrite IH; lia.
Qed.

(** The fuel that suffices from the iterators [FC0] and [FC1] of a set of
    [n] candidates. *)
Definition fuelBound (n FC0 FC1 : nat) : nat :=
  (n + 1) * (n + 1) * n + (n - FC0) * (n + 1) + (n - FC1) + 1.

(** The two loops over a candidate set end, fusions included: every
    fusion makes the set smaller, and between two fusions the iterators
    only advance. *)
Lemma fuseCandidateSet_terminates :
  forall fuel CandidateSet FC0 FC1 Fused st,
    FC0 <= FC1 ->
    fuelBound (length CandidateSet) FC0 FC1 <= fuel ->
    fuseCandidateSet fuel CandidateSet FC0 FC1 Fused st <> None.
Proof.
  induction fuel as [|fuel IH]; intros CandidateSet FC0 FC1 Fused st Hle Hfuel.
  - unfold fuelBound in Hfuel. rewrite Nat.add_1_r in Hfuel.
    inversion Hfuel.
  - cbn [fuseCandidateSet].
    destruct (nth_error CandidateSet FC0) as [Cand0|] eqn:E0; [|discriminate].
    assert (H0 : FC0 < length CandidateSet)
      by (apply nth_error_Some; congruence).
    destruct (nth_error CandidateSet (S FC1)) as [Cand1|] eqn:E1.
    + assert (H1 : S FC1 < length CandidateSet)
        by (apply nth_error_Some; congruence).
      destruct (legalToFuse Cand0 Cand1 st) as [[|] st1].
      * destruct (fusePair Cand0 Cand1 st1) as [[FusedCand st2]| |];
          [|discriminate..].
        destruct (set_insert (TheIR st2) FusedCand
                    (set_erase FC0 (set_erase (S FC1) CandidateSet)))
          as [[[InsertPos b] CandidateSet']| |] eqn:EI; [|discriminate..].
        apply set_insert_length in EI.
        pose proof (set_erase_length CandidateSet H1) as L1.
        assert (L0 : S (length (set_erase FC0
                                  (set_erase (S FC1) CandidateSet))) =
                     length (set_erase (S FC1) CandidateSet))
          by (apply set_erase_length; lia).
        apply IH; [lia|].
        unfold fuelBound in *.
        remember (length CandidateSet) as n.
        remember (length CandidateSet') as n'.
        assert (Hn : n' + 1 <= n) by lia.
        assert ((n' - InsertPos) * (n' + 1) <= n' * (n' + 1))
          by (apply Nat.mul_le_mono_r; lia).
        assert (n' - InsertPos <= n') by lia.
        assert ((n' + 1) * (n' + 1) * n' + n' * (n' + 1) + n' + 1 <=
                (n + 1) * (n + 1) * n).
        { replace ((n' + 1) * (n' + 1) * n' + n' * (n' + 1) + n' + 1)
            with ((n' + 1) * (n' + 1) * (n' + 1)) by ring.
          repeat apply Nat.mul_le_mono; lia. }
        lia.
      * apply IH; [lia|]. unfold fuelBound in *. lia.
    + apply nth_error_None in E1.
      apply IH; [lia|]. unfold fuelBound in *.
      remember (length CandidateSet) as n.
      replace (n - FC0) with (S (n - S FC0)) in Hfuel by lia.
      assert (n - S FC0 <= n) by lia.
      simpl in Hfuel. nia.
Qed.

Lemma fuseCandidateSets_terminates :
  forall Sets Fused st, fuseCandidateSets Sets Fused st <> None.
Proof.
  induction Sets as [|CandidateSet Sets IH]; intros Fused st; simpl;
    [discriminate|].
  destruct (Nat.ltb (length CandidateSet) 2).
  - specialize (IH Fused st).
    destruct (fuseCandidateSets Sets Fused st) as [[[[F' S'] st']| |]|];
      congruence.
  - pose proof (@fuseCandidateSet_terminates
                  (fuseFuel (length CandidateSet)) CandidateSet 0 0 Fused st
                  (Nat.le_refl 0)) as H.
    destruct (fuseCandidateSet (fuseFuel (length CandidateSet)) CandidateSet
                0 0 Fused st) as [[[[F1 C1] st1]| |]|].
    + specialize (IH F1 st1).
      destruct (fuseCandidateSets Sets F1 st1) as [[[[F' S'] st']| |]|];
        congruence.
    + discriminate.
    + discriminate.
    + elim H; [|reflexivity]. unfold fuelBound, fuseFuel.
      remember (length CandidateSet) as n.
      replace (n - 0) with n by lia.
      replace ((n + 1) * (n + 1) * n + n * (n + 1) + n + 1)
        with ((n + 1) * (n + 1) * (n + 1)) by ring.
      repeat apply Nat.mul_le_mono; lia.
Qed.

(** [fuseCandidates] returns. *)
Lemma fuseCandidates_terminates (st : PassState) : fuseCandidates st <> None.
Proof.
  unfold fuseCandidates.
  pose proof (fuseCandidateSets_terminates (FusionCandidates st) false st).
  destruct (fuseCandidateSets (FusionCandidates st) false st)
    as [[[[F S'] st']| |]|]; congruence.
Qed.

(** C7: the checks of a pair are made in the order trip-count equality,
    adjacency, guard identity, emptiness of the second preheader, of the
    first exit block, of the second guard block, dependence safety,
    profitability.  The first check that fails decides: its statistic is
    counted, one missed-optimization remark is emitted for the pair, and
    no later check leaves a trace.  The traversal then goes on: on a set
    none of whose pairs passes all checks it ends, having visited every
    pair in dominance order and emitted one remark for each. *)
Theorem fuseCandidates_checks_in_order :
  (forall FC0 FC1 st,
     match spec_firstFailure (TheIR st) FC0 FC1 with
     | Some Stat =>
         fst (legalToFuse FC0 FC1 st) = false /\
         rejectedUnder Stat FC0 FC1 st (snd (legalToFuse FC0 FC1 st))
     | None => legalToFuse FC0 FC1 st = (true, st)
     end) /\
  (forall CandidateSet Fused st,
     (forall p, In p (pairsInOrder CandidateSet) ->
        spec_firstFailure (TheIR st) (fst p) (snd p) <> None) ->
     exists st' NewRemarks,
       fuseCandidateSet (fuseFuel (length CandidateSet)) CandidateSet 0 0
         Fused st = Some (Ret (Fused, CandidateSet, st')) /\
       TheIR st' = TheIR st /\
       Remarks st' = Remarks st ++ NewRemarks /\
       Forall2 (remarkOfPair (TheIR st)) (pairsInOrder CandidateSet)
         NewRemarks).
Proof.
  split; [exact legalToFuse_first_failure|].
  intros CandidateSet Fused st Hall.
  destruct (runPairs_rejects (ir := TheIR st) _ st eq_refl Hall)
    as (Hir & Rs & HRs & HF).
  exists (runPairs (pairsInOrder CandidateSet) st), Rs.
  repeat split; try assumption.
  apply (fuseCandidateSet_outer CandidateSet (length CandidateSet) 0).
  - reflexivity.
  - unfold fuseFuel. nia.
  - exact Hall.
Qed.

Lemma accessDiffIsPositive_addressKnown (ir : IR) (L0 L1 : Loop)
    (I0 I1 : Instruction) (EqualIsInvalid : bool) :
  accessDiffIsPositive ir L0 L1 I0 I1 EqualIsInvalid =
  spec_addressKnown ir (if EqualIsInvalid then ICMP_SGT else ICMP_SGE)
    L0 L1 I0 I1.
Proof.
  unfold accessDiffIsPositive, spec_addressKnown.
  destruct (getLoadStorePointerOperand ir I0) as [Ptr0|]; [|reflexivity].
  destruct (getLoadStorePointerOperand ir I1) as [Ptr1|]; [|reflexivity].
  destruct (AddRecLoopReplacer_visit ir L0 L1 true
              (getSCEVAtScope ir Ptr0 L0) true) as [S0 [|]]; simpl;
    [|reflexivity].
  destruct (SCEVExprContains _ _); reflexivity.
Qed.

Lemma dependencesAllowFusionInst_pairAllowed (ir : IR)
    (FC0 FC1 : FusionCandidate) (I0 I1 : Instruction) (AnyDep : bool) :
  dependencesAllowFusionInst ir FC0 FC1 I0 I1 AnyDep FusionDependenceAnalysis =
  spec_pairAllowed ir (if AnyDep then ICMP_SGT else ICMP_SGE) FC0 FC1 I0 I1.
Proof.
  unfold dependencesAllowFusionInst, spec_pairAllowed.
  rewrite accessDiffIsPositive_addressKnown.
  destruct FusionDependenceAnalysis, (DI_depends ir I0 I1); reflexivity.
Qed.

(** C3, as the code has it: the address comparison asks for [>] only
    when it is called with [EqualIsInvalid]; the pairwise dependence check
    never does so, whatever the kinds of the two accesses.  Fusion is
    allowed exactly when every write of the first loop against every
    write and read of the second, and every write of the second against
    every write and read of the first, is allowed with the comparison
    [>=], and no instruction of the second loop uses a definition of the
    first. *)
Theorem dependencesAllowFusion_compares_with_SGE
    (FC0 FC1 : FusionCandidate) (st : PassState) :
  (forall I0 I1 EqualIsInvalid,
     accessDiffIsPositive (TheIR st) (L FC0) (L FC1) I0 I1 EqualIsInvalid =
     spec_addressKnown (TheIR st)
       (if EqualIsInvalid then ICMP_SGT else ICMP_SGE)
       (L FC0) (L FC1) I0 I1) /\
  (fst (dependencesAllowFusion FC0 FC1 st) = true <->
   (forall W0 X1, In W0 (MemWrites FC0) ->
      In X1 (MemWrites FC1 ++ MemReads FC1) ->
      spec_pairAllowed (TheIR st) ICMP_SGE FC0 FC1 W0 X1 = true) /\
   (forall W1 X0, In W1 (MemWrites FC1) ->
      In X0 (MemWrites FC0 ++ MemReads FC0) ->
      spec_pairAllowed (TheIR st) ICMP_SGE FC0 FC1 X0 W1 = true) /\
   usesDefOfFirst (TheIR st) FC0 FC1 = false).
Proof.
  split; [intros; apply accessDiffIsPositive_addressKnown|].
  rewrite dependencesAllowFusion_run.
  assert (H : fst (if spec_dependenceSafe (TheIR st) FC0 FC1
                   then (true, st)
                   else (false, snd (incr InvalidDependencies st))) =
              spec_dependenceSafe (TheIR st) FC0 FC1)
    by (destruct (spec_dependenceSafe (TheIR st) FC0 FC1); reflexivity).
  rewrite H. clear H. unfold spec_dependenceSafe.
  rewrite !andb_true_iff, negb_true_iff.
  unfold writesOfFirstAllowFusion, writesOfSecondAllowFusion.
  rewrite !forallb_forall.
  split.
  - intros ((H1 & H2) & H3). repeat split; try assumption.
    + intros W0 X1 HW HX. specialize (H1 W0 HW).
      rewrite andb_true_iff, !forallb_forall in H1.
      rewrite <- (dependencesAllowFusionInst_pairAllowed _ _ _ _ _ false).
      destruct H1 as (H1a & H1b).
      apply in_app_iff in HX. destruct HX as [HX|HX];
        [exact (H1a _ HX) | exact (H1b _ HX)].
    + intros W1 X0 HW HX. specialize (H2 W1 HW).
      rewrite andb_true_iff, !forallb_forall in H2.
      rewrite <- (dependencesAllowFusionInst_pairAllowed _ _ _ _ _ false).
      destruct H2 as (H2a & H2b).
      apply in_app_iff in HX. destruct HX as [HX|HX];
        [exact (H2a _ HX) | exact (H2b _ HX)].
  - intros (H1 & H2 & H3). repeat split; try assumption.
    + intros W0 HW. rewrite andb_true_iff, !forallb_forall.
      split; intros X HX;
        rewrite (dependencesAllowFusionInst_pairAllowed _ _ _ _ _ false);
        apply H1; try assumption; apply in_app_iff; auto.
    + intros W1 HW. rewrite andb_true_iff, !forallb_forall.
      split; intros X HX;
        rewrite (dependencesAllowFusionInst_pairAllowed _ _ _ _ _ false);
        apply H2; try assumption; apply in_app_iff; auto.
Qed.

(** ** The construction of a candidate and its eligibility *)

(** An instruction that disqualifies its loop: it may throw, or it is a
    volatile store or a volatile load. *)
Definition preventsFusion (ir : IR) (Inst : Instruction) : bool :=
  mayThrow ir Inst || isVolatileStore ir Inst || isVolatileLoad ir Inst.

(** What the statistic reported by the constructor says of the blocks it
    walked. *)
Definition disqualifies (ir : IR) (Blocks : list BasicBlock)
    (Stat : Statistic) : Prop :=
  match Stat with
  | AddressTakenBB => existsb (hasAddressTaken ir) Blocks = true
  | MayThrowException =>
      existsb (mayThrow ir) (flat_map (BasicBlock_instructions ir) Blocks)
      = true
  | ContainsVolatileAccess =>
      existsb (fun Inst => isVolatileStore ir Inst || isVolatileLoad ir Inst)
        (flat_map (BasicBlock_instructions ir) Blocks) = true
  | _ => False
  end.

(** The statistic [isEligibleForFusion] counts for a null member. *)
Definition invalidField (ir : IR) (FC : FusionCandidate) (Stat : Statistic)
  : bool :=
  match Stat with
  | InvalidPreheader => isNull (Preheader FC)
  | InvalidHeader => isNull (Header FC)
  | InvalidExitingBlock => isNull (ExitingBlock FC)
  | InvalidExitBlock => isNull (ExitBlock FC)
  | InvalidLatch => isNull (Latch FC)
  | InvalidLoop => Loop_isInvalid ir (L FC)
  | _ => false
  end.

(** The remark of [reportInvalidCandidate]. *)
Definition analysisRemark (FC : FusionCandidate) (Stat : Statistic) : Remark :=
  {| RKind := OptimizationRemarkAnalysis; RStat := Stat; RLoop := L FC;
     RCand1 := Preheader FC; RCand2 := None |}.

Lemma scanInstructions_outcome (ir : IR) (Insts : list Instruction) :
  forall Reads Writes,
    match scanInstructions ir Insts Reads Writes with
    | inl Stat =>
        existsb (preventsFusion ir) Insts = true /\
        ((Stat = MayThrowException /\ existsb (mayThrow ir) Insts = true) \/
         (Stat = ContainsVolatileAccess /\
          existsb (fun Inst => isVolatileStore ir Inst ||
                               isVolatileLoad ir Inst) Insts = true))
    | inr (Reads', Writes') =>
        existsb (preventsFusion ir) Insts = false /\
        Reads' = Reads ++ filter (mayReadFromMemory ir) Insts /\
        Writes' = Writes ++ filter (mayWriteToMemory ir) Insts
    end.
Proof.
  induction Insts as [|Inst Insts IH]; intros Reads Writes; simpl.
  - now rewrite !app_nil_r.
  - unfold preventsFusion at 1 3.
    destruct (mayThrow ir Inst) eqn:ET; simpl; [auto|].
    destruct (isVolatileStore ir Inst) eqn:ES; simpl; [auto|].
    destruct (isVolatileLoad ir Inst) eqn:EL; simpl; [auto|].
    specialize (IH (if mayReadFromMemory ir Inst then Reads ++ [Inst]
                    else Reads)
                   (if mayWriteToMemory ir Inst then Writes ++ [Inst]
                    else Writes)).
    destruct (scanInstructions ir Insts _ _) as [Stat|[Reads' Writes']].
    + exact IH.
    + destruct IH as (H0 & H1 & H2). split; [exact H0|].
      rewrite H1, H2.
      destruct (mayReadFromMemory ir Inst), (mayWriteToMemory ir Inst);
        rewrite <- ?app_assoc; split; reflexivity.
Qed.

Lemma scanBlocks_outcome (ir : IR) (Blocks : list BasicBlock) :
  forall Reads Writes,
    let Insts := flat_map (BasicBlock_instructions ir) Blocks in
    match scanBlocks ir Blocks Reads Writes with
    | inl Stat =>
        existsb (hasAddressTaken ir) Blocks ||
        existsb (preventsFusion ir) Insts = true /\
        disqualifies ir Blocks Stat
    | inr (Reads', Writes') =>
        existsb (hasAddressTaken ir) Blocks ||
        existsb (preventsFusion ir) Insts = false /\
        Reads' = Reads ++ filter (mayReadFromMemory ir) Insts /\
        Writes' = Writes ++ filter (mayWriteToMemory ir) Insts
    end.
Proof.
  induction Blocks as [|BB Blocks IH]; intros Reads Writes; cbv zeta.
  - simpl. now rewrite !app_nil_r.
  - cbn [scanBlocks flat_map existsb].
    destruct (hasAddressTaken ir BB) eqn:EA.
    + simpl. rewrite EA. auto.
    + pose proof (scanInstructions_outcome ir (BasicBlock_instructions ir BB)
                    Reads Writes) as HI.
      rewrite existsb_app.
      destruct (scanInstructions ir (BasicBlock_instructions ir BB)
                  Reads Writes) as [Stat|[Reads1 Writes1]].
      * destruct HI as (HP & HS). rewrite HP, orb_true_r. split; [simpl; auto|].
        destruct HS as [(-> & HT)|(-> & HV)]; simpl;
          rewrite existsb_app; [rewrite HT|rewrite HV]; reflexivity.
      * destruct HI as (HP & -> & ->). rewrite HP. simpl.
        specialize (IH (Reads ++ filter (mayReadFromMemory ir)
                                   (BasicBlock_instructions ir BB))
                       (Writes ++ filter (mayWriteToMemory ir)
                                    (BasicBlock_instructions ir BB))).
        cbv zeta in IH.
        destruct (scanBlocks ir Blocks _ _) as [Stat|[Reads' Writes']].
        -- destruct IH as (H0 & HS). split; [exact H0|].
           destruct Stat; simpl in HS |- *; try contradiction;
             rewrite ?existsb_app, ?EA, ?HS, ?orb_true_r; reflexivity.
        -- destruct IH as (H0 & -> & ->). split; [exact H0|].
           rewrite !filter_app, !app_assoc. split; reflexivity.
Qed.

Lemma when_incr_outcome (c : bool) (Stat : Statistic) (st : PassState)
    (u : unit) (st' : PassState) :
  when c (incr Stat) st = (u, st') ->
  Remarks st' = Remarks st /\ TheIR st' = TheIR st /\
  FusionCandidates st' = FusionCandidates st /\
  RemovedLoops st' = RemovedLoops st /\
  forall S', Stats st' S' =
    Stats st S' + (if Statistic_eq_dec S' Stat
                   then if c then 1 else 0 else 0).
Proof.
  destruct c; unfold when, incr, ret; intros [= _ <-]; simpl;
    repeat split; intros S'; destruct (Statistic_eq_dec S' Stat); lia.
Qed.

(** X1: the outcome of the constructor of a candidate.  It reads through
    a null pointer exactly when the loop has no single latch, or has no
    preheader and one of its blocks or instructions prevents fusion.
    Otherwise it returns a candidate with the blocks of the loop, its
    latch not null, marked valid exactly when no block of the loop has
    its address taken and no instruction may throw or is a volatile
    access.  A valid candidate holds the instructions of the loop that
    may read memory and those that may write memory, each list in the
    order of the walk, and its construction leaves no trace; an invalid
    one holds no instruction at all, has a preheader, and its
    construction is reported once, as an analysis remark under the
    statistic of a disqualifying block or instruction, that statistic
    being counted once. *)
Theorem newFusionCandidate_collects (Lp : Loop) (st : PassState) :
  let ir := TheIR st in
  let Insts := flat_map (BasicBlock_instructions ir) (Loop_blocks ir Lp) in
  let Disqualified := existsb (hasAddressTaken ir) (Loop_blocks ir Lp) ||
                      existsb (preventsFusion ir) Insts in
  match newFusionCandidate Lp st with
  | NullDereference =>
      getLoopLatch ir Lp = None \/
      (Disqualified = true /\ getLoopPreheader ir Lp = None)
  | Unreachable => False
  | Ret (FC, st') =>
      getLoopLatch ir Lp <> None /\
      (Disqualified = true -> getLoopPreheader ir Lp <> None) /\
      (Preheader FC = getLoopPreheader ir Lp /\
       Header FC = Some (Loop_getHeader ir Lp) /\
       ExitingBlock FC = getExitingBlock ir Lp /\
       ExitBlock FC = getExitBlock ir Lp /\
       Latch FC = getLoopLatch ir Lp /\
       L FC = Lp /\
       GuardBranch FC = if isLoopExiting ir Lp (getLoopLatch ir Lp)
                        then getLoopGuardBranch ir Lp else None) /\
      Valid FC = negb Disqualified /\
      (Valid FC = true ->
         MemReads FC = filter (mayReadFromMemory ir) Insts /\
         MemWrites FC = filter (mayWriteToMemory ir) Insts /\
         st' = st) /\
      (Valid FC = false ->
         MemReads FC = [] /\ MemWrites FC = [] /\
         exists Stat,
           disqualifies ir (Loop_blocks ir Lp) Stat /\
           Remarks st' = Remarks st ++ [analysisRemark FC Stat] /\
           (forall S', Stats st' S' =
              if Statistic_eq_dec S' Stat then S (Stats st S')
              else Stats st S') /\
           TheIR st' = TheIR st /\
           FusionCandidates st' = FusionCandidates st /\
           RemovedLoops st' = RemovedLoops st)
  end.
Proof.
  cbv zeta. unfold newFusionCandidate.
  pose proof (scanBlocks_outcome (TheIR st) (Loop_blocks (TheIR st) Lp) [] [])
    as H. cbv zeta in H.
  destruct (getLoopLatch (TheIR st) Lp) as [TheLatch|] eqn:ELatch;
    [|left; reflexivity].
  destruct (scanBlocks (TheIR st) (Loop_blocks (TheIR st) Lp) [] [])
    as [Stat|[Reads Writes]].
  - destruct H as (H0 & HS). rewrite H0.
    destruct (getLoopPreheader (TheIR st) Lp) as [ThePreheader|] eqn:EPre;
      [|right; split; reflexivity].
    unfold reportInvalidCandidate, bind, ret, incr, emit. simpl.
    split; [discriminate|]. split; [discriminate|].
    split; [repeat split; reflexivity|].
    split; [reflexivity|].
    split; [discriminate|]. intros _.
    split; [reflexivity|]. split; [reflexivity|].
    exists Stat. split; [exact HS|].
    split; [reflexivity|].
    split; [intros; reflexivity|].
    repeat split; reflexivity.
  - destruct H as (H0 & -> & ->). rewrite H0. simpl.
    split; [discriminate|]. split; [discriminate|].
    split; [repeat split; reflexivity|].
    split; [reflexivity|].
    split; [intros _; repeat split; reflexivity | discriminate].
Qed.

(** X2: a candidate is eligible exactly when it is valid, its loop has a
    loop-invariant backedge-taken count and is in simplified form; an
    eligible candidate leaves no trace.  For a candidate that is not
    valid, each null member and an invalid loop are counted once under
    their own statistics and nothing is reported: a candidate the
    constructor invalidated, all of whose members are set, is rejected
    with no counter changed.  A valid candidate that is not eligible is
    reported once, under [UnknownTripCount] when the trip count is not
    invariant and under [NotSimplifiedForm] otherwise. *)
Theorem isEligibleForFusion_outcome (FC : FusionCandidate) (st : PassState) :
  let ir := TheIR st in
  let st' := snd (isEligibleForFusion FC st) in
  fst (isEligibleForFusion FC st) =
    isValid ir FC && hasLoopInvariantBackedgeTakenCount ir (L FC) &&
    isLoopSimplifyForm ir (L FC) /\
  (fst (isEligibleForFusion FC st) = true -> st' = st) /\
  (isValid ir FC = false ->
     Remarks st' = Remarks st /\
     forall Stat, Stats st' Stat =
       Stats st Stat + (if invalidField ir FC Stat then 1 else 0)) /\
  (isValid ir FC = true -> fst (isEligibleForFusion FC st) = false ->
     let Stat := if hasLoopInvariantBackedgeTakenCount ir (L FC)
                 then NotSimplifiedForm else UnknownTripCount in
     Remarks st' = Remarks st ++ [analysisRemark FC Stat] /\
     forall S', Stats st' S' =
       if Statistic_eq_dec S' Stat then S (Stats st S') else Stats st S') /\
  TheIR st' = TheIR st /\
  FusionCandidates st' = FusionCandidates st /\
  RemovedLoops st' = RemovedLoops st.
Proof.
  cbv zeta. unfold isEligibleForFusion, bind, getIR, ret.
  destruct (isValid (TheIR st) FC) eqn:EV; simpl.
  - unfold reportInvalidCandidate, bind, ret, incr, emit.
    destruct (hasLoopInvariantBackedgeTakenCount (TheIR st) (L FC)); simpl.
    + destruct (isLoopSimplifyForm (TheIR st) (L FC)); simpl.
      * split; [reflexivity|]. split; [reflexivity|].
        split; [discriminate|]. split; [discriminate|]. repeat split.
      * split; [reflexivity|]. split; [discriminate|].
        split; [discriminate|].
        split; [intros _ _; split; [reflexivity|intros; reflexivity]|].
        repeat split.
    + split; [reflexivity|]. split; [discriminate|].
      split; [discriminate|].
      split; [intros _ _; split; [reflexivity|intros; reflexivity]|].
      repeat split.
  - destruct (when (isNull (Preheader FC)) (incr InvalidPreheader) st)
      as [u1 st1] eqn:E1.
    destruct (when (isNull (Header FC)) (incr InvalidHeader) st1)
      as [u2 st2] eqn:E2.
    destruct (when (isNull (ExitingBlock FC)) (incr InvalidExitingBlock) st2)
      as [u3 st3] eqn:E3.
    destruct (when (isNull (ExitBlock FC)) (incr InvalidExitBlock) st3)
      as [u4 st4] eqn:E4.
    destruct (when (isNull (Latch FC)) (incr InvalidLatch) st4)
      as [u5 st5] eqn:E5.
    destruct (when (Loop_isInvalid (TheIR st) (L FC)) (incr InvalidLoop) st5)
      as [u6 st6] eqn:E6.
    apply when_incr_outcome in E1, E2, E3, E4, E5, E6.
    destruct E1 as (R1 & I1 & F1 & L1 & S1), E2 as (R2 & I2 & F2 & L2 & S2),
      E3 as (R3 & I3 & F3 & L3 & S3), E4 as (R4 & I4 & F4 & L4 & S4),
      E5 as (R5 & I5 & F5 & L5 & S5), E6 as (R6 & I6 & F6 & L6 & S6).
    simpl. split; [reflexivity|]. split; [discriminate|].
    split; [intros _; split; [congruence|]|].
    { intros Stat. rewrite S6, S5, S4, S3, S2, S1.
      destruct Stat; simpl; lia. }
    split; [discriminate|]. repeat split; congruence.
Qed.

(** X3: for a first candidate with a guard branch, the adjacency test
    succeeds exactly when the successor of the guard outside the loop is
    the entry block of the second candidate.  That successor is the second
    successor of the guard when the first one is the preheader, the first
    one otherwise, so it is the preheader only when both successors
    are. *)
Theorem isAdjacent_guarded (FC0 FC1 : FusionCandidate) (GB : BranchInst) :
  GuardBranch FC0 = Some GB ->
  (isAdjacent FC0 FC1 = true <-> getNonLoopBlock FC0 = getEntryBlock FC1) /\
  (Some (getSuccessor0 GB) = Preheader FC0 ->
     getNonLoopBlock FC0 = Some (getSuccessor1 GB)) /\
  (Some (getSuccessor0 GB) <> Preheader FC0 ->
     getNonLoopBlock FC0 = Some (getSuccessor0 GB)) /\
  (getNonLoopBlock FC0 = Preheader FC0 ->
     Some (getSuccessor0 GB) = Preheader FC0 /\
     Some (getSuccessor1 GB) = Preheader FC0).
Proof.
  intro HG. unfold isAdjacent, getNonLoopBlock. rewrite HG.
  cbn [isNull negb].
  split; [apply ptr_eqb_eq|].
  destruct (ptr_eqb (Some (getSuccessor0 GB)) (Preheader FC0)) eqn:E.
  - apply ptr_eqb_eq in E.
    split; [reflexivity|]. split; [congruence|]. intros H. split; congruence.
  - assert (Hne : Some (getSuccessor0 GB) <> Preheader FC0).
    { intro H. apply ptr_eqb_eq in H. congruence. }
    split; [congruence|]. split; [reflexivity|]. intros H. congruence.
Qed.

(** X4: two guards are found identical exactly when their conditions,
    where both are instructions, are identical instructions, and the loop
    of the second guard is on the side of its branch where the loop of
    the first guard is on its own: the first side when the first
    successor of the first guard is its preheader, the second side
    otherwise.  Conditions are not compared when one of them is not an
    instruction. *)
Theorem haveIdenticalGuards_iff (ir : IR) (FC0 FC1 : FusionCandidate)
    (GB0 GB1 : BranchInst) :
  GuardBranch FC0 = Some GB0 -> GuardBranch FC1 = Some GB1 ->
  (haveIdenticalGuards ir FC0 FC1 = true <->
   (forall C0 C1, getCondition GB0 = Some C0 -> getCondition GB1 = Some C1 ->
      isIdenticalTo ir C0 C1 = true) /\
   ((Some (getSuccessor0 GB0) = Preheader FC0 /\
     Some (getSuccessor0 GB1) = Preheader FC1) \/
    (Some (getSuccessor0 GB0) <> Preheader FC0 /\
     Some (getSuccessor1 GB1) = Preheader FC1))).
Proof.
  intros H0 H1. unfold haveIdenticalGuards. rewrite H0, H1.
  cbv zeta.
  assert (Hside :
    (if ptr_eqb (Some (getSuccessor0 GB0)) (Preheader FC0)
     then ptr_eqb (Some (getSuccessor0 GB1)) (Preheader FC1)
     else ptr_eqb (Some (getSuccessor1 GB1)) (Preheader FC1)) = true <->
    ((Some (getSuccessor0 GB0) = Preheader FC0 /\
      Some (getSuccessor0 GB1) = Preheader FC1) \/
     (Some (getSuccessor0 GB0) <> Preheader FC0 /\
      Some (getSuccessor1 GB1) = Preheader FC1))).
  { destruct (ptr_eqb (Some (getSuccessor0 GB0)) (Preheader FC0)) eqn:E.
    - apply ptr_eqb_eq in E. rewrite ptr_eqb_eq. split.
      + intros H. left. split; assumption.
      + intros [(_ & H)|(Hn & _)]; [exact H | elim Hn; exact E].
    - assert (Hne : Some (getSuccessor0 GB0) <> Preheader FC0).
      { intro H. apply ptr_eqb_eq in H. congruence. }
      rewrite ptr_eqb_eq. split.
      + intros H. right. split; assumption.
      + intros [(HA & _)|(_ & H)]; [elim Hne; exact HA | exact H]. }
  destruct (getCondition GB0) as [C0|], (getCondition GB1) as [C1|];
    try (rewrite Hside; split;
         [intros H; split; [intros ? ? ? ?; discriminate|exact H]
         |intros (_ & H); exact H]).
  destruct (isIdenticalTo ir C0 C1) eqn:EI; simpl.
  - rewrite Hside. split.
    + intros H. split; [|exact H]. intros ? ? [= <-] [= <-]. exact EI.
    + intros (_ & H). exact H.
  - split; [discriminate|]. intros (H & _).
    specialize (H C0 C1 eq_refl eq_refl). congruence.
Qed.

(** ** The candidate sets *)

(** A set in dominance order: the comparator puts every candidate before
    all those that follow it. *)
Fixpoint inDominanceOrder (ir : IR) (CandSet : list FusionCandidate) : Prop :=
  match CandSet with
  | [] => True
  | e :: CandSet' =>
      Forall (fun e' => FusionCandidateCompare ir e e' = Ret true) CandSet' /\
      inDominanceOrder ir CandSet'
  end.

Lemma FusionCandidateCompare_trans (ir : IR) (A B C : FusionCandidate) :
  (forall a b c, DT_dominates ir a b = true -> DT_dominates ir b c = true ->
                 DT_dominates ir a c = true) ->
  FusionCandidateCompare ir A B = Ret true ->
  FusionCandidateCompare ir B C = Ret true ->
  FusionCandidateCompare ir A C = Ret true.
Proof.
  intros Htrans. unfold FusionCandidateCompare.
  destruct (DT_dominates ir (getEntryBlock B) (getEntryBlock A)) eqn:HBA;
    [discriminate|].
  destruct (DT_dominates ir (getEntryBlock A) (getEntryBlock B)) eqn:HAB;
    [|discriminate].
  destruct (DT_dominates ir (getEntryBlock C) (getEntryBlock B)) eqn:HCB;
    [discriminate|].
  destruct (DT_dominates ir (getEntryBlock B) (getEntryBlock C)) eqn:HBC;
    [|discriminate].
  intros _ _.
  destruct (DT_dominates ir (getEntryBlock C) (getEntryBlock A)) eqn:HCA.
  - rewrite (Htrans _ _ _ HCA HAB) in HCB. discriminate.
  - now rewrite (Htrans _ _ _ HAB HBC).
Qed.

Lemma set_insert_In (ir : IR) (x : FusionCandidate) :
  forall CandSet pos inserted CandSet',
    set_insert ir x CandSet = Ret (pos, inserted, CandSet') ->
    forall e, In e CandSet' -> e = x \/ In e CandSet.
Proof.
  induction CandSet as [|e0 CandSet IH]; intros pos inserted CandSet'; simpl.
  - intros [= _ _ <-] e [<-|[]]. now left.
  - destruct (FusionCandidateCompare ir x e0) as [[|]| |]; simpl;
      try discriminate.
    + intros [= _ _ <-] e [<-|H]; auto.
    + destruct (FusionCandidateCompare ir e0 x) as [[|]| |]; simpl;
        try discriminate.
      * destruct (set_insert ir x CandSet) as [[[p' b'] l']| |] eqn:E; simpl;
          try discriminate.
        intros [= _ _ <-] e [<-|H]; [right; now left|].
        destruct (IH _ _ _ eq_refl e H); auto.
      * intros [= _ _ <-] e H. now right.
Qed.

(** X5: what an insertion into a candidate set returns.  When the
    candidate is inserted, it is at the returned position of the new set,
    the new set has one element more, and erasing that position gives the
    old set back.  When it is not, the set is unchanged and the returned
    position is that of an element the comparator orders neither before
    nor after the candidate. *)
Theorem set_insert_position (ir : IR) (x : FusionCandidate) :
  forall CandSet pos inserted CandSet',
    set_insert ir x CandSet = Ret (pos, inserted, CandSet') ->
    if inserted then
      nth_error CandSet' pos = Some x /\
      set_erase pos CandSet' = CandSet /\
      length CandSet' = S (length CandSet)
    else
      CandSet' = CandSet /\
      exists e, nth_error CandSet pos = Some e /\
                FusionCandidateCompare ir x e = Ret false /\
                FusionCandidateCompare ir e x = Ret false.
Proof.
  induction CandSet as [|e0 CandSet IH]; intros pos inserted CandSet'; simpl.
  - intros [= <- <- <-]. repeat split.
  - destruct (FusionCandidateCompare ir x e0) as [[|]| |] eqn:Exe; simpl;
      try discriminate.
    + intros [= <- <- <-]. repeat split.
    + destruct (FusionCandidateCompare ir e0 x) as [[|]| |] eqn:Eex; simpl;
        try discriminate.
      * destruct (set_insert ir x CandSet) as [[[p' b'] l']| |] eqn:E; simpl;
          try discriminate.
        intros [= <- <- <-]. specialize (IH _ _ _ eq_refl).
        destruct b'.
        -- destruct IH as (H1 & H2 & H3). simpl. rewrite H2, H3.
           repeat split; exact H1.
        -- destruct IH as (-> & e & H1 & H2 & H3). split; [reflexivity|].
           exists e. auto.
      * intros [= <- <- <-]. split; [reflexivity|]. exists e0. auto.
Qed.

Lemma set_erase_In (CandSet : list FusionCandidate) :
  forall pos e, In e (set_erase pos CandSet) -> In e CandSet.
Proof.
  induction CandSet as [|e0 CandSet IH]; intros [|pos] e; simpl; auto.
  intros [<-|H]; [now left|]. right. exact (IH _ _ H).
Qed.

(** X6: insertion and erasure keep a candidate set in dominance order,
    dominance being transitive. *)
Theorem set_insert_keeps_order (ir : IR) (x : FusionCandidate) :
  (forall a b c, DT_dominates ir a b = true -> DT_dominates ir b c = true ->
                 DT_dominates ir a c = true) ->
  forall CandSet, inDominanceOrder ir CandSet ->
    (forall pos inserted CandSet',
       set_insert ir x CandSet = Ret (pos, inserted, CandSet') ->
       inDominanceOrder ir CandSet') /\
    (forall pos, inDominanceOrder ir (set_erase pos CandSet)).
Proof.
  intros Htrans CandSet Hord. split.
  - revert Hord.
    induction CandSet as [|e0 CandSet IH]; intros Hord pos inserted CandSet';
      simpl.
    + intros [= _ _ <-]. simpl. auto.
    + destruct Hord as (Hall & Hord).
      destruct (FusionCandidateCompare ir x e0) as [[|]| |] eqn:Exe; simpl;
        try discriminate.
      * intros [= _ _ <-]. simpl. repeat split; try assumption.
        constructor; [exact Exe|].
        rewrite Forall_forall in Hall |- *. intros e He.
        apply FusionCandidateCompare_trans with (B := e0); auto.
      * destruct (FusionCandidateCompare ir e0 x) as [[|]| |] eqn:Eex; simpl;
          try discriminate.
        -- destruct (set_insert ir x CandSet) as [[[p' b'] l']| |] eqn:E; simpl;
             try discriminate.
           intros [= _ _ <-]. simpl. split; [|exact (IH Hord _ _ _ eq_refl)].
           rewrite Forall_forall in Hall |- *. intros e He.
           destruct (@set_insert_In ir x _ _ _ _ E e He) as [->|H]; auto.
        -- intros [= _ _ <-]. simpl. auto.
  - revert Hord.
    induction CandSet as [|e0 CandSet IH]; intros Hord [|pos]; simpl; auto.
    + apply Hord.
    + destruct Hord as (Hall & Hord). split; [|apply IH; exact Hord].
      rewrite Forall_forall in Hall |- *. intros e He.
      apply Hall. exact (@set_erase_In _ _ _ He).
Qed.

(** X7: where [collectFusionCandidates] puts a candidate.  It goes to the
    first set whose first element is control-flow equivalent to it, the
    sets before and after that one being left as they are; when there is
    no such set, a set holding the candidate alone is added after all the
    others. *)
Theorem placeCandidate_outcome (ir : IR) (CurrCand : FusionCandidate) :
  forall Sets Sets',
    placeCandidate ir CurrCand Sets = Ret Sets' ->
    (Sets' = Sets ++ [[CurrCand]] /\
     forall First Rest, In (First :: Rest) Sets ->
       isControlFlowEquivalent ir First CurrCand = false) \/
    (exists Before First Rest After pos inserted CandSet',
       Sets = Before ++ (First :: Rest) :: After /\
       Sets' = Before ++ CandSet' :: After /\
       isControlFlowEquivalent ir First CurrCand = true /\
       set_insert ir CurrCand (First :: Rest) =
         Ret (pos, inserted, CandSet') /\
       forall F R, In (F :: R) Before ->
         isControlFlowEquivalent ir F CurrCand = false).
Proof.
  induction Sets as [|CurrCandSet Sets IH]; intros Sets'.
  - simpl. intros [= <-]. left. split; [reflexivity|]. intros ? ? [].
  - cbn [placeCandidate].
    assert (Hskip :
      bindRes (placeCandidate ir CurrCand Sets)
        (fun Sets'' => Ret (CurrCandSet :: Sets'')) = Ret Sets' ->
      (forall F R, CurrCandSet = F :: R ->
         isControlFlowEquivalent ir F CurrCand = false) ->
      (Sets' = (CurrCandSet :: Sets) ++ [[CurrCand]] /\
       forall First Rest, In (First :: Rest) (CurrCandSet :: Sets) ->
         isControlFlowEquivalent ir First CurrCand = false) \/
      (exists Before First Rest After pos inserted CandSet',
         CurrCandSet :: Sets = Before ++ (First :: Rest) :: After /\
         Sets' = Before ++ CandSet' :: After /\
         isControlFlowEquivalent ir First CurrCand = true /\
         set_insert ir CurrCand (First :: Rest) =
           Ret (pos, inserted, CandSet') /\
         forall F R, In (F :: R) Before ->
           isControlFlowEquivalent ir F CurrCand = false)).
    { destruct (placeCandidate ir CurrCand Sets) as [Sets1| |]; simpl;
        [|discriminate..].
      intros [= <-] Hcur.
      destruct (IH _ eq_refl) as [(-> & Hno)|
        (Before & First & Rest & After & pos & ins & CandSet' &
         -> & -> & Hcfe & Hins & Hno)].
      - left. split; [reflexivity|].
        intros First Rest [->|H]; [exact (Hcur _ _ eq_refl)|].
        exact (Hno _ _ H).
      - right. exists (CurrCandSet :: Before), First, Rest, After, pos, ins,
          CandSet'.
        repeat split; try assumption.
        intros F R [->|H]; [exact (Hcur _ _ eq_refl)|]. exact (Hno _ _ H). }
    destruct CurrCandSet as [|First Rest].
    + intros H. apply Hskip; [exact H|]. discriminate.
    + destruct (isControlFlowEquivalent ir First CurrCand) eqn:Ecfe.
      * destruct (set_insert ir CurrCand (First :: Rest))
          as [[[pos ins] CandSet']| |] eqn:Eins; simpl; [|discriminate..].
        intros [= <-]. right.
        exists [], First, Rest, Sets, pos, ins, CandSet'.
        repeat split; try assumption. intros ? ? [].
      * intros H. apply Hskip; [exact H|].
        intros F R [= <- <-]. exact Ecfe.
Qed.

(** ** What each step leaves untouched *)

Lemma newFusionCandidate_frame (Lp : Loop) (st : PassState)
    (FC : FusionCandidate) (st' : PassState) :
  newFusionCandidate Lp st = Ret (FC, st') ->
  TheIR st' = TheIR st /\ RemovedLoops st' = RemovedLoops st /\
  FusionCandidates st' = FusionCandidates st /\
  Stats st' FuseCounter = Stats st FuseCounter /\
  Stats st' NumFusionCandidates = Stats st NumFusionCandidates.
Proof.
  unfold newFusionCandidate.
  pose proof (scanBlocks_outcome (TheIR st) (Loop_blocks (TheIR st) Lp) [] [])
    as H. cbv zeta in H.
  destruct (getLoopLatch (TheIR st) Lp) as [TheLatch|]; [|discriminate].
  destruct (scanBlocks (TheIR st) (Loop_blocks (TheIR st) Lp) [] [])
    as [Stat|[Reads Writes]].
  - destruct H as (_ & HS).
    destruct (getLoopPreheader (TheIR st) Lp); [|discriminate].
    intros [= _ <-].
    unfold reportInvalidCandidate, bind, ret, incr, emit. simpl.
    destruct Stat; simpl in HS; try contradiction; repeat split.
  - intros [= _ <-]. repeat split.
Qed.

(** The candidate that the constructor returns is read from the function
    alone: the state of the pass only receives the report. *)
Lemma newFusionCandidate_IR (Lp : Loop) (st st0 : PassState)
    (FC : FusionCandidate) (st' : PassState) :
  TheIR st0 = TheIR st ->
  newFusionCandidate Lp st = Ret (FC, st') ->
  exists st0', newFusionCandidate Lp st0 = Ret (FC, st0').
Proof.
  unfold newFusionCandidate. intros ->.
  destruct (getLoopLatch (TheIR st) Lp) as [TheLatch|]; [|discriminate].
  destruct (scanBlocks (TheIR st) (Loop_blocks (TheIR st) Lp) [] [])
    as [Stat|[Reads Writes]].
  - destruct (getLoopPreheader (TheIR st) Lp); [|discriminate].
    intros [= <- _]. eexists. reflexivity.
  - intros [= <- _]. eexists. reflexivity.
Qed.

Lemma isEligibleForFusion_fst (FC : FusionCandidate) (st : PassState) :
  fst (isEligibleForFusion FC st) =
    isValid (TheIR st) FC &&
    hasLoopInvariantBackedgeTakenCount (TheIR st) (L FC) &&
    isLoopSimplifyForm (TheIR st) (L FC).
Proof.
  unfold isEligibleForFusion, bind, getIR, ret.
  destruct (isValid (TheIR st) FC); simpl.
  - unfold reportInvalidCandidate, bind, ret, incr, emit.
    destruct (hasLoopInvariantBackedgeTakenCount (TheIR st) (L FC)); simpl;
      [destruct (isLoopSimplifyForm (TheIR st) (L FC)); simpl|];
      reflexivity.
  - destruct (when (isNull (Preheader FC)) (incr InvalidPreheader) st)
      as [u1 st1].
    destruct (when (isNull (Header FC)) (incr InvalidHeader) st1)
      as [u2 st2].
    destruct (when (isNull (ExitingBlock FC)) (incr InvalidExitingBlock) st2)
      as [u3 st3].
    destruct (when (isNull (ExitBlock FC)) (incr InvalidExitBlock) st3)
      as [u4 st4].
    destruct (when (isNull (Latch FC)) (incr InvalidLatch) st4)
      as [u5 st5].
    destruct (when (Loop_isInvalid (TheIR st) (L FC)) (incr InvalidLoop) st5)
      as [u6 st6].
    reflexivity.
Qed.

Lemma isEligibleForFusion_frame (FC : FusionCandidate) (st : PassState) :
  let st' := snd (isEligibleForFusion FC st) in
  TheIR st' = TheIR st /\ RemovedLoops st' = RemovedLoops st /\
  FusionCandidates st' = FusionCandidates st /\
  Stats st' FuseCounter = Stats st FuseCounter /\
  Stats st' NumFusionCandidates = Stats st NumFusionCandidates.
Proof.
  cbv zeta. unfold isEligibleForFusion, bind, getIR, ret.
  destruct (isValid (TheIR st) FC); simpl.
  - unfold reportInvalidCandidate, bind, ret, incr, emit.
    destruct (hasLoopInvariantBackedgeTakenCount (TheIR st) (L FC)); simpl;
      [destruct (isLoopSimplifyForm (TheIR st) (L FC)); simpl|];
      repeat split.
  - destruct (when (isNull (Preheader FC)) (incr InvalidPreheader) st)
      as [u1 st1] eqn:E1.
    destruct (when (isNull (Header FC)) (incr InvalidHeader) st1)
      as [u2 st2] eqn:E2.
    destruct (when (isNull (ExitingBlock FC)) (incr InvalidExitingBlock) st2)
      as [u3 st3] eqn:E3.
    destruct (when (isNull (ExitBlock FC)) (incr InvalidExitBlock) st3)
      as [u4 st4] eqn:E4.
    destruct (when (isNull (Latch FC)) (incr InvalidLatch) st4)
      as [u5 st5] eqn:E5.
    destruct (when (Loop_isInvalid (TheIR st) (L FC)) (incr InvalidLoop) st5)
      as [u6 st6] eqn:E6.
    apply when_incr_outcome in E1, E2, E3, E4, E5, E6.
    destruct E1 as (R1 & I1 & F1 & L1 & S1), E2 as (R2 & I2 & F2 & L2 & S2),
      E3 as (R3 & I3 & F3 & L3 & S3), E4 as (R4 & I4 & F4 & L4 & S4),
      E5 as (R5 & I5 & F5 & L5 & S5), E6 as (R6 & I6 & F6 & L6 & S6).
    simpl. repeat split; try congruence;
      rewrite S6, S5, S4, S3, S2, S1; simpl; lia.
Qed.

Lemma set_insert_length_ge (ir : IR) (x : FusionCandidate) :
  forall (CandSet CandSet' : list FusionCandidate) (pos : nat) (b : bool),
    set_insert ir x CandSet = Ret (pos, b, CandSet') ->
    length CandSet <= length CandSet'.
Proof.
  induction CandSet as [|e CandSet IH]; intros CandSet' pos b; simpl.
  - intros [= _ _ <-]. simpl. lia.
  - destruct (FusionCandidateCompare ir x e) as [[|]| |]; simpl;
      try discriminate.
    + intros [= _ _ <-]. simpl. lia.
    + destruct (FusionCandidateCompare ir e x) as [[|]| |]; simpl;
        try discriminate.
      * destruct (set_insert ir x CandSet) as [[[p' b'] l']| |] eqn:E; simpl;
          try discriminate.
        intros [= _ _ <-]. simpl. specialize (IH _ _ _ eq_refl). lia.
      * intros [= _ _ <-]. simpl. lia.
Qed.

Lemma placeCandidate_length (ir : IR) (CurrCand : FusionCandidate) :
  forall Sets Sets',
    placeCandidate ir CurrCand Sets = Ret Sets' ->
    length (concat Sets) <= length (concat Sets') /\
    length (concat Sets') <= S (length (concat Sets)).
Proof.
  induction Sets as [|CurrCandSet Sets IH]; intros Sets'.
  - simpl. intros [= <-]. simpl. lia.
  - cbn [placeCandidate].
    assert (Hskip :
      bindRes (placeCandidate ir CurrCand Sets)
        (fun Sets'' => Ret (CurrCandSet :: Sets'')) = Ret Sets' ->
      length (concat (CurrCandSet :: Sets)) <= length (concat Sets') /\
      length (concat Sets') <= S (length (concat (CurrCandSet :: Sets)))).
    { destruct (placeCandidate ir CurrCand Sets) as [Sets1| |]; simpl;
        [|discriminate..].
      intros [= <-]. specialize (IH _ eq_refl). simpl.
      rewrite !length_app. lia. }
    destruct CurrCandSet as [|First Rest]; [exact Hskip|].
    destruct (isControlFlowEquivalent ir First CurrCand); [|exact Hskip].
    destruct (set_insert ir CurrCand (First :: Rest))
      as [[[pos ins] CandSet']| |] eqn:Eins; simpl; [|discriminate..].
    intros [= <-].
    pose proof (set_insert_length _ _ _ Eins) as H1.
    pose proof (set_insert_length_ge _ _ _ Eins) as H2.
    cbn [concat]. rewrite !length_app. simpl in H1, H2 |- *. lia.
Qed.

Lemma set_insert_keeps (ir : IR) (x : FusionCandidate) :
  forall CandSet pos inserted CandSet',
    set_insert ir x CandSet = Ret (pos, inserted, CandSet') ->
    forall e, In e CandSet -> In e CandSet'.
Proof.
  induction CandSet as [|e0 CandSet IH]; intros pos inserted CandSet'; simpl.
  - intros _ e [].
  - destruct (FusionCandidateCompare ir x e0) as [[|]| |]; simpl;
      try discriminate.
    + intros [= _ _ <-] e H. right. exact H.
    + destruct (FusionCandidateCompare ir e0 x) as [[|]| |]; simpl;
        try discriminate.
      * destruct (set_insert ir x CandSet) as [[[p' b'] l']| |] eqn:E; simpl;
          try discriminate.
        intros [= _ _ <-] e [<-|H]; [now left|].
        right. exact (IH _ _ _ eq_refl e H).
      * intros [= _ _ <-] e H. exact H.
Qed.

(** After an insertion the set holds the candidate, or an element that
    the comparator orders neither before nor after it. *)
Definition represented (ir : IR) (x : FusionCandidate)
    (Cands : list FusionCandidate) : Prop :=
  exists e, In e Cands /\
    (e = x \/ (FusionCandidateCompare ir x e = Ret false /\
               FusionCandidateCompare ir e x = Ret false)).

Lemma set_insert_represented (ir : IR) (x : FusionCandidate) :
  forall CandSet pos inserted CandSet',
    set_insert ir x CandSet = Ret (pos, inserted, CandSet') ->
    represented ir x CandSet'.
Proof.
  induction CandSet as [|e0 CandSet IH]; intros pos inserted CandSet'; simpl.
  - intros [= _ _ <-]. exists x. split; [now left|now left].
  - destruct (FusionCandidateCompare ir x e0) as [[|]| |] eqn:Exe; simpl;
      try discriminate.
    + intros [= _ _ <-]. exists x. split; [now left|now left].
    + destruct (FusionCandidateCompare ir e0 x) as [[|]| |] eqn:Eex; simpl;
        try discriminate.
      * destruct (set_insert ir x CandSet) as [[[p' b'] l']| |] eqn:E; simpl;
          try discriminate.
        intros [= _ _ <-].
        destruct (IH _ _ _ eq_refl) as (e & He & Hx).
        exists e. split; [now right|exact Hx].
      * intros [= _ _ <-]. exists e0. split; [now left|].
        right. split; assumption.
Qed.

Lemma placeCandidate_members (ir : IR) (CurrCand : FusionCandidate) :
  forall Sets Sets',
    placeCandidate ir CurrCand Sets = Ret Sets' ->
    (forall FC, In FC (concat Sets) -> In FC (concat Sets')) /\
    (forall FC, In FC (concat Sets') ->
       In FC (concat Sets) \/ FC = CurrCand) /\
    represented ir CurrCand (concat Sets').
Proof.
  induction Sets as [|CurrCandSet Sets IH]; intros Sets'.
  - simpl. intros [= <-]. simpl. split; [intros FC []|]. split.
    + intros FC [<-|[]]. now right.
    + exists CurrCand. split; [now left|now left].
  - cbn [placeCandidate].
    assert (Hskip :
      bindRes (placeCandidate ir CurrCand Sets)
        (fun Sets'' => Ret (CurrCandSet :: Sets'')) = Ret Sets' ->
      (forall FC, In FC (concat (CurrCandSet :: Sets)) ->
         In FC (concat Sets')) /\
      (forall FC, In FC (concat Sets') ->
         In FC (concat (CurrCandSet :: Sets)) \/ FC = CurrCand) /\
      represented ir CurrCand (concat Sets')).
    { destruct (placeCandidate ir CurrCand Sets) as [Sets1| |]; simpl;
        [|discriminate..].
      intros [= <-]. destruct (IH _ eq_refl) as (H1 & H2 & e & He & Hx).
      cbn [concat]. split; [|split].
      - intros FC H. apply in_app_iff in H. apply in_app_iff.
        destruct H as [H|H]; [now left|right; exact (H1 _ H)].
      - intros FC H. apply in_app_iff in H. rewrite in_app_iff.
        destruct H as [H|H]; [left; now left|].
        destruct (H2 _ H) as [H'|H']; [left; now right|now right].
      - exists e. split; [apply in_app_iff; now right|exact Hx]. }
    destruct CurrCandSet as [|First Rest]; [exact Hskip|].
    destruct (isControlFlowEquivalent ir First CurrCand); [|exact Hskip].
    destruct (set_insert ir CurrCand (First :: Rest))
      as [[[pos ins] CandSet']| |] eqn:Eins; cbn [bindRes];
      [|discriminate..].
    intros [= <-]. cbn [concat]. split; [|split].
    + intros FC H. apply in_app_iff in H. apply in_app_iff.
      destruct H as [H|H]; [left|now right].
      exact (@set_insert_keeps ir CurrCand _ _ _ _ Eins FC H).
    + intros FC H. apply in_app_iff in H. rewrite in_app_iff.
      destruct H as [H|H]; [|left; now right].
      destruct (@set_insert_In ir CurrCand _ _ _ _ Eins FC H) as [->|H'];
        [now right|left; now left].
    + destruct (@set_insert_represented ir CurrCand _ _ _ _ Eins)
        as (e & He & Hx).
      exists e. split; [apply in_app_iff; now left|exact Hx].
Qed.

(** The candidates of the eligible loops of a vector, in the order of
    the vector: each is what the constructor returns on the function
    [ir], kept when [isEligibleForFusion] accepts it. *)
Definition stateOf (ir : IR) : PassState :=
  {| Stats := fun _ => 0; Remarks := []; RemovedLoops := [];
     FusionCandidates := []; TheIR := ir |}.

Definition eligibleCandidate (ir : IR) (Lp : Loop) : list FusionCandidate :=
  match newFusionCandidate Lp (stateOf ir) with
  | Ret (FC, st1) => if fst (isEligibleForFusion FC st1) then [FC] else []
  | _ => []
  end.

Definition eligibleCandidates (ir : IR) (LV : list Loop)
  : list FusionCandidate :=
  flat_map (eligibleCandidate ir) LV.

Lemma eligibleCandidates_length (ir : IR) (LV : list Loop) :
  length (eligibleCandidates ir LV) <= length LV.
Proof.
  induction LV as [|Lp LV IH]; simpl; [lia|].
  rewrite length_app. unfold eligibleCandidate.
  destruct (newFusionCandidate Lp (stateOf ir)) as [[FC st1]| |]; simpl;
    try lia.
  destruct (fst (isEligibleForFusion FC st1)); simpl; lia.
Qed.

Lemma eligibleCandidate_eq (Lp : Loop) (st st1 st2 : PassState)
    (FC : FusionCandidate) (Eligible : bool) :
  newFusionCandidate Lp st = Ret (FC, st1) ->
  isEligibleForFusion FC st1 = (Eligible, st2) ->
  eligibleCandidate (TheIR st) Lp = if Eligible then [FC] else [].
Proof.
  intros HN HE. unfold eligibleCandidate.
  destruct (@newFusionCandidate_IR Lp st (stateOf (TheIR st)) FC st1
              eq_refl HN) as (st0' & H0).
  rewrite H0.
  apply newFusionCandidate_frame in H0, HN.
  destruct H0 as (I0 & _), HN as (I1 & _).
  rewrite isEligibleForFusion_fst.
  pose proof (isEligibleForFusion_fst FC st1) as H1.
  rewrite HE in H1. simpl in H1, I0. rewrite I0, <- I1, <- H1. reflexivity.
Qed.

(** X8: collecting the candidates of a loop vector leaves the function,
    the removed loops and the count of fusions as they are, and counts
    under [NumFusionCandidates] the loops found eligible, no more than
    the vector has loops.  The sets afterwards hold every candidate they
    held before, and besides those only candidates of the eligible
    loops; and each eligible loop is in a set, by its candidate or by a
    candidate the comparator does not tell from it.  So the sets
    together grow by no more than the number of eligible loops. *)
Theorem collectFusionCandidates_frame :
  forall (LV : list Loop) (st st' : PassState),
    collectFusionCandidates LV st = Ret st' ->
    let New := eligibleCandidates (TheIR st) LV in
    TheIR st' = TheIR st /\
    RemovedLoops st' = RemovedLoops st /\
    Stats st' FuseCounter = Stats st FuseCounter /\
    length New <= length LV /\
    Stats st' NumFusionCandidates =
      Stats st NumFusionCandidates + length New /\
    (forall FC, In FC (concat (FusionCandidates st)) ->
       In FC (concat (FusionCandidates st'))) /\
    (forall FC, In FC (concat (FusionCandidates st')) ->
       In FC (concat (FusionCandidates st)) \/ In FC New) /\
    (forall FC, In FC New ->
       represented (TheIR st) FC (concat (FusionCandidates st'))) /\
    length (concat (FusionCandidates st)) <=
      length (concat (FusionCandidates st')) /\
    length (concat (FusionCandidates st')) <=
      length (concat (FusionCandidates st)) + length New.
Proof.
  induction LV as [|Lp LV IH]; intros st st'; cbv zeta.
  - simpl. intros [= <-]. repeat split; auto; try lia.
  - cbn [collectFusionCandidates].
    destruct (newFusionCandidate Lp st) as [[CurrCand st1]| |] eqn:EN;
      [|discriminate..].
    pose proof (newFusionCandidate_frame _ _ EN) as HN.
    pose proof (isEligibleForFusion_frame CurrCand st1) as HE.
    cbv zeta in HE.
    destruct (isEligibleForFusion CurrCand st1) as [Eligible st2] eqn:EE.
    pose proof (eligibleCandidate_eq _ _ EN EE) as HC.
    simpl in HE.
    destruct HN as (N1 & N2 & N3 & N4 & N5), HE as (E1 & E2 & E3 & E4 & E5).
    pose proof (eligibleCandidates_length (TheIR st) (Lp :: LV)) as HL.
    cbn [eligibleCandidates flat_map] in HL |- *. rewrite HC in HL |- *.
    fold (eligibleCandidates (TheIR st) LV) in HL |- *.
    destruct Eligible; simpl negb; cbv iota.
    + destruct (placeCandidate (TheIR st2) CurrCand (FusionCandidates st2))
        as [Sets| |] eqn:EP; [|discriminate..].
      pose proof EP as HPL. apply placeCandidate_length in HPL.
      apply placeCandidate_members in EP.
      destruct EP as (P1 & P2 & P3).
      intros H. apply IH in H. cbv zeta in H. simpl in H.
      destruct H as (H1 & H2 & H3 & H4 & H5 & H6 & H7 & H8 & H9 & H10).
      rewrite E1, N1 in *. rewrite E3, N3 in *.
      split; [congruence|]. split; [congruence|]. split; [congruence|].
      split; [exact HL|].
      split.
      { rewrite H5.
        destruct (Statistic_eq_dec NumFusionCandidates NumFusionCandidates)
          as [_|Hne]; [|congruence].
        simpl. lia. }
      split; [intros FC HF; apply H6, P1, HF|].
      split.
      { intros FC HF. destruct (H7 _ HF) as [HF'|HF'].
        - destruct (P2 _ HF') as [HF''| ->];
            [now left|right; now left].
        - right. now right. }
      split.
      { intros FC [<-|HF]; [|exact (H8 _ HF)].
        destruct P3 as (e & He & Hx). exists e.
        split; [exact (H6 _ He)|exact Hx]. }
      simpl. lia.
    + intros H. apply IH in H. cbv zeta in H.
      destruct H as (H1 & H2 & H3 & H4 & H5 & H6 & H7 & H8 & H9 & H10).
      rewrite E1, N1 in *. rewrite E3, N3 in *.
      split; [congruence|]. split; [congruence|]. split; [congruence|].
      split; [exact HL|].
      simpl. split; [rewrite H5; lia|].
      repeat split; auto; lia.
Qed.

Lemma spec_firstFailure_not_FuseCounter (ir : IR) (FC0 FC1 : FusionCandidate) :
  spec_firstFailure ir FC0 FC1 <> Some FuseCounter.
Proof.
  unfold spec_firstFailure, spec_checks, find.
  repeat match goal with
         | |- context [if ?c then _ else _] => destruct c
         end; discriminate.
Qed.

Lemma legalToFuse_frame (FC0 FC1 : FusionCandidate) (st : PassState) :
  let st' := snd (legalToFuse FC0 FC1 st) in
  TheIR st' = TheIR st /\ RemovedLoops st' = RemovedLoops st /\
  FusionCandidates st' = FusionCandidates st /\
  Stats st' FuseCounter = Stats st FuseCounter.
Proof.
  cbv zeta. pose proof (legalToFuse_first_failure FC0 FC1 st) as H.
  pose proof (@spec_firstFailure_not_FuseCounter (TheIR st) FC0 FC1) as Hne.
  destruct (spec_firstFailure (TheIR st) FC0 FC1) as [Stat|].
  - destruct H as (_ & _ & _ & HS & HI & HF & HR).
    repeat split; try assumption.
    apply HS; [congruence|discriminate].
  - rewrite H. repeat split.
Qed.

Lemma fusePair_frame (FC0 FC1 : FusionCandidate) (st : PassState)
    (FusedCand : FusionCandidate) (st' : PassState) :
  fusePair FC0 FC1 st = Ret (FusedCand, st') ->
  RemovedLoops st' = L FC1 :: RemovedLoops st /\
  FusionCandidates st' = FusionCandidates st /\
  Stats st' FuseCounter = S (Stats st FuseCounter).
Proof.
  unfold fusePair, reportLoopFusion, bind, getIR, incr, emit, setIR,
    removeLoop, ret. simpl.
  destruct (performFusion (TheIR st) FC0 FC1) as [ir' FusedLoop].
  match goal with
  | |- context [newFusionCandidate FusedLoop ?s] =>
      destruct (newFusionCandidate FusedLoop s) as [[FC2 st2]| |] eqn:EN;
      cbn [bindRes]; [|discriminate..]
  end.
  apply newFusionCandidate_frame in EN.
  simpl in EN. destruct EN as (_ & N2 & N3 & N4 & _).
  intros [= _ <-]. simpl. rewrite N2. repeat split; assumption.
Qed.

(** The fusions of one candidate set. *)
Lemma fuseCandidateSet_accounting :
  forall fuel CandidateSet FC0 FC1 Fused st Fused' CandidateSet' st',
    FC0 <= FC1 ->
    fuseCandidateSet fuel CandidateSet FC0 FC1 Fused st =
      Some (Ret (Fused', CandidateSet', st')) ->
    exists n,
      Stats st' FuseCounter = Stats st FuseCounter + n /\
      length (RemovedLoops st') = length (RemovedLoops st) + n /\
      length CandidateSet' + n <= length CandidateSet /\
      Fused' = Fused || negb (n =? 0) /\
      FusionCandidates st' = FusionCandidates st /\
      (n = 0 -> TheIR st' = TheIR st /\ RemovedLoops st' = RemovedLoops st).
Proof.
  induction fuel as [|fuel IH];
    intros CandidateSet FC0 FC1 Fused st Fused' CandidateSet' st' Hle;
    [discriminate|].
  cbn [fuseCandidateSet].
  destruct (nth_error CandidateSet FC0) as [Cand0|] eqn:E0.
  2:{ intros [= <- <- <-]. exists 0. rewrite orb_false_r.
      repeat split; lia. }
  assert (H0 : FC0 < length CandidateSet)
    by (apply nth_error_Some; congruence).
  destruct (nth_error CandidateSet (S FC1)) as [Cand1|] eqn:E1.
  - assert (H1 : S FC1 < length CandidateSet)
      by (apply nth_error_Some; congruence).
    pose proof (legalToFuse_frame Cand0 Cand1 st) as HL. cbv zeta in HL.
    destruct (legalToFuse Cand0 Cand1 st) as [[|] st1]; simpl in HL;
      destruct HL as (L1 & L2 & L3 & L4).
    + destruct (fusePair Cand0 Cand1 st1) as [[FusedCand st2]| |] eqn:HP;
        [|discriminate..].
      apply fusePair_frame in HP.
      destruct HP as (P1 & P2 & P3).
      destruct (set_insert (TheIR st2) FusedCand
                  (set_erase FC0 (set_erase (S FC1) CandidateSet)))
        as [[[InsertPos b] CandidateSet1]| |] eqn:EI; [|discriminate..].
      apply set_insert_length in EI.
      pose proof (set_erase_length CandidateSet H1) as Len1.
      assert (Len0 : S (length (set_erase FC0
                                  (set_erase (S FC1) CandidateSet))) =
                     length (set_erase (S FC1) CandidateSet))
        by (apply set_erase_length; lia).
      intros H. apply IH in H; [|lia].
      destruct H as (n & A1 & A2 & A3 & A4 & A5 & A6).
      exists (S n). rewrite A1, A2, A4, A5, P1, P2, P3, L2, L3, L4.
      simpl. repeat split; try lia; discriminate.
    + intros H. apply IH in H; [|lia].
      destruct H as (n & A1 & A2 & A3 & A4 & A5 & A6).
      exists n. rewrite A1, A2, A5, L2, L3, L4.
      repeat split; try assumption;
        destruct (A6 H) as (A7 & A8); congruence.
  - intros H. apply IH in H; [exact H|lia].
Qed.

Lemma fuseCandidateSets_accounting :
  forall Sets Fused st Fused' Sets' st',
    fuseCandidateSets Sets Fused st = Some (Ret (Fused', Sets', st')) ->
    exists n,
      Stats st' FuseCounter = Stats st FuseCounter + n /\
      length (RemovedLoops st') = length (RemovedLoops st) + n /\
      length (concat Sets') + n <= length (concat Sets) /\
      length Sets' = length Sets /\
      Fused' = Fused || negb (n =? 0) /\
      FusionCandidates st' = FusionCandidates st /\
      (n = 0 -> TheIR st' = TheIR st /\ RemovedLoops st' = RemovedLoops st).
Proof.
  induction Sets as [|CandidateSet Sets IH]; intros Fused st Fused' Sets' st'.
  - simpl. intros [= <- <- <-]. exists 0. rewrite orb_false_r.
    simpl. repeat split; lia.
  - cbn [fuseCandidateSets].
    destruct (Nat.ltb (length CandidateSet) 2).
    + destruct (fuseCandidateSets Sets Fused st) as [[[[F1 S1] st1]| |]|] eqn:E;
        try discriminate.
      intros [= <- <- <-]. destruct (IH _ _ _ _ _ E)
        as (n & A1 & A2 & A3 & A4 & A5 & A6 & A7).
      exists n. simpl. rewrite !length_app.
      repeat split; try assumption; try lia; apply A7; assumption.
    + destruct (fuseCandidateSet (fuseFuel (length CandidateSet)) CandidateSet
                  0 0 Fused st) as [[[[F1 C1] st1]| |]|] eqn:E0;
        try discriminate.
      apply fuseCandidateSet_accounting in E0; [|lia].
      destruct E0 as (m & B1 & B2 & B3 & B4 & B5 & B6).
      destruct (fuseCandidateSets Sets F1 st1) as [[[[F2 S2] st2]| |]|] eqn:E;
        try discriminate.
      intros [= <- <- <-]. destruct (IH _ _ _ _ _ E)
        as (n & A1 & A2 & A3 & A4 & A5 & A6 & A7).
      exists (m + n). simpl. rewrite !length_app, A1, A2, A5, A6, B1, B2, B4, B5.
      assert (Hzero : m + n = 0 ->
                TheIR st2 = TheIR st /\ RemovedLoops st2 = RemovedLoops st).
      { intros Hmn. assert (Hm : m = 0) by lia. assert (Hn : n = 0) by lia.
        destruct (A7 Hn) as (-> & ->). exact (B6 Hm). }
      repeat split; try lia; try (apply Hzero; assumption).
      destruct m, n; simpl; rewrite ?orb_false_r, ?orb_true_r; reflexivity.
Qed.

(** X9: the bookkeeping of [fuseCandidates].  With [n] the number of
    fusions it made, [FuseCounter] has grown by [n], [n] loops have been
    recorded as removed, the candidate sets are as many as before and
    hold together at least [n] candidates less, and the result is [true]
    exactly when [n] is not zero.  When the result is [false], the
    function and the removed loops are as they were. *)
Theorem fuseCandidates_accounting (st st' : PassState) (Fused : bool) :
  fuseCandidates st = Some (Ret (Fused, st')) ->
  exists n,
    Stats st' FuseCounter = Stats st FuseCounter + n /\
    length (RemovedLoops st') = length (RemovedLoops st) + n /\
    length (concat (FusionCandidates st')) + n <=
      length (concat (FusionCandidates st)) /\
    length (FusionCandidates st') = length (FusionCandidates st) /\
    Fused = negb (n =? 0) /\
    (Fused = false ->
     TheIR st' = TheIR st /\ RemovedLoops st' = RemovedLoops st).
Proof.
  unfold fuseCandidates.
  destruct (fuseCandidateSets (FusionCandidates st) false st)
    as [[[[F1 S1] st1]| |]|] eqn:E; try discriminate.
  intros [= <- <-]. apply fuseCandidateSets_accounting in E.
  destruct E as (n & A1 & A2 & A3 & A4 & A5 & A6 & A7).
  exists n. simpl.
  assert (Hz : F1 = false ->
            TheIR st1 = TheIR st /\ RemovedLoops st1 = RemovedLoops st).
  { intros HF. apply A7. destruct n; [reflexivity|].
    rewrite A5 in HF. discriminate. }
  repeat (split; [assumption|]). exact Hz.
Qed.

(** X10: the traversal of the candidate sets comes to its end, whatever
    it fuses: every fusion makes its set smaller, and between two
    fusions the two iterators only advance.  The fuel given to the
    traversal of a set of [n] candidates, [(n + 2)^3], is never used up:
    the result is a return or one of the outcomes of [Res] that stop an
    execution. *)
Theorem fuseCandidates_returns :
  (forall CandidateSet Fused st,
     exists r,
       fuseCandidateSet (fuseFuel (length CandidateSet)) CandidateSet 0 0
         Fused st = Some r) /\
  (forall st, exists r, fuseCandidates st = Some r).
Proof.
  split.
  - intros CandidateSet Fused st.
    pose proof (@fuseCandidateSet_terminates
                  (fuseFuel (length CandidateSet)) CandidateSet 0 0 Fused st
                  (Nat.le_refl 0)) as H.
    destruct (fuseCandidateSet (fuseFuel (length CandidateSet)) CandidateSet
                0 0 Fused st) as [r|]; [exists r; reflexivity|].
    elim H; [|reflexivity]. unfold fuelBound, fuseFuel.
    remember (length CandidateSet) as n.
    replace (n - 0) with n by lia.
    replace ((n + 1) * (n + 1) * n + n * (n + 1) + n + 1)
      with ((n + 1) * (n + 1) * (n + 1)) by ring.
    repeat apply Nat.mul_le_mono; lia.
  - intros st. pose proof (fuseCandidates_terminates st) as H.
    destruct (fuseCandidates st) as [r|]; [exists r; reflexivity|].
    now elim H.
Qed.

(** ** The rewriter of add recurrences *)

Lemma SCEV_nested_ind (P : SCEV -> Prop) :
  P SCEVCouldNotCompute ->
  (forall Ty V, P (SCEVConstant Ty V)) ->
  (forall Ty V, P (SCEVUnknown Ty V)) ->
  (forall Op Ty, P Op -> P (SCEVTruncateExpr Op Ty)) ->
  (forall A B, P A -> P B -> P (SCEVAddExpr A B)) ->
  (forall A B, P A -> P B -> P (SCEVMulExpr A B)) ->
  (forall Start Step More Lp, P Start -> P Step -> Forall P More ->
     P (SCEVAddRecExpr Start Step More Lp)) ->
  forall Expr, P Expr.
Proof.
  intros H1 H2 H3 H4 H5 H6 H7. fix IH 1.
  intros [ | Ty V | Ty V | Op Ty | A B | A B | Start Step More Lp].
  - exact H1.
  - apply H2.
  - apply H3.
  - apply H4, IH.
  - apply H5; apply IH.
  - apply H6; apply IH.
  - apply H7; [apply IH | apply IH |].
    induction More as [|Op More IHM]; constructor; [apply IH | exact IHM].
Qed.

(** X11: the rewriter only ever clears its [Valid] flag and never reads
    it.  The expression it returns does not depend on the flag it starts
    with, and the flag it ends with is the conjunction of the flag it
    starts with and of the flag it ends with when started valid; started
    invalid, it ends invalid. *)
Theorem AddRecLoopReplacer_visit_flag (ir : IR) (OldL NewL : Loop)
    (UseMax : bool) (Expr : SCEV) (Valid0 : bool) :
  AddRecLoopReplacer_visit ir OldL NewL UseMax Expr Valid0 =
    (fst (AddRecLoopReplacer_visit ir OldL NewL UseMax Expr true),
     Valid0 && snd (AddRecLoopReplacer_visit ir OldL NewL UseMax Expr true)) /\
  snd (AddRecLoopReplacer_visit ir OldL NewL UseMax Expr false) = false.
Proof.
  assert (H : forall Expr V,
    AddRecLoopReplacer_visit ir OldL NewL UseMax Expr V =
    (fst (AddRecLoopReplacer_visit ir OldL NewL UseMax Expr true),
     V && snd (AddRecLoopReplacer_visit ir OldL NewL UseMax Expr true))).
  { clear Expr Valid0. intros Expr.
    induction Expr as [ | Ty V0 | Ty V0 | Op Ty IHOp | A B IHA IHB
                      | A B IHA IHB | Start Step More Lp IHStart IHStep IHMore]
      using SCEV_nested_ind; intros V.
    - simpl. now rewrite andb_true_r.
    - simpl. now rewrite andb_true_r.
    - simpl. now rewrite andb_true_r.
    - cbn [AddRecLoopReplacer_visit]. rewrite IHOp.
      destruct (AddRecLoopReplacer_visit ir OldL NewL UseMax Op true)
        as [Op' V1]. reflexivity.
    - cbn [AddRecLoopReplacer_visit]. rewrite IHA.
      destruct (AddRecLoopReplacer_visit ir OldL NewL UseMax A true)
        as [A' V1]. cbn [fst snd].
      rewrite (IHB (V && V1)), (IHB V1).
      destruct (AddRecLoopReplacer_visit ir OldL NewL UseMax B true)
        as [B' V2]. cbn [fst snd]. now rewrite andb_assoc.
    - cbn [AddRecLoopReplacer_visit]. rewrite IHA.
      destruct (AddRecLoopReplacer_visit ir OldL NewL UseMax A true)
        as [A' V1]. cbn [fst snd].
      rewrite (IHB (V && V1)), (IHB V1).
      destruct (AddRecLoopReplacer_visit ir OldL NewL UseMax B true)
        as [B' V2]. cbn [fst snd]. now rewrite andb_assoc.
    - cbn [AddRecLoopReplacer_visit].
      destruct (Pos.eqb Lp OldL); [simpl; now rewrite andb_true_r|].
      destruct (Loop_contains ir OldL Lp).
      + destruct (negb UseMax ||
                  negb (isKnownPositive ir
                          (getStepRecurrence
                             (SCEVAddRecExpr Start Step More Lp))) ||
                  negb (isAffine (SCEVAddRecExpr Start Step More Lp))).
        * simpl. now rewrite andb_false_r.
        * apply IHStart.
      + rewrite IHStart.
        destruct (AddRecLoopReplacer_visit ir OldL NewL UseMax Start true)
          as [Start' V1]. cbn [fst snd].
        rewrite (IHStep (V && V1)), (IHStep V1).
        destruct (AddRecLoopReplacer_visit ir OldL NewL UseMax Step true)
          as [Step' V2]. cbn [fst snd].
        match goal with
        | |- context [(fix visitOperands (Ops : list SCEV) (V : bool)
                         {struct Ops} : list SCEV * bool := @?body visitOperands Ops V)
                        More (V && V1 && V2)] =>
            set (visitOperands :=
                   fix visitOperands (Ops : list SCEV) (V : bool)
                     {struct Ops} : list SCEV * bool := body visitOperands Ops V)
        end.
        assert (HM : forall W,
                  visitOperands More W =
                  (fst (visitOperands More true),
                   W && snd (visitOperands More true))).
        { clear - IHMore. induction IHMore as [|Op More HOp HMore IHM];
            intros W.
          - simpl. now rewrite andb_true_r.
          - cbn [visitOperands]. rewrite HOp.
            destruct (AddRecLoopReplacer_visit ir OldL NewL UseMax Op true)
              as [Op' W1]. cbn [fst snd].
            rewrite (IHM (W && W1)), (IHM W1).
            destruct (visitOperands More true) as [Ops' W2]. cbn [fst snd].
            now rewrite andb_assoc. }
        rewrite (HM (V && V1 && V2)), (HM (V1 && V2)).
        destruct (visitOperands More true) as [More' V3]. cbn [fst snd].
        simpl. now rewrite !andb_assoc. }
  split; [apply H|]. rewrite H. reflexivity.
Qed.

(** ** The nesting levels *)

Lemma descend_In (LDT : LoopDepthTree) (st : PassState) (LV : list Loop) :
  In LV (LoopsOnLevel (fst (descend LDT st))) <->
  exists Lp, In Lp (concat (LoopsOnLevel LDT)) /\
             isRemovedLoop st Lp = false /\
             LV = Loop_subLoops (TheIR st) Lp /\ LV <> [].
Proof.
  unfold descend. cbn [fst LoopsOnLevel].
  rewrite in_flat_map. split.
  - intros (LV0 & H0 & H). apply in_flat_map in H.
    destruct H as (Lp & HLp & H). exists Lp.
    split; [apply in_concat; exists LV0; auto|].
    destruct (isRemovedLoop st Lp); [destruct H|].
    destruct (Loop_subLoops (TheIR st) Lp) as [|Sub Subs] eqn:E;
      [destruct H|].
    simpl in H. destruct H as [<-|[]]. repeat split. discriminate.
  - intros (Lp & HLp & HR & -> & Hne). apply in_concat in HLp.
    destruct HLp as (LV0 & H0 & HLp). exists LV0. split; [exact H0|].
    apply in_flat_map. exists Lp. split; [exact HLp|]. rewrite HR.
    destruct (Loop_subLoops (TheIR st) Lp); [now elim Hne|]. now left.
Qed.



Lemma fuseLoopVectors_terminates :
  forall LVs Changed st, fuseLoopVectors LVs Changed st <> None.
Proof.
  induction LVs as [|LV LVs IH]; intros Changed st; cbn [fuseLoopVectors];
    [discriminate|].
  destruct (Nat.eqb (length LV) 1); [apply IH|].
  destruct (collectFusionCandidates LV st) as [st1| |]; [|discriminate..].
  pose proof (fuseCandidates_terminates st1) as H.
  destruct (fuseCandidates st1) as [[[Fused st2]| |]|];
    [apply IH|discriminate|discriminate|exact H].
Qed.

(** What holds each time the test of the [while] loop is evaluated with
    [fuel] units left: no vector is empty, no loop is recorded as
    removed, and the loops of the level are nested less deep than the
    fuel. *)
Definition atLoopHead (depth : Loop -> nat) (fuel : nat)
    (LDT : LoopDepthTree) (st : PassState) : Prop :=
  Forall (fun LV => 0 < length LV) (LoopsOnLevel LDT) /\
  RemovedLoops st = [] /\
  (forall Lp, In Lp (concat (LoopsOnLevel LDT)) -> S (depth Lp) < fuel) /\
  0 < fuel.

Lemma LDT_empty_nil (LDT : LoopDepthTree) (st : PassState) :
  RemovedLoops st = [] -> LoopsOnLevel LDT = [] -> LDT_empty LDT st = true.
Proof.
  intros HR HL. unfold LDT_empty, LDT_size. rewrite HR, HL. reflexivity.
Qed.

Lemma atLoopHead_descend (depth : Loop -> nat) (fuel : nat)
    (LDT : LoopDepthTree) (st st1 : PassState) :
  (forall ir Lp Sub, In Sub (Loop_subLoops ir Lp) -> depth Sub < depth Lp) ->
  atLoopHead depth (S fuel) LDT st ->
  LDT_empty LDT st = false ->
  atLoopHead depth fuel (fst (descend LDT st1))
    (snd (setFusionCandidates [] (snd (descend LDT st1)))).
Proof.
  intros Hdepth (Hne & HR & Hd & _) Hempty.
  assert (Hsome : exists Lp, In Lp (concat (LoopsOnLevel LDT))).
  { destruct (LoopsOnLevel LDT) as [|LV LVs] eqn:E.
    - rewrite (LDT_empty_nil LDT st HR E) in Hempty. discriminate.
    - inversion Hne as [|? ? HLV _]. destruct LV as [|Lp LV];
        [simpl in HLV; lia|]. exists Lp. now left. }
  split; [|split; [reflexivity|split]].
  - apply Forall_forall. intros LV H. apply descend_In in H.
    destruct H as (Lp & _ & _ & _ & Hnil).
    destruct LV; [now elim Hnil|simpl; lia].
  - intros Sub H. apply in_concat in H. destruct H as (LV & HLV & HSub).
    apply descend_In in HLV. destruct HLV as (Lp & HLp & _ & -> & _).
    apply Hdepth in HSub. apply Hd in HLp. lia.
  - destruct Hsome as (Lp & HLp). apply Hd in HLp. lia.
Qed.

Lemma fuseLoops_levels_terminates (depth : Loop -> nat) :
  (forall ir Lp Sub, In Sub (Loop_subLoops ir Lp) -> depth Sub < depth Lp) ->
  forall fuel LDT Changed st,
    atLoopHead depth fuel LDT st ->
    fuseLoops_levels fuel LDT Changed st <> None.
Proof.
  intros Hdepth.
  induction fuel as [|fuel IH]; intros LDT Changed st Hhead.
  - destruct Hhead as (_ & _ & _ & H). lia.
  - cbn [fuseLoops_levels].
    destruct (LDT_empty LDT st) eqn:Hempty; [discriminate|].
    pose proof (fuseLoopVectors_terminates (LoopsOnLevel LDT) Changed st) as HV.
    destruct (fuseLoopVectors (LoopsOnLevel LDT) Changed st)
      as [[[Changed' st1]| |]|]; [|discriminate|discriminate|exact HV].
    pose proof (atLoopHead_descend st1 Hdepth Hhead Hempty) as Hnext.
    destruct (descend LDT st1) as [LDT' st2]. apply IH. exact Hnext.
Qed.

Lemma atLoopHead_start (depth : Loop -> nat) (fuel : nat) (st : PassState) :
  (forall Lp, In Lp (LI_topLevelLoops (TheIR st)) -> S (depth Lp) < fuel) ->
  0 < fuel ->
  atLoopHead depth fuel (newLoopDepthTree (TheIR st))
    {| Stats := Stats st; Remarks := Remarks st; RemovedLoops := [];
       FusionCandidates := []; TheIR := TheIR st |}.
Proof.
  intros Hd Hpos. unfold atLoopHead, newLoopDepthTree. cbn [LoopsOnLevel].
  split; [|split; [reflexivity|split; [|exact Hpos]]].
  - destruct (LI_topLevelLoops (TheIR st)) as [|Lp Lps];
      constructor; [|constructor]. rewrite length_rev. simpl. lia.
  - intros Lp H. apply Hd.
    destruct (LI_topLevelLoops (TheIR st)) as [|Lp0 Lps]; [destruct H|].
    simpl in H. rewrite app_nil_r in H. apply in_rev.
    exact H.
Qed.

(** X14: the [while] loop of [fuseLoops] ends on every function whose
    loops are nested to a bounded depth.  With [depth] a number that is
    smaller for a sub-loop than for its loop, whatever was fused before,
    a unit of fuel for each level and one more for the last test
    suffice: the result is then an outcome of the pass, never "out of
    fuel". *)
Theorem fuseLoops_returns (depth : Loop -> nat) (fuel : nat) (st : PassState) :
  (forall ir Lp Sub, In Sub (Loop_subLoops ir Lp) -> depth Sub < depth Lp) ->
  (forall Lp, In Lp (LI_topLevelLoops (TheIR st)) -> S (depth Lp) < fuel) ->
  0 < fuel ->
  exists r, fuseLoops fuel st = Some r.
Proof.
  intros Hdepth Hd Hpos. unfold fuseLoops.
  pose proof (@fuseLoops_levels_terminates depth Hdepth fuel
                (newLoopDepthTree (TheIR st)) false _
                (atLoopHead_start depth st Hd Hpos)) as H.
  destruct (fuseLoops_levels fuel (newLoopDepthTree (TheIR st)) false _)
    as [r|]; [exists r; reflexivity|now elim H].
Qed.

Lemma fuseLoopVectors_singletons :
  forall LVs Changed st,
    Forall (fun LV => length LV = 1) LVs ->
    fuseLoopVectors LVs Changed st = Some (Ret (Changed, st)).
Proof.
  induction LVs as [|LV LVs IH]; intros Changed st H; cbn [fuseLoopVectors];
    [reflexivity|].
  inversion H as [|? ? H1 H2]. rewrite H1. simpl. apply IH. exact H2.
Qed.

Lemma fuseLoops_levels_singletons (depth : Loop -> nat) :
  (forall ir Lp Sub, In Sub (Loop_subLoops ir Lp) -> depth Sub < depth Lp) ->
  (forall ir Lp, length (Loop_subLoops ir Lp) <= 1) ->
  forall fuel LDT Changed st,
    atLoopHead depth fuel LDT st ->
    Forall (fun LV => length LV = 1) (LoopsOnLevel LDT) ->
    exists st',
      fuseLoops_levels fuel LDT Changed st = Some (Ret (Changed, st')) /\
      (forall Stat, Stats st' Stat = Stats st Stat) /\
      Remarks st' = Remarks st /\ TheIR st' = TheIR st.
Proof.
  intros Hdepth Hsingle.
  induction fuel as [|fuel IH]; intros LDT Changed st Hhead Hone.
  - destruct Hhead as (_ & _ & _ & H). lia.
  - cbn [fuseLoops_levels].
    destruct (LDT_empty LDT st) eqn:Hempty.
    + exists st. repeat split.
    + rewrite (fuseLoopVectors_singletons Changed st Hone).
      pose proof (atLoopHead_descend st Hdepth Hhead Hempty) as Hnext.
      assert (Hone' : Forall (fun LV => length LV = 1)
                        (LoopsOnLevel (fst (descend LDT st)))).
      { apply Forall_forall. intros LV H. apply descend_In in H.
        destruct H as (Lp & _ & _ & -> & Hnil).
        specialize (Hsingle (TheIR st) Lp).
        destruct (Loop_subLoops (TheIR st) Lp) as [|Sub [|Sub' Subs]];
          [now elim Hnil|reflexivity|simpl in Hsingle; lia]. }
      destruct (descend LDT st) as [LDT' st2] eqn:ED.
      destruct (IH LDT' Changed _ Hnext Hone') as (st' & H1 & H2 & H3 & H4).
      exists st'. split; [exact H1|].
      unfold descend in ED. injection ED as _ <-.
      simpl in H2, H3, H4. auto.
Qed.

(** X15: a function in which no loop has a sibling is left as it is.
    When there is at most one top-level loop and every loop has at most
    one sub-loop, every vector is a singleton and is skipped:
    [fuseLoops] returns [false], and no statistic, no remark and nothing
    of the function has changed. *)
Theorem fuseLoops_no_siblings (depth : Loop -> nat) (fuel : nat)
    (st : PassState) :
  (forall ir Lp Sub, In Sub (Loop_subLoops ir Lp) -> depth Sub < depth Lp) ->
  (forall Lp, In Lp (LI_topLevelLoops (TheIR st)) -> S (depth Lp) < fuel) ->
  0 < fuel ->
  length (LI_topLevelLoops (TheIR st)) <= 1 ->
  (forall ir Lp, length (Loop_subLoops ir Lp) <= 1) ->
  exists st',
    fuseLoops fuel st = Some (Ret (false, st')) /\
    (forall Stat, Stats st' Stat = Stats st Stat) /\
    Remarks st' = Remarks st /\ TheIR st' = TheIR st.
Proof.
  intros Hdepth Hd Hpos Htop Hsingle. unfold fuseLoops.
  destruct (@fuseLoops_levels_singletons depth Hdepth Hsingle fuel
              (newLoopDepthTree (TheIR st)) false _
              (atLoopHead_start depth st Hd Hpos))
    as (st' & H1 & H2 & H3 & H4).
  - unfold newLoopDepthTree. cbn [LoopsOnLevel].
    destruct (LI_topLevelLoops (TheIR st)) as [|Lp [|Lp' Lps]];
      [constructor|repeat constructor|simpl in Htop; lia].
  - exists st'. auto.
Qed.

Lemma collectFusionCandidates_IR :
  forall (LV : list Loop) (st st' : PassState),
    collectFusionCandidates LV st = Ret st' ->
    TheIR st' = TheIR st /\ RemovedLoops st' = RemovedLoops st /\
    Stats st' FuseCounter = Stats st FuseCounter.
Proof.
  induction LV as [|Lp LV IH]; intros st st'.
  - simpl. intros [= <-]. repeat split.
  - cbn [collectFusionCandidates].
    destruct (newFusionCandidate Lp st) as [[CurrCand st1]| |] eqn:HN;
      [|discriminate..].
    apply newFusionCandidate_frame in HN.
    pose proof (isEligibleForFusion_frame CurrCand st1) as HE.
    cbv zeta in HE.
    destruct (isEligibleForFusion CurrCand st1) as [Eligible st2].
    simpl in HN, HE.
    destruct HN as (N1 & N2 & N3 & N4 & N5), HE as (E1 & E2 & E3 & E4 & E5).
    destruct Eligible; simpl.
    + destruct (placeCandidate (TheIR st2) CurrCand (FusionCandidates st2))
        as [Sets| |]; [|discriminate..].
      intros H. apply IH in H. simpl in H. destruct H as (H1 & H2 & H3).
      repeat split; congruence.
    + intros H. apply IH in H. destruct H as (H1 & H2 & H3).
      repeat split; congruence.
Qed.

Lemma fuseLoopVectors_accounting :
  forall LVs Changed st Changed' st',
    fuseLoopVectors LVs Changed st = Some (Ret (Changed', st')) ->
    exists n,
      Stats st' FuseCounter = Stats st FuseCounter + n /\
      Changed' = Changed || negb (n =? 0) /\
      (n = 0 -> TheIR st' = TheIR st).
Proof.
  induction LVs as [|LV LVs IH]; intros Changed st Changed' st';
    cbn [fuseLoopVectors].
  - intros [= <- <-]. exists 0. rewrite orb_false_r. repeat split; lia.
  - destruct (Nat.eqb (length LV) 1); [apply IH|].
    destruct (collectFusionCandidates LV st) as [st1| |] eqn:EC;
      [|discriminate..].
    apply collectFusionCandidates_IR in EC. destruct EC as (C1 & C2 & C3).
    unfold fuseCandidates.
    destruct (fuseCandidateSets (FusionCandidates st1) false st1)
      as [[[[Fused Sets] st2]| |]|] eqn:EF; try discriminate.
    apply fuseCandidateSets_accounting in EF.
    destruct EF as (m & A1 & _ & _ & _ & A5 & _ & A7).
    intros H. apply IH in H. simpl in H.
    destruct H as (n & B1 & B2 & B3).
    exists (m + n). rewrite B1, B2, A1, A5, C3. split; [lia|]. split.
    + destruct m, n; simpl; rewrite ?orb_false_r, ?orb_true_r; reflexivity.
    + intros Hmn. assert (Hm : m = 0) by lia. assert (Hn : n = 0) by lia.
      rewrite (B3 Hn). destruct (A7 Hm) as (-> & _). exact C1.
Qed.

Lemma fuseLoops_levels_accounting :
  forall fuel LDT Changed st Changed' st',
    fuseLoops_levels fuel LDT Changed st = Some (Ret (Changed', st')) ->
    exists n,
      Stats st' FuseCounter = Stats st FuseCounter + n /\
      Changed' = Changed || negb (n =? 0) /\
      (n = 0 -> TheIR st' = TheIR st).
Proof.
  induction fuel as [|fuel IH]; intros LDT Changed st Changed' st';
    [discriminate|].
  cbn [fuseLoops_levels].
  destruct (LDT_empty LDT st).
  - intros [= <- <-]. exists 0. rewrite orb_false_r. repeat split; lia.
  - destruct (fuseLoopVectors (LoopsOnLevel LDT) Changed st)
      as [[[Changed1 st1]| |]|] eqn:EV; try discriminate.
    apply fuseLoopVectors_accounting in EV.
    destruct EV as (m & A1 & A2 & A3).
    unfold descend. intros H. apply IH in H. simpl in H.
    destruct H as (n & B1 & B2 & B3).
    exists (m + n). rewrite B1, B2, A1, A2. split; [lia|]. split.
    + destruct m, n; simpl; rewrite ?orb_false_r, ?orb_true_r; reflexivity.
    + intros Hmn. assert (Hm : m = 0) by lia. assert (Hn : n = 0) by lia.
      rewrite (B3 Hn). exact (A3 Hm).
Qed.

(** X16: what the result of [fuseLoops] says.  With [n] the number of
    fusions, [FuseCounter] has grown by [n] and the result is [true]
    exactly when [n] is not zero; when the result is [false], the
    function is as it was. *)
Theorem fuseLoops_changed (fuel : nat) (st st' : PassState) (Changed : bool) :
  fuseLoops fuel st = Some (Ret (Changed, st')) ->
  exists n,
    Stats st' FuseCounter = Stats st FuseCounter + n /\
    Changed = negb (n =? 0) /\
    (Changed = false -> TheIR st' = TheIR st).
Proof.
  unfold fuseLoops. intros H. apply fuseLoops_levels_accounting in H.
  simpl in H. destruct H as (n & H1 & H2 & H3).
  exists n. split; [exact H1|]. split; [exact H2|].
  intros HC. apply H3. destruct n; [reflexivity|].
  rewrite H2 in HC. discriminate.
Qed.

(** ** No null pointer is read on loops in simplified form *)




Section SimplifiedLoops.

(** Every loop of the function has a latch and a preheader, before and
    after any fusion: what the loop-simplify pass, which the legacy pass
    requires, provides. *)
Hypothesis hasLatch : forall ir Lp, getLoopLatch ir Lp <> None.
Hypothesis hasPreheader : forall ir Lp, getLoopPreheader ir Lp <> None.







End SimplifiedLoops.

End Fuser.

(** ** A concrete function: straight-line code with two loops

    Blocks are numbered along the only path through the function, so
    block [a] dominates block [b] when [a <= b] and post-dominates it
    when [b <= a].  Loop 1 has preheader 1, header 2 and exit block 3;
    loop 2 follows it, either unguarded with preheader 3, or guarded by
    a branch in block 3 with preheader 4.  Both loops store to [A[i]]. *)

Definition chainDominates (_ : unit) (a b : option BasicBlock) : bool :=
  match a, b with
  | Some x, Some y => Pos.leb x y
  | None, None => true
  | _, _ => false
  end.

Definition chainPostDominates (_ : unit) (a b : option BasicBlock) : bool :=
  chainDominates tt b a.

Definition firstLoop : FusionCandidate :=
  {| Preheader := Some 1%positive; Header := Some 2%positive;
     ExitingBlock := Some 2%positive; ExitBlock := Some 3%positive;
     Latch := Some 2%positive; L := 1%positive;
     MemReads := []; MemWrites := [10%positive];
     Valid := true; GuardBranch := None |}.

Definition secondLoop : FusionCandidate :=
  {| Preheader := Some 3%positive; Header := Some 4%positive;
     ExitingBlock := Some 4%positive; ExitBlock := Some 5%positive;
     Latch := Some 4%positive; L := 2%positive;
     MemReads := []; MemWrites := [20%positive];
     Valid := true; GuardBranch := None |}.

Definition secondLoopGuarded : FusionCandidate :=
  {| Preheader := Some 4%positive; Header := Some 5%positive;
     ExitingBlock := Some 5%positive; ExitBlock := Some 6%positive;
     Latch := Some 5%positive; L := 2%positive;
     MemReads := []; MemWrites := [20%positive];
     Valid := true;
     GuardBranch := Some {| getParent := 3%positive;
                            getCondition := Some 30%positive;
                            getSuccessor0 := 4%positive;
                            getSuccessor1 := 7%positive |} |}.

(** The address of [A[i]] in loop [Lp]: [{A,+,4}<Lp>]. *)
Definition elementAddress (Lp : Loop) : SCEV :=
  SCEVAddRecExpr (SCEVUnknown i64 100%positive) (SCEVConstant 64%N 4%Z) [] Lp.

Definition exampleAddRecExpr (_ : unit) (Operands : list SCEV) (Lp : Loop)
  : SCEV :=
  match Operands with
  | Start :: Step :: More => SCEVAddRecExpr Start Step More Lp
  | _ => SCEVCouldNotCompute
  end.

(** An engine that knows a non-strict comparison of an expression with
    itself, and nothing else. *)
Definition exampleKnownPredicate (_ : unit) (P : Predicate) (A B : SCEV)
  : bool :=
  match P with
  | ICMP_EQ | ICMP_UGE | ICMP_ULE | ICMP_SGE | ICMP_SLE => SCEV_eqb A B
  | _ => false
  end.

Definition exampleState : PassState unit :=
  {| Stats := fun _ => 0; Remarks := []; RemovedLoops := [];
     FusionCandidates := [[firstLoop; secondLoop]]; TheIR := tt |}.

(** The dependence check of the example: every analysis enabled, the
    dependence oracle reporting a dependence for every pair. *)
Definition exampleDependencesAllowFusion
  : FusionCandidate -> FusionCandidate -> ST unit bool :=
  dependencesAllowFusion
    chainDominates
    (fun _ Lp => Lp)
    (fun _ A B => Pos.eqb A B)
    (fun _ _ _ => false)
    (fun _ _ => [])
    (fun _ _ => [])
    (fun _ Inst => Inst)
    (fun _ _ => [])
    (fun _ Inst => Some Inst)
    (fun _ _ Lp => elementAddress Lp)
    (fun _ _ => false)
    exampleKnownPredicate
    (fun _ _ _ => true)
    FUSION_DEPENDENCE_ANALYSIS_ALL
    (fun _ Op Ty => SCEVTruncateExpr Op Ty)
    (fun _ A B => SCEVAddExpr A B)
    (fun _ A B => SCEVMulExpr A B)
    exampleAddRecExpr.

Lemma chainDominates_refl (b : option BasicBlock) :
  chainDominates tt b b = true.
Proof. destruct b; simpl; [apply Pos.leb_refl | reflexivity]. Qed.

Lemma chainDominates_antisym (a b : option BasicBlock) :
  chainDominates tt a b = true -> chainDominates tt b a = true -> a = b.
Proof.
  destruct a as [x|], b as [y|]; simpl; try discriminate; try reflexivity.
  rewrite !Pos.leb_le. intros. f_equal. lia.
Qed.

Lemma chainDominates_trans (a b c : option BasicBlock) :
  chainDominates tt a b = true -> chainDominates tt b c = true ->
  chainDominates tt a c = true.
Proof.
  destruct a as [x|], b as [y|], c as [z|]; simpl; try discriminate;
    try reflexivity.
  rewrite !Pos.leb_le. lia.
Qed.

Lemma isAdjacent_unguarded_witness :
  GuardBranch firstLoop = None /\
  ((isAdjacent firstLoop secondLoopGuarded = true <->
    ExitBlock firstLoop = getEntryBlock secondLoopGuarded) /\
   (GuardBranch secondLoopGuarded = None ->
    getEntryBlock secondLoopGuarded = Preheader secondLoopGuarded) /\
   (forall GB, GuardBranch secondLoopGuarded = Some GB ->
    getEntryBlock secondLoopGuarded = Some (getParent GB))).
Proof.
  split; [reflexivity|].
  exact (isAdjacent_unguarded firstLoop secondLoopGuarded eq_refl).
Defined.

Lemma isControlFlowEquivalent_symmetric_witness :
  (chainDominates tt (getEntryBlock firstLoop) (getEntryBlock secondLoop)
     = true ->
   chainDominates tt (getEntryBlock secondLoop) (getEntryBlock firstLoop)
     = true ->
   getEntryBlock firstLoop = getEntryBlock secondLoop) /\
  isControlFlowEquivalent chainDominates chainPostDominates tt
    firstLoop secondLoop = true /\
  isControlFlowEquivalent chainDominates chainPostDominates tt
    firstLoop secondLoop =
  isControlFlowEquivalent chainDominates chainPostDominates tt
    secondLoop firstLoop.
Proof.
  split; [apply chainDominates_antisym|].
  split; [reflexivity|].
  exact (@isControlFlowEquivalent_symmetric unit chainDominates
           chainPostDominates tt firstLoop secondLoop
           (@chainDominates_antisym _ _)).
Defined.

Lemma FusionCandidateCompare_irreflexive_witness :
  (forall b, chainDominates tt b b = true) /\
  (forall a b c, chainDominates tt a b = true ->
     chainDominates tt b c = true -> chainDominates tt a c = true) /\
  FusionCandidateCompare chainDominates tt firstLoop firstLoop = Ret false /\
  FusionCandidateCompare chainDominates tt firstLoop secondLoop = Ret true.
Proof.
  split; [exact chainDominates_refl|].
  split; [exact chainDominates_trans|].
  split; [|reflexivity].
  exact (proj1 (proj2 (FusionCandidateCompare_irreflexive chainDominates tt
                         chainDominates_refl chainDominates_trans))
           firstLoop).
Defined.

(** The rewriter and the address comparison of the example. *)
Definition exampleVisit (OldL NewL : Loop) (Expr : SCEV) : SCEV * bool :=
  AddRecLoopReplacer_visit (fun _ A B => Pos.eqb A B) (fun _ _ => false)
    (fun _ Op Ty => SCEVTruncateExpr Op Ty) (fun _ A B => SCEVAddExpr A B)
    (fun _ A B => SCEVMulExpr A B) exampleAddRecExpr
    tt OldL NewL true Expr true.

Definition exampleAccessDiffIsPositive
  : Instruction -> Instruction -> bool -> bool :=
  accessDiffIsPositive chainDominates (fun _ Lp => Lp)
    (fun _ A B => Pos.eqb A B) (fun _ Inst => Some Inst)
    (fun _ _ Lp => elementAddress Lp) (fun _ _ => false)
    exampleKnownPredicate
    (fun _ Op Ty => SCEVTruncateExpr Op Ty) (fun _ A B => SCEVAddExpr A B)
    (fun _ A B => SCEVMulExpr A B) exampleAddRecExpr
    tt (L firstLoop) (L secondLoop).

(** C3, as stated, fails: the two stores of the example go to the same
    address, which the engine knows to be equal and does not know to be
    greater, and the dependence check lets the loops be fused; it would
    not, had the comparison been strict. *)
Lemma dependence_equal_addresses_counterexample :
  In 10%positive (MemWrites firstLoop) /\
  In 20%positive (MemWrites secondLoop) /\
  exampleVisit (L firstLoop) (L secondLoop) (elementAddress (L firstLoop)) =
    (elementAddress (L secondLoop), true) /\
  exampleKnownPredicate tt ICMP_EQ (elementAddress (L secondLoop))
    (elementAddress (L secondLoop)) = true /\
  exampleKnownPredicate tt ICMP_SGT (elementAddress (L secondLoop))
    (elementAddress (L secondLoop)) = false /\
  exampleAccessDiffIsPositive 10%positive 20%positive true = false /\
  exampleAccessDiffIsPositive 10%positive 20%positive false = true /\
  fst (exampleDependencesAllowFusion firstLoop secondLoop exampleState)
    = true.
Proof. repeat split; try (now left); vm_compute; reflexivity. Qed.

(** A third loop after the second, and a fourth, with other trip counts:
    loops 1 and 2 run [n] times, loop 3 [n + 1] times, loop 4 [1 + n]
    times.  The preheader of loop 2, block 3, holds an instruction
    besides its terminator. *)

Definition thirdLoop : FusionCandidate :=
  {| Preheader := Some 5%positive; Header := Some 6%positive;
     ExitingBlock := Some 6%positive; ExitBlock := Some 7%positive;
     Latch := Some 6%positive; L := 3%positive;
     MemReads := []; MemWrites := [30%positive];
     Valid := true; GuardBranch := None |}.

Definition fourthLoop : FusionCandidate :=
  {| Preheader := Some 7%positive; Header := Some 8%positive;
     ExitingBlock := Some 8%positive; ExitBlock := Some 9%positive;
     Latch := Some 8%positive; L := 4%positive;
     MemReads := []; MemWrites := [40%positive];
     Valid := true; GuardBranch := None |}.

Definition exampleBackedgeTakenCount (_ : unit) (Lp : Loop) : SCEV :=
  match Lp with
  | 1%positive | 2%positive => SCEVUnknown i64 200
  | 3%positive => SCEVAddExpr (SCEVUnknown i64 200) (SCEVConstant 64 1)
  | 4%positive => SCEVAddExpr (SCEVConstant 64 1) (SCEVUnknown i64 200)
  | _ => SCEVCouldNotCompute
  end.

Definition exampleBlockSize (_ : unit) (BB : BasicBlock) : nat :=
  match BB with
  | 3%positive => 2
  | _ => 1
  end.

(** The checks of a pair where no block holds an instruction besides
    its terminator. *)
Definition exampleLegalToFuse
  : FusionCandidate -> FusionCandidate -> ST unit bool :=
  legalToFuse chainDominates exampleBackedgeTakenCount
    (fun _ Lp => Lp) (fun _ A B => Pos.eqb A B) (fun _ _ _ => false)
    (fun _ _ => []) (fun _ _ => 1) (fun _ _ => [])
    (fun _ Inst => Inst) (fun _ _ => []) (fun _ _ _ => false)
    (fun _ Inst => Some Inst) (fun _ _ Lp => elementAddress Lp)
    (fun _ _ => false) exampleKnownPredicate (fun _ _ _ => true)
    FUSION_DEPENDENCE_ANALYSIS_ALL
    (fun _ Op Ty => SCEVTruncateExpr Op Ty) (fun _ A B => SCEVAddExpr A B)
    (fun _ A B => SCEVMulExpr A B) exampleAddRecExpr.

(** C4, the failing input: an unguarded loop followed by a guarded one.
    The exit block of the first loop is the block of the guard of the
    second, not its preheader.  [isAdjacent] answers [true], every other
    check of the pair passes and no remark is made, so [fuseCandidates]
    goes on to [performFusion], whose path for an unguarded first
    candidate takes the preheader of the second to be the exit block of
    the first. *)
Lemma isAdjacent_unguarded_failing_input :
  GuardBranch firstLoop = None /\
  GuardBranch secondLoopGuarded <> None /\
  isAdjacent firstLoop secondLoopGuarded = true /\
  ExitBlock firstLoop <> Preheader secondLoopGuarded /\
  exampleLegalToFuse firstLoop secondLoopGuarded exampleState =
    (true, exampleState).
Proof.
  split; [reflexivity|]. split; [discriminate|]. split; [reflexivity|].
  split; [discriminate|]. vm_compute. reflexivity.
Qed.

(** Trip counts that are equal as integers and are not the same
    expression do not pass the test. *)
Example identicalTripCounts_example :
  fst (identicalTripCounts exampleBackedgeTakenCount firstLoop secondLoop
         exampleState) = true /\
  fst (identicalTripCounts exampleBackedgeTakenCount thirdLoop fourthLoop
         exampleState) = false.
Proof. split; vm_compute; reflexivity. Qed.

Definition exampleFirstFailure
  : unit -> FusionCandidate -> FusionCandidate -> option Statistic :=
  spec_firstFailure chainDominates exampleBackedgeTakenCount
    (fun _ Lp => Lp) (fun _ A B => Pos.eqb A B) (fun _ _ _ => false)
    (fun _ _ => []) exampleBlockSize (fun _ _ => [])
    (fun _ Inst => Inst) (fun _ _ => []) (fun _ _ _ => false)
    (fun _ Inst => Some Inst) (fun _ _ Lp => elementAddress Lp)
    (fun _ _ => false) exampleKnownPredicate (fun _ _ _ => true)
    FUSION_DEPENDENCE_ANALYSIS_ALL
    (fun _ Op Ty => SCEVTruncateExpr Op Ty) (fun _ A B => SCEVAddExpr A B)
    (fun _ A B => SCEVMulExpr A B) exampleAddRecExpr.

Definition exampleFuseCandidateSet (CandidateSet : list FusionCandidate)
  : option (Res (bool * list FusionCandidate * PassState unit)) :=
  fuseCandidateSet chainDominates exampleBackedgeTakenCount
    (fun _ Lp => Lp) (fun _ A B => Pos.eqb A B) (fun _ _ _ => false)
    (fun _ _ => []) exampleBlockSize (fun _ _ => [])
    (fun _ Inst => Inst) (fun _ _ => []) (fun _ _ _ => false)
    (fun _ Inst => Some Inst) (fun _ _ Lp => elementAddress Lp)
    (fun _ _ => false) exampleKnownPredicate (fun _ _ _ => true)
    FUSION_DEPENDENCE_ANALYSIS_ALL
    (fun _ Op Ty => SCEVTruncateExpr Op Ty) (fun _ A B => SCEVAddExpr A B)
    (fun _ A B => SCEVMulExpr A B) exampleAddRecExpr
    (fun _ _ => None) (fun _ _ => None) (fun _ _ => None) (fun _ _ => None)
    (fun _ _ _ => false) (fun _ _ => None) (fun _ _ => false)
    (fun _ _ => false) (fun _ _ => false) (fun _ _ => false)
    (fun _ _ => false) (fun _ _ => false)
    (fun _ FC0 _ => (tt, L FC0))
    (fuseFuel (length CandidateSet)) CandidateSet 0 0 false exampleState.

(** The three loops in one set: the first pair fails on the preheader of
    the second loop, the two other pairs on their trip counts; each pair
    is reported and the traversal reaches the end of the set. *)
Example fuseCandidateSet_example :
  exists st',
    exampleFuseCandidateSet [firstLoop; secondLoop; thirdLoop] =
      Some (Ret (false, [firstLoop; secondLoop; thirdLoop], st')) /\
    map (fun R => (RStat R, RCand1 R, RCand2 R)) (Remarks st') =
      [(NonEmptyPreheader, Some 1%positive, Some 3%positive);
       (NonEqualTripCount, Some 1%positive, Some 5%positive);
       (NonEqualTripCount, Some 3%positive, Some 5%positive)] /\
    Stats st' NonEmptyPreheader = 1 /\
    Stats st' NonEqualTripCount = 2 /\
    Stats st' InvalidDependencies = 0.
Proof. eexists. repeat split; vm_compute; reflexivity. Qed.

Lemma fuseCandidates_checks_in_order_witness :
  (forall p, In p (pairsInOrder [firstLoop; secondLoop; thirdLoop]) ->
     exampleFirstFailure tt (fst p) (snd p) <> None) /\
  exists st' NewRemarks,
    exampleFuseCandidateSet [firstLoop; secondLoop; thirdLoop] =
      Some (Ret (false, [firstLoop; secondLoop; thirdLoop], st')) /\
    TheIR st' = tt /\
    Remarks st' = [] ++ NewRemarks /\
    Forall2 (fun p R =>
               exists Stat,
                 exampleFirstFailure tt (fst p) (snd p) = Some Stat /\
                 R = missedRemark (fst p) (snd p) Stat)
      (pairsInOrder [firstLoop; secondLoop; thirdLoop]) NewRemarks.
Proof.
  assert (H : forall p,
            In p (pairsInOrder [firstLoop; secondLoop; thirdLoop]) ->
            exampleFirstFailure tt (fst p) (snd p) <> None).
  { intros p [<-|[<-|[<-|[]]]]; vm_compute; discriminate. }
  split; [exact H|].
  exact (proj2 (@fuseCandidates_checks_in_order unit
    chainDominates exampleBackedgeTakenCount
    (fun _ Lp => Lp) (fun _ A B => Pos.eqb A B) (fun _ _ _ => false)
    (fun _ _ => []) exampleBlockSize (fun _ _ => [])
    (fun _ Inst => Inst) (fun _ _ => []) (fun _ _ _ => false)
    (fun _ Inst => Some Inst) (fun _ _ Lp => elementAddress Lp)
    (fun _ _ => false) exampleKnownPredicate (fun _ _ _ => true)
    FUSION_DEPENDENCE_ANALYSIS_ALL
    (fun _ Op Ty => SCEVTruncateExpr Op Ty) (fun _ A B => SCEVAddExpr A B)
    (fun _ A B => SCEVMulExpr A B) exampleAddRecExpr
    (fun _ _ => None) (fun _ _ => None) (fun _ _ => None) (fun _ _ => None)
    (fun _ _ _ => false) (fun _ _ => None) (fun _ _ => false)
    (fun _ _ => false) (fun _ _ => false) (fun _ _ => false)
    (fun _ _ => false) (fun _ _ => false)
    (fun _ FC0 _ => (tt, L FC0)))
    [firstLoop; secondLoop; thirdLoop] false exampleState H).
Defined.





(** ** A concrete run: two adjacent loops are fused

    The function is the straight-line code above with its first two
    loops, no instruction in a preheader, and one store in each loop.  Its
    state is [false] before the fusion and [true] after it, when loop 2
    is gone and loop 1 runs through the blocks of both. *)

Definition run_DT_dominates (_ : bool) := chainDominates tt.
Definition run_PDT_dominates (_ : bool) := chainPostDominates tt.
Definition run_getBackedgeTakenCount (_ : bool) (_ : Loop) : SCEV :=
  SCEVUnknown i64 200.
Definition run_hasLoopInvariantBackedgeTakenCount (_ : bool) (_ : Loop) :=
  true.
Definition run_Loop_isInvalid (_ : bool) (_ : Loop) := false.
Definition run_isLoopSimplifyForm (_ : bool) (_ : Loop) := true.
Definition run_Loop_getHeader (_ : bool) (Lp : Loop) : BasicBlock :=
  match Lp with
  | 1%positive => 2%positive
  | _ => 4%positive
  end.
Definition run_Loop_contains (_ : bool) (A B : Loop) := Pos.eqb A B.
Definition run_Loop_containsBlock (_ : bool) (_ : Loop) (_ : BasicBlock) :=
  false.
Definition run_Loop_blocks (ir : bool) (Lp : Loop) : list BasicBlock :=
  match Lp with
  | 1%positive => if ir then [2%positive; 4%positive] else [2%positive]
  | _ => [4%positive]
  end.
Definition run_BasicBlock_size (_ : bool) (_ : BasicBlock) := 1.
Definition run_BasicBlock_instructions (_ : bool) (BB : BasicBlock)
  : list Instruction :=
  match BB with
  | 2%positive => [10%positive]
  | 4%positive => [20%positive]
  | _ => []
  end.
Definition run_Instruction_getParent (_ : bool) (Inst : Instruction)
  : BasicBlock :=
  match Inst with
  | 10%positive => 2%positive
  | _ => 4%positive
  end.
Definition run_Instruction_operands (_ : bool) (_ : Instruction)
  : list (option Instruction) := [].
Definition run_isIdenticalTo (_ : bool) (A B : Instruction) := Pos.eqb A B.
Definition run_getLoadStorePointerOperand (_ : bool) (Inst : Instruction)
  : option ValueId := Some Inst.
Definition run_getSCEVAtScope (_ : bool) (_ : ValueId) (Lp : Loop) : SCEV :=
  elementAddress Lp.
Definition run_isKnownPositive (_ : bool) (_ : SCEV) := false.
Definition run_isKnownPredicate (_ : bool) := exampleKnownPredicate tt.
Definition run_DI_depends (_ : bool) (_ _ : Instruction) := true.
Definition run_FusionDependenceAnalysis := FUSION_DEPENDENCE_ANALYSIS_ALL.
Definition run_getTruncateExpr (_ : bool) (Op : SCEV) (Ty : Type_) :=
  SCEVTruncateExpr Op Ty.
Definition run_getAddExpr (_ : bool) (A B : SCEV) := SCEVAddExpr A B.
Definition run_getMulExpr (_ : bool) (A B : SCEV) := SCEVMulExpr A B.
Definition run_getAddRecExpr (_ : bool) := exampleAddRecExpr tt.
Definition run_getLoopPreheader (_ : bool) (Lp : Loop) : option BasicBlock :=
  match Lp with
  | 1%positive => Some 1%positive
  | _ => Some 3%positive
  end.
Definition run_getExitingBlock (ir : bool) (Lp : Loop) : option BasicBlock :=
  match Lp with
  | 1%positive => if ir then Some 4%positive else Some 2%positive
  | _ => Some 4%positive
  end.
Definition run_getExitBlock (ir : bool) (Lp : Loop) : option BasicBlock :=
  match Lp with
  | 1%positive => if ir then Some 5%positive else Some 3%positive
  | _ => Some 5%positive
  end.
Definition run_getLoopLatch (ir : bool) (Lp : Loop) : option BasicBlock :=
  match Lp with
  | 1%positive => if ir then Some 4%positive else Some 2%positive
  | _ => Some 4%positive
  end.
Definition run_isLoopExiting (_ : bool) (_ : Loop) (_ : option BasicBlock) :=
  false.
Definition run_getLoopGuardBranch (_ : bool) (_ : Loop) : option BranchInst :=
  None.
Definition run_hasAddressTaken (_ : bool) (_ : BasicBlock) := false.
Definition run_mayThrow (_ : bool) (_ : Instruction) := false.
Definition run_isVolatileStore (_ : bool) (_ : Instruction) := false.
Definition run_isVolatileLoad (_ : bool) (_ : Instruction) := false.
Definition run_mayWriteToMemory (_ : bool) (_ : Instruction) := true.
Definition run_mayReadFromMemory (_ : bool) (_ : Instruction) := false.
Definition run_performFusion (_ : bool) (FC0 _ : FusionCandidate)
  : bool * Loop := (true, L FC0).
Definition run_LI_topLevelLoops (ir : bool) : list Loop :=
  if ir then [1%positive] else [1%positive; 2%positive].
Definition run_Loop_subLoops (_ : bool) (_ : Loop) : list Loop := [].

(** The state of the pass before it runs, and with the two candidates in
    one set. *)
Definition runState : PassState bool :=
  {| Stats := fun _ => 0; Remarks := []; RemovedLoops := [];
     FusionCandidates := []; TheIR := false |}.

Definition runStateCollected : PassState bool :=
  {| Stats := fun _ => 0; Remarks := []; RemovedLoops := [];
     FusionCandidates := [[firstLoop; secondLoop]]; TheIR := false |}.

(** The loop that the fusion leaves. *)
Definition fusedLoop : FusionCandidate :=
  {| Preheader := Some 1%positive; Header := Some 2%positive;
     ExitingBlock := Some 4%positive; ExitBlock := Some 5%positive;
     Latch := Some 4%positive; L := 1%positive;
     MemReads := []; MemWrites := [10%positive; 20%positive];
     Valid := true; GuardBranch := None |}.

Abbreviation runFuseLoops :=
  (fuseLoops
    run_DT_dominates run_PDT_dominates run_getBackedgeTakenCount
    run_hasLoopInvariantBackedgeTakenCount run_Loop_isInvalid
    run_isLoopSimplifyForm run_Loop_getHeader run_Loop_contains
    run_Loop_containsBlock run_Loop_blocks run_BasicBlock_size
    run_BasicBlock_instructions run_Instruction_getParent
    run_Instruction_operands run_isIdenticalTo
    run_getLoadStorePointerOperand run_getSCEVAtScope run_isKnownPositive
    run_isKnownPredicate run_DI_depends run_FusionDependenceAnalysis
    run_getTruncateExpr run_getAddExpr run_getMulExpr run_getAddRecExpr
    run_getLoopPreheader run_getExitingBlock run_getExitBlock
    run_getLoopLatch run_isLoopExiting run_getLoopGuardBranch
    run_hasAddressTaken run_mayThrow run_isVolatileStore run_isVolatileLoad
    run_mayWriteToMemory run_mayReadFromMemory run_performFusion
    run_LI_topLevelLoops run_Loop_subLoops).

Abbreviation runFuseCandidates :=
  (fuseCandidates
    run_DT_dominates run_getBackedgeTakenCount run_Loop_getHeader
    run_Loop_contains run_Loop_containsBlock run_Loop_blocks
    run_BasicBlock_size run_BasicBlock_instructions
    run_Instruction_getParent run_Instruction_operands run_isIdenticalTo
    run_getLoadStorePointerOperand run_getSCEVAtScope run_isKnownPositive
    run_isKnownPredicate run_DI_depends run_FusionDependenceAnalysis
    run_getTruncateExpr run_getAddExpr run_getMulExpr run_getAddRecExpr
    run_getLoopPreheader run_getExitingBlock run_getExitBlock
    run_getLoopLatch run_isLoopExiting run_getLoopGuardBranch
    run_hasAddressTaken run_mayThrow run_isVolatileStore run_isVolatileLoad
    run_mayWriteToMemory run_mayReadFromMemory run_performFusion).

Abbreviation runCollectFusionCandidates :=
  (collectFusionCandidates
    run_DT_dominates run_PDT_dominates
    run_hasLoopInvariantBackedgeTakenCount run_Loop_isInvalid
    run_isLoopSimplifyForm run_Loop_getHeader run_Loop_blocks
    run_BasicBlock_instructions run_getLoopPreheader run_getExitingBlock
    run_getExitBlock run_getLoopLatch run_isLoopExiting
    run_getLoopGuardBranch run_hasAddressTaken run_mayThrow
    run_isVolatileStore run_isVolatileLoad run_mayWriteToMemory
    run_mayReadFromMemory).

(** What the examples look at in a result: whether it is a normal
    return, its flag, and its state. *)
Definition resultFlag (r : option (Res (bool * PassState bool)))
  : option bool :=
  match r with
  | Some (Ret (b, _)) => Some b
  | _ => None
  end.

Definition resultState (r : option (Res (bool * PassState bool)))
    (default : PassState bool) : PassState bool :=
  match r with
  | Some (Ret (_, st)) => st
  | _ => default
  end.

Definition collectedState (r : Res (PassState bool))
    (default : PassState bool) : PassState bool :=
  match r with
  | Ret st => st
  | _ => default
  end.

Lemma resultState_eq (r : option (Res (bool * PassState bool))) (b : bool)
    (default : PassState bool) :
  resultFlag r = Some b -> r = Some (Ret (b, resultState r default)).
Proof. destruct r as [[[b' st]| |]|]; simpl; congruence. Qed.

Lemma collectedState_eq (r : Res (PassState bool))
    (default : PassState bool) :
  match r with Ret _ => true | _ => false end = true ->
  r = Ret (collectedState r default).
Proof. destruct r; simpl; congruence. Qed.

(** The states after the collection of the two loops, after the fusion
    of the collected candidates, and after the whole pass. *)
Abbreviation runCollected :=
  (collectedState
     (runCollectFusionCandidates [2%positive; 1%positive] runState) runState).

Abbreviation runFused :=
  (resultState (runFuseCandidates runStateCollected) runState).

Abbreviation runFinal :=
  (resultState (runFuseLoops 2 runState) runState).

(** The pass on the two loops: both are collected, the second before the
    first, put in dominance order and fused, and the pass ends below the
    fused loop, which has no sub-loop. *)
Example fuseLoops_example :
  FusionCandidates runCollected = [[firstLoop; secondLoop]] /\
  Stats runCollected NumFusionCandidates = 2 /\
  resultFlag (runFuseCandidates runStateCollected) = Some true /\
  FusionCandidates runFused = [[fusedLoop]] /\
  RemovedLoops runFused = [2%positive] /\
  resultFlag (runFuseLoops 2 runState) = Some true /\
  TheIR runFinal = true /\
  Stats runFinal NumFusionCandidates = 2 /\
  Stats runFinal FuseCounter = 1 /\
  map (fun R => (RKind R, RStat R, RCand1 R, RCand2 R)) (Remarks runFinal) =
    [(OptimizationRemark, FuseCounter, Some 1%positive, Some 3%positive)] /\
  RemovedLoops runFinal = [] /\ FusionCandidates runFinal = [].
Proof. repeat split; vm_compute; reflexivity. Qed.

(** A nest of two loops, loop 2 inside loop 1, and the number of levels
    below each loop. *)
Definition nest_LI_topLevelLoops (_ : bool) : list Loop := [1%positive].
Definition nest_Loop_subLoops (_ : bool) (Lp : Loop) : list Loop :=
  match Lp with
  | 1%positive => [2%positive]
  | _ => []
  end.
Definition nestDepth (Lp : Loop) : nat :=
  match Lp with
  | 1%positive => 1
  | _ => 0
  end.

Abbreviation nestFuseLoops :=
  (fuseLoops
      run_DT_dominates run_PDT_dominates run_getBackedgeTakenCount
      run_hasLoopInvariantBackedgeTakenCount run_Loop_isInvalid
      run_isLoopSimplifyForm run_Loop_getHeader run_Loop_contains
      run_Loop_containsBlock run_Loop_blocks run_BasicBlock_size
      run_BasicBlock_instructions run_Instruction_getParent
      run_Instruction_operands run_isIdenticalTo
      run_getLoadStorePointerOperand run_getSCEVAtScope run_isKnownPositive
      run_isKnownPredicate run_DI_depends run_FusionDependenceAnalysis
      run_getTruncateExpr run_getAddExpr run_getMulExpr run_getAddRecExpr
      run_getLoopPreheader run_getExitingBlock run_getExitBlock
      run_getLoopLatch run_isLoopExiting run_getLoopGuardBranch
      run_hasAddressTaken run_mayThrow run_isVolatileStore
      run_isVolatileLoad run_mayWriteToMemory run_mayReadFromMemory
      run_performFusion nest_LI_topLevelLoops nest_Loop_subLoops).

(** A guarded loop after the guarded second loop, behind the same
    condition. *)
Definition fourthLoopGuarded : FusionCandidate :=
  {| Preheader := Some 8%positive; Header := Some 9%positive;
     ExitingBlock := Some 9%positive; ExitBlock := Some 10%positive;
     Latch := Some 9%positive; L := 4%positive;
     MemReads := []; MemWrites := [40%positive];
     Valid := true;
     GuardBranch := Some {| getParent := 7%positive;
                            getCondition := Some 30%positive;
                            getSuccessor0 := 8%positive;
                            getSuccessor1 := 11%positive |} |}.

Lemma isAdjacent_guarded_witness :
  GuardBranch secondLoopGuarded =
    Some {| getParent := 3%positive; getCondition := Some 30%positive;
            getSuccessor0 := 4%positive; getSuccessor1 := 7%positive |} /\
  isAdjacent secondLoopGuarded fourthLoopGuarded = true /\
  (isAdjacent secondLoopGuarded fourthLoopGuarded = true <->
   getNonLoopBlock secondLoopGuarded = getEntryBlock fourthLoopGuarded) /\
  (Some 4%positive = Preheader secondLoopGuarded ->
   getNonLoopBlock secondLoopGuarded = Some 7%positive) /\
  (Some 4%positive <> Preheader secondLoopGuarded ->
   getNonLoopBlock secondLoopGuarded = Some 4%positive) /\
  (getNonLoopBlock secondLoopGuarded = Preheader secondLoopGuarded ->
   Some 4%positive = Preheader secondLoopGuarded /\
   Some 7%positive = Preheader secondLoopGuarded).
Proof.
  split; [reflexivity|]. split; [reflexivity|].
  exact (@isAdjacent_guarded secondLoopGuarded fourthLoopGuarded _ eq_refl).
Defined.

Lemma haveIdenticalGuards_iff_witness :
  GuardBranch secondLoopGuarded =
    Some {| getParent := 3%positive; getCondition := Some 30%positive;
            getSuccessor0 := 4%positive; getSuccessor1 := 7%positive |} /\
  GuardBranch fourthLoopGuarded =
    Some {| getParent := 7%positive; getCondition := Some 30%positive;
            getSuccessor0 := 8%positive; getSuccessor1 := 11%positive |} /\
  haveIdenticalGuards run_isIdenticalTo false secondLoopGuarded
    fourthLoopGuarded = true /\
  (haveIdenticalGuards run_isIdenticalTo false secondLoopGuarded
     fourthLoopGuarded = true <->
   (forall C0 C1, Some 30%positive = Some C0 -> Some 30%positive = Some C1 ->
      run_isIdenticalTo false C0 C1 = true) /\
   ((Some 4%positive = Preheader secondLoopGuarded /\
     Some 8%positive = Preheader fourthLoopGuarded) \/
    (Some 4%positive <> Preheader secondLoopGuarded /\
     Some 11%positive = Preheader fourthLoopGuarded))).
Proof.
  split; [reflexivity|]. split; [reflexivity|]. split; [reflexivity|].
  exact (@haveIdenticalGuards_iff bool run_isIdenticalTo false
           secondLoopGuarded fourthLoopGuarded _ _ eq_refl eq_refl).
Defined.

Lemma set_insert_position_witness :
  set_insert chainDominates tt secondLoop [firstLoop; thirdLoop] =
    Ret (1, true, [firstLoop; secondLoop; thirdLoop]) /\
  nth_error [firstLoop; secondLoop; thirdLoop] 1 = Some secondLoop /\
  set_erase 1 [firstLoop; secondLoop; thirdLoop] = [firstLoop; thirdLoop] /\
  length [firstLoop; secondLoop; thirdLoop] =
    S (length [firstLoop; thirdLoop]).
Proof.
  split; [reflexivity|].
  exact (@set_insert_position unit chainDominates tt secondLoop
           [firstLoop; thirdLoop] 1 true [firstLoop; secondLoop; thirdLoop]
           eq_refl).
Defined.

Lemma set_insert_keeps_order_witness :
  (forall a b c, chainDominates tt a b = true ->
     chainDominates tt b c = true -> chainDominates tt a c = true) /\
  inDominanceOrder chainDominates tt [firstLoop; thirdLoop] /\
  set_insert chainDominates tt secondLoop [firstLoop; thirdLoop] =
    Ret (1, true, [firstLoop; secondLoop; thirdLoop]) /\
  inDominanceOrder chainDominates tt [firstLoop; secondLoop; thirdLoop] /\
  inDominanceOrder chainDominates tt (set_erase 0 [firstLoop; thirdLoop]).
Proof.
  assert (Hord : inDominanceOrder chainDominates tt [firstLoop; thirdLoop])
    by (simpl; repeat constructor).
  split; [exact chainDominates_trans|]. split; [exact Hord|].
  split; [reflexivity|].
  pose proof (@set_insert_keeps_order unit chainDominates tt secondLoop
                chainDominates_trans [firstLoop; thirdLoop] Hord) as H.
  split; [exact (proj1 H 1 true _ eq_refl) | exact (proj2 H 0)].
Defined.

Lemma placeCandidate_outcome_witness :
  placeCandidate chainDominates chainPostDominates tt secondLoop
    [[firstLoop; thirdLoop]] = Ret [[firstLoop; secondLoop; thirdLoop]] /\
  (([[firstLoop; secondLoop; thirdLoop]] =
      [[firstLoop; thirdLoop]] ++ [[secondLoop]] /\
    forall First Rest, In (First :: Rest) [[firstLoop; thirdLoop]] ->
      isControlFlowEquivalent chainDominates chainPostDominates tt
        First secondLoop = false) \/
   (exists Before First Rest After pos inserted CandSet',
      [[firstLoop; thirdLoop]] = Before ++ (First :: Rest) :: After /\
      [[firstLoop; secondLoop; thirdLoop]] = Before ++ CandSet' :: After /\
      isControlFlowEquivalent chainDominates chainPostDominates tt
        First secondLoop = true /\
      set_insert chainDominates tt secondLoop (First :: Rest) =
        Ret (pos, inserted, CandSet') /\
      forall F R, In (F :: R) Before ->
        isControlFlowEquivalent chainDominates chainPostDominates tt
          F secondLoop = false)).
Proof.
  split; [reflexivity|].
  exact (@placeCandidate_outcome unit chainDominates chainPostDominates tt
           secondLoop [[firstLoop; thirdLoop]] _ eq_refl).
Defined.

Abbreviation runEligibleCandidates :=
  (eligibleCandidates
    run_hasLoopInvariantBackedgeTakenCount run_Loop_isInvalid
    run_isLoopSimplifyForm run_Loop_getHeader run_Loop_blocks
    run_BasicBlock_instructions run_getLoopPreheader run_getExitingBlock
    run_getExitBlock run_getLoopLatch run_isLoopExiting
    run_getLoopGuardBranch run_hasAddressTaken run_mayThrow
    run_isVolatileStore run_isVolatileLoad run_mayWriteToMemory
    run_mayReadFromMemory).

Lemma collectFusionCandidates_frame_witness :
  runCollectFusionCandidates [2%positive; 1%positive] runState =
    Ret runCollected /\
  runEligibleCandidates (TheIR runState) [2%positive; 1%positive] =
    [secondLoop; firstLoop] /\
  let New := runEligibleCandidates (TheIR runState)
               [2%positive; 1%positive] in
  TheIR runCollected = TheIR runState /\
  RemovedLoops runCollected = RemovedLoops runState /\
  Stats runCollected FuseCounter = Stats runState FuseCounter /\
  length New <= length [2%positive; 1%positive] /\
  Stats runCollected NumFusionCandidates =
    Stats runState NumFusionCandidates + length New /\
  (forall FC, In FC (concat (FusionCandidates runState)) ->
     In FC (concat (FusionCandidates runCollected))) /\
  (forall FC, In FC (concat (FusionCandidates runCollected)) ->
     In FC (concat (FusionCandidates runState)) \/ In FC New) /\
  (forall FC, In FC New ->
     represented run_DT_dominates (TheIR runState) FC
       (concat (FusionCandidates runCollected))) /\
  length (concat (FusionCandidates runState)) <=
    length (concat (FusionCandidates runCollected)) /\
  length (concat (FusionCandidates runCollected)) <=
    length (concat (FusionCandidates runState)) + length New.
Proof.
  assert (H : runCollectFusionCandidates [2%positive; 1%positive] runState =
              Ret runCollected)
    by (apply collectedState_eq; vm_compute; reflexivity).
  split; [exact H|]. split; [vm_compute; reflexivity|].
  exact (@collectFusionCandidates_frame bool
      run_DT_dominates run_PDT_dominates
      run_hasLoopInvariantBackedgeTakenCount run_Loop_isInvalid
      run_isLoopSimplifyForm run_Loop_getHeader run_Loop_blocks
      run_BasicBlock_instructions run_getLoopPreheader run_getExitingBlock
      run_getExitBlock run_getLoopLatch run_isLoopExiting
      run_getLoopGuardBranch run_hasAddressTaken run_mayThrow
      run_isVolatileStore run_isVolatileLoad run_mayWriteToMemory
      run_mayReadFromMemory
      [2%positive; 1%positive] runState runCollected H).
Defined.

Lemma fuseCandidates_accounting_witness :
  runFuseCandidates runStateCollected = Some (Ret (true, runFused)) /\
  exists n,
    Stats runFused FuseCounter = Stats runStateCollected FuseCounter + n /\
    length (RemovedLoops runFused) =
      length (RemovedLoops runStateCollected) + n /\
    length (concat (FusionCandidates runFused)) + n <=
      length (concat (FusionCandidates runStateCollected)) /\
    length (FusionCandidates runFused) =
      length (FusionCandidates runStateCollected) /\
    true = negb (n =? 0) /\
    (true = false ->
     TheIR runFused = TheIR runStateCollected /\
     RemovedLoops runFused = RemovedLoops runStateCollected).
Proof.
  assert (H : runFuseCandidates runStateCollected =
              Some (Ret (true, runFused)))
    by (apply resultState_eq; vm_compute; reflexivity).
  split; [exact H|].
  exact (@fuseCandidates_accounting bool
      run_DT_dominates run_getBackedgeTakenCount run_Loop_getHeader
      run_Loop_contains run_Loop_containsBlock run_Loop_blocks
      run_BasicBlock_size run_BasicBlock_instructions
      run_Instruction_getParent run_Instruction_operands run_isIdenticalTo
      run_getLoadStorePointerOperand run_getSCEVAtScope run_isKnownPositive
      run_isKnownPredicate run_DI_depends run_FusionDependenceAnalysis
      run_getTruncateExpr run_getAddExpr run_getMulExpr run_getAddRecExpr
      run_getLoopPreheader run_getExitingBlock run_getExitBlock
      run_getLoopLatch run_isLoopExiting run_getLoopGuardBranch
      run_hasAddressTaken run_mayThrow run_isVolatileStore
      run_isVolatileLoad run_mayWriteToMemory run_mayReadFromMemory
      run_performFusion
      runStateCollected runFused true H).
Defined.


(** The two loops of the run inside a third: loop 3 is the only
    top-level loop, and loops 1 and 2, or loop 1 alone after the fusion,
    are its sub-loops.  The pass skips the level of loop 3, descends and
    fuses the two loops of the level below. *)
Definition deep_LI_topLevelLoops (_ : bool) : list Loop := [3%positive].
Definition deep_Loop_subLoops (ir : bool) (Lp : Loop) : list Loop :=
  match Lp with
  | 3%positive => run_LI_topLevelLoops ir
  | _ => []
  end.
Definition deepDepth (Lp : Loop) : nat :=
  match Lp with
  | 3%positive => 1
  | _ => 0
  end.

Abbreviation deepFuseLoops :=
  (fuseLoops
      run_DT_dominates run_PDT_dominates run_getBackedgeTakenCount
      run_hasLoopInvariantBackedgeTakenCount run_Loop_isInvalid
      run_isLoopSimplifyForm run_Loop_getHeader run_Loop_contains
      run_Loop_containsBlock run_Loop_blocks run_BasicBlock_size
      run_BasicBlock_instructions run_Instruction_getParent
      run_Instruction_operands run_isIdenticalTo
      run_getLoadStorePointerOperand run_getSCEVAtScope run_isKnownPositive
      run_isKnownPredicate run_DI_depends run_FusionDependenceAnalysis
      run_getTruncateExpr run_getAddExpr run_getMulExpr run_getAddRecExpr
      run_getLoopPreheader run_getExitingBlock run_getExitBlock
      run_getLoopLatch run_isLoopExiting run_getLoopGuardBranch
      run_hasAddressTaken run_mayThrow run_isVolatileStore
      run_isVolatileLoad run_mayWriteToMemory run_mayReadFromMemory
      run_performFusion deep_LI_topLevelLoops deep_Loop_subLoops).

Lemma fuseLoops_returns_witness :
  (forall (ir : bool) (Lp Sub : Loop),
     In Sub (deep_Loop_subLoops ir Lp) -> deepDepth Sub < deepDepth Lp) /\
  deep_Loop_subLoops (TheIR runState) 3%positive =
    [1%positive; 2%positive] /\
  (forall Lp, In Lp (deep_LI_topLevelLoops (TheIR runState)) ->
     S (deepDepth Lp) < 3) /\
  0 < 3 /\
  resultFlag (deepFuseLoops 3 runState) = Some true /\
  Stats (resultState (deepFuseLoops 3 runState) runState) FuseCounter = 1 /\
  exists r, deepFuseLoops 3 runState = Some r.
Proof.
  assert (H1 : forall (ir : bool) (Lp Sub : Loop),
             In Sub (deep_Loop_subLoops ir Lp) ->
             deepDepth Sub < deepDepth Lp).
  { intros ir Lp Sub H.
    destruct (Pos.eq_dec Lp 3) as [->|Hne].
    - destruct ir; simpl in H.
      + destruct H as [<-|[]]. simpl. lia.
      + destruct H as [<-|[<-|[]]]; simpl; lia.
    - assert (E : deep_Loop_subLoops ir Lp = []).
      { unfold deep_Loop_subLoops.
        destruct Lp as [[p|p|]|p|]; try reflexivity. now elim Hne. }
      rewrite E in H. destruct H. }
  assert (H2 : forall Lp,
             In Lp (deep_LI_topLevelLoops (TheIR runState)) ->
             S (deepDepth Lp) < 3)
    by (intros Lp [<-|[]]; simpl; lia).
  assert (H3 : 0 < 3) by lia.
  split; [exact H1|]. split; [reflexivity|]. split; [exact H2|].
  split; [exact H3|]. split; [vm_compute; reflexivity|].
  split; [vm_compute; reflexivity|].
  exact (@fuseLoops_returns bool
      run_DT_dominates run_PDT_dominates run_getBackedgeTakenCount
      run_hasLoopInvariantBackedgeTakenCount run_Loop_isInvalid
      run_isLoopSimplifyForm run_Loop_getHeader run_Loop_contains
      run_Loop_containsBlock run_Loop_blocks run_BasicBlock_size
      run_BasicBlock_instructions run_Instruction_getParent
      run_Instruction_operands run_isIdenticalTo
      run_getLoadStorePointerOperand run_getSCEVAtScope run_isKnownPositive
      run_isKnownPredicate run_DI_depends run_FusionDependenceAnalysis
      run_getTruncateExpr run_getAddExpr run_getMulExpr run_getAddRecExpr
      run_getLoopPreheader run_getExitingBlock run_getExitBlock
      run_getLoopLatch run_isLoopExiting run_getLoopGuardBranch
      run_hasAddressTaken run_mayThrow run_isVolatileStore
      run_isVolatileLoad run_mayWriteToMemory run_mayReadFromMemory
      run_performFusion deep_LI_topLevelLoops deep_Loop_subLoops
      deepDepth 3 runState H1 H2 H3).
Defined.

Lemma fuseLoops_no_siblings_witness :
  (forall (ir : bool) (Lp Sub : Loop),
     In Sub (nest_Loop_subLoops ir Lp) -> nestDepth Sub < nestDepth Lp) /\
  (forall Lp, In Lp (nest_LI_topLevelLoops (TheIR runState)) ->
     S (nestDepth Lp) < 3) /\
  0 < 3 /\
  length (nest_LI_topLevelLoops (TheIR runState)) <= 1 /\
  (forall (ir : bool) (Lp : Loop), length (nest_Loop_subLoops ir Lp) <= 1) /\
  exists st',
    nestFuseLoops 3 runState = Some (Ret (false, st')) /\
    (forall Stat, Stats st' Stat = Stats runState Stat) /\
    Remarks st' = Remarks runState /\ TheIR st' = TheIR runState.
Proof.
  assert (H1 : forall (ir : bool) (Lp Sub : Loop),
             In Sub (nest_Loop_subLoops ir Lp) ->
             nestDepth Sub < nestDepth Lp).
  { intros ir [p|p|] Sub; simpl; try contradiction.
    intros [<-|[]]. simpl. lia. }
  assert (H2 : forall Lp, In Lp (nest_LI_topLevelLoops (TheIR runState)) ->
             S (nestDepth Lp) < 3)
    by (intros Lp [<-|[]]; simpl; lia).
  assert (H3 : 0 < 3) by lia.
  assert (H4 : length (nest_LI_topLevelLoops (TheIR runState)) <= 1)
    by (simpl; lia).
  assert (H5 : forall (ir : bool) (Lp : Loop),
             length (nest_Loop_subLoops ir Lp) <= 1)
    by (intros ir [p|p|]; simpl; lia).
  split; [exact H1|]. split; [exact H2|]. split; [exact H3|].
  split; [exact H4|]. split; [exact H5|].
  exact (@fuseLoops_no_siblings bool
      run_DT_dominates run_PDT_dominates run_getBackedgeTakenCount
      run_hasLoopInvariantBackedgeTakenCount run_Loop_isInvalid
      run_isLoopSimplifyForm run_Loop_getHeader run_Loop_contains
      run_Loop_containsBlock run_Loop_blocks run_BasicBlock_size
      run_BasicBlock_instructions run_Instruction_getParent
      run_Instruction_operands run_isIdenticalTo
      run_getLoadStorePointerOperand run_getSCEVAtScope run_isKnownPositive
      run_isKnownPredicate run_DI_depends run_FusionDependenceAnalysis
      run_getTruncateExpr run_getAddExpr run_getMulExpr run_getAddRecExpr
      run_getLoopPreheader run_getExitingBlock run_getExitBlock
      run_getLoopLatch run_isLoopExiting run_getLoopGuardBranch
      run_hasAddressTaken run_mayThrow run_isVolatileStore
      run_isVolatileLoad run_mayWriteToMemory run_mayReadFromMemory
      run_performFusion nest_LI_topLevelLoops nest_Loop_subLoops
      nestDepth 3 runState H1 H2 H3 H4 H5).
Defined.

Lemma fuseLoops_changed_witness :
  runFuseLoops 2 runState = Some (Ret (true, runFinal)) /\
  exists n,
    Stats runFinal FuseCounter = Stats runState FuseCounter + n /\
    true = negb (n =? 0) /\
    (true = false -> TheIR runFinal = TheIR runState).
Proof.
  assert (H : runFuseLoops 2 runState = Some (Ret (true, runFinal)))
    by (apply resultState_eq; vm_compute; reflexivity).
  split; [exact H|].
  exact (@fuseLoops_changed bool
      run_DT_dominates run_PDT_dominates run_getBackedgeTakenCount
      run_hasLoopInvariantBackedgeTakenCount run_Loop_isInvalid
      run_isLoopSimplifyForm run_Loop_getHeader run_Loop_contains
      run_Loop_containsBlock run_Loop_blocks run_BasicBlock_size
      run_BasicBlock_instructions run_Instruction_getParent
      run_Instruction_operands run_isIdenticalTo
      run_getLoadStorePointerOperand run_getSCEVAtScope run_isKnownPositive
      run_isKnownPredicate run_DI_depends run_FusionDependenceAnalysis
      run_getTruncateExpr run_getAddExpr run_getMulExpr run_getAddRecExpr
      run_getLoopPreheader run_getExitingBlock run_getExitBlock
      run_getLoopLatch run_isLoopExiting run_getLoopGuardBranch
      run_hasAddressTaken run_mayThrow run_isVolatileStore
      run_isVolatileLoad run_mayWriteToMemory run_mayReadFromMemory
      run_performFusion run_LI_topLevelLoops run_Loop_subLoops
      2 runState runFinal true H).
Defined.

(** The constructor on loop 1 of the run, as it is, without a single
    latch, without a preheader, and without a preheader when its store
    may throw. *)
Definition runNewFusionCandidate
    (getLoopPreheader getLoopLatch : bool -> Loop -> option BasicBlock)
    (mayThrow : bool -> Instruction -> bool)
  : Res (FusionCandidate * PassState bool) :=
  newFusionCandidate run_Loop_getHeader run_Loop_blocks
    run_BasicBlock_instructions getLoopPreheader run_getExitingBlock
    run_getExitBlock getLoopLatch run_isLoopExiting run_getLoopGuardBranch
    run_hasAddressTaken mayThrow run_isVolatileStore run_isVolatileLoad
    run_mayWriteToMemory run_mayReadFromMemory 1%positive runState.

Example newFusionCandidate_example :
  runNewFusionCandidate run_getLoopPreheader run_getLoopLatch run_mayThrow =
    Ret (firstLoop, runState) /\
  runNewFusionCandidate run_getLoopPreheader (fun _ _ => None) run_mayThrow =
    NullDereference /\
  (exists FC,
     runNewFusionCandidate (fun _ _ => None) run_getLoopLatch run_mayThrow =
       Ret (FC, runState) /\
     Preheader FC = None /\ Valid FC = true) /\
  runNewFusionCandidate (fun _ _ => None) run_getLoopLatch
    (fun _ _ => true) = NullDereference.
Proof.
  split; [reflexivity|]. split; [reflexivity|].
  split; [eexists; repeat split|reflexivity].
Qed.

End LoopFuse.

(** * Loop predication (LoopPredication.cpp) *)

Module LoopPredication.

(** Where an instruction is created: at the guard that uses it, or before
    the terminator of the preheader. *)
Inductive InsertPt : Type :=
| AtUse (Use : ValueId)
| AtPreheaderTerminator.

(** IR values, as far as the pass looks into them.  An instruction of the
    function has its address [Id], so two instructions with the same
    operands are two values; an instruction created by the pass has the
    place it was inserted at.  [SCEVExpansion S Ty At] is the value the
    expander returns for [S] where it is not the constant of [S],
    [NewICmp At P LHS RHS] is the instruction [new ICmpInst] and
    [NewAnd At LHS RHS] the instruction [BinaryOperator::CreateAnd] that
    the builder inserts when it does not fold (see [expandCodeFor],
    [CreateICmp] and [CreateAnd] below). *)
Inductive Value : Type :=
| ConstantInt (BitWidth : N) (V : Z)
| Argument (Id : ValueId)
| And (Id : ValueId) (LHS RHS : Value)
| ICmp (Id : ValueId) (Pred : Predicate) (LHS RHS : Value)
| WidenableCondition (Id : ValueId)
| SCEVExpansion (S : SCEV) (Ty : Type_) (At : InsertPt)
| NewICmp (At : InsertPt) (Pred : Predicate) (LHS RHS : Value)
| NewAnd (At : InsertPt) (LHS RHS : Value).

Definition InsertPt_eq_dec (a b : InsertPt) : {a = b} + {a <> b}.
Proof. decide equality. apply Pos.eq_dec. Defined.

Definition Value_eq_dec (a b : Value) : {a = b} + {a <> b}.
Proof.
  decide equality;
    try apply Type_eq_dec;
    try apply N.eq_dec; try apply Z.eq_dec; try apply Pos.eq_dec;
    try apply Predicate_eq_dec; try apply InsertPt_eq_dec;
    try apply SCEV_eq_dec.
Defined.

Definition getTrue : Value := ConstantInt 1%N 1%Z.
Definition getFalse : Value := ConstantInt 1%N 0%Z.

(** [ConstantInt::isMinusOne]: every bit of the constant is set. *)
Definition isMinusOne (BitWidth : N) (V : Z) : bool :=
  (wrap BitWidth V =? 2 ^ Z.of_N BitWidth - 1)%Z.

(** [IRBuilder::CreateAnd(LHS, RHS)] at the insertion point [At].  The
    function belongs to the IR library.  It makes no instruction when
    its right operand is a constant with every bit set, and returns the
    left operand; it lets its folder compute the result when both
    operands are constants; otherwise it inserts a new [and]:

    [[
    if (auto *RC = dyn_cast<Constant>(RHS)) {
      if (isa<ConstantInt>(RC) && cast<ConstantInt>(RC)->isMinusOne())
        return LHS;  // LHS & -1 -> LHS
      if (auto *LC = dyn_cast<Constant>(LHS))
        return Insert(Folder.CreateAnd(LC, RC), Name);
    }
    return Insert(BinaryOperator::CreateAnd(LHS, RHS), Name);
    ]]

    [Builder.getTrue()], every bit of its one bit set, is such a right
    operand. *)
Definition CreateAnd (At : InsertPt) (LHS RHS : Value) : Value :=
  match RHS with
  | ConstantInt RW RC =>
      if isMinusOne RW RC then LHS
      else
        match LHS with
        | ConstantInt LW LC =>
            ConstantInt LW (Z.land (wrap LW LC) (wrap RW RC))
        | _ => NewAnd At LHS RHS
        end
  | _ => NewAnd At LHS RHS
  end.

(** [IRBuilder::CreateICmp(P, LHS, RHS)] at the insertion point [At].
    The function belongs to the IR library.  It lets its folder compute
    the comparison of two constants, and inserts a new comparison
    otherwise:

    [[
    if (auto *LC = dyn_cast<Constant>(LHS))
      if (auto *RC = dyn_cast<Constant>(RHS))
        return Insert(Folder.CreateICmp(P, LC, RC), Name);
    return Insert(new ICmpInst(P, LHS, RHS), Name);
    ]]

    The comparison of two constant integers is the one-bit constant of
    its truth. *)
Definition CreateICmp (At : InsertPt) (P : Predicate) (LHS RHS : Value)
  : Value :=
  match LHS, RHS with
  | ConstantInt LW LC, ConstantInt RW RC =>
      ConstantInt 1 (Z.b2z (evalPredicate LW P (wrap LW LC) (wrap RW RC)))
  | _, _ => NewICmp At P LHS RHS
  end.

(** [SCEVExpander::expandCodeFor(SH, Ty, At)].  The expander belongs to
    the analysis library.  For a constant its visitor returns the
    constant integer of the expression, [S->getValue()], and no code is
    made; a cast is needed when [Ty] is not the type of that integer.
    For any other expression it makes code, or finds a value that
    computes the expression already. *)
Definition expandCodeFor (SH : SCEV) (Ty : Type_) (At : InsertPt) : Value :=
  match SH with
  | SCEVConstant BitWidth V =>
      if Type_eqb Ty (IntegerTy BitWidth) then ConstantInt BitWidth V
      else SCEVExpansion SH Ty At
  | _ => SCEVExpansion SH Ty At
  end.

(** [m_Intrinsic<Intrinsic::experimental_widenable_condition>()] *)
Definition isWidenableCondition (V : Value) : bool :=
  match V with
  | WidenableCondition _ => true
  | _ => false
  end.

(** Membership in a [SmallPtrSet<Value *>]. *)
Definition inPtrSet (V : Value) (Set_ : list Value) : bool :=
  if in_dec Value_eq_dec V Set_ then true else false.

Record LoopICmp : Type := {
  Pred : Predicate;
  IV : SCEV;
  Limit : SCEV
}.

(** [SCEV::getType] *)
Fixpoint getType (S : SCEV) : Type_ :=
  match S with
  | SCEVCouldNotCompute => IntegerTy 0
  | SCEVConstant BitWidth _ => IntegerTy BitWidth
  | SCEVUnknown Ty _ => Ty
  | SCEVTruncateExpr _ Ty => Ty
  | SCEVAddExpr A _ => getType A
  | SCEVMulExpr A _ => getType A
  | SCEVAddRecExpr Start _ _ _ => getType Start
  end.

(** [SCEV::isOne] and [SCEV::isAllOnesValue] *)
Definition isOne (S : SCEV) : bool :=
  match S with
  | SCEVConstant BitWidth V => (wrap BitWidth V =? 1)%Z
  | _ => false
  end.

Definition isAllOnesValue (S : SCEV) : bool :=
  match S with
  | SCEVConstant BitWidth V =>
      (wrap BitWidth V =? 2 ^ Z.of_N BitWidth - 1)%Z
  | _ => false
  end.

(** [APInt::getActiveBits] of a constant of [BitWidth] bits. *)
Definition getActiveBits (BitWidth : N) (V : Z) : Z :=
  (if wrap BitWidth V =? 0 then 0 else Z.log2 (wrap BitWidth V) + 1)%Z.

(** [SE->getOne(Ty)]: the constant 1 of the integer type of the size of
    [Ty], which is [Ty] when [Ty] is an integer type. *)
Definition getOne (Ty : Type_) : SCEV :=
  SCEVConstant (getTypeSizeInBits Ty) 1%Z.

Section Predication.

(** The loop the pass runs on, its parsed latch check, and the options. *)
Variable L : Loop.
Variable LatchCheck : LoopICmp.
Variable EnableIVTruncation : bool.
Variable EnableCountDownLoop : bool.

(** Scalar evolution. *)
Variable getSCEV : Value -> SCEV.
Variable SE_isLoopInvariant : SCEV -> bool.
Variable isLoopEntryGuardedByCond : Predicate -> SCEV -> SCEV -> bool.
Variable isKnownPredicate : Predicate -> SCEV -> SCEV -> bool.
(** [isMonotonicPredicate(IV, Pred, Increasing)] succeeded. *)
Variable isMonotonicPredicate : SCEV -> Predicate -> bool.
Variable isSafeToExpandAt : SCEV -> InsertPt -> bool.
Variable getTruncateExpr : SCEV -> Type_ -> SCEV.
Variable getAddExpr : SCEV -> SCEV -> SCEV.
Variable getMinusSCEV : SCEV -> SCEV -> SCEV.
Variable getPostIncExpr : SCEV -> SCEV.

(** The loop and alias analysis. *)
Variable Loop_isLoopInvariant : Value -> bool.
(** For the value of a [SCEVUnknown]: it is a load, the load is
    unordered, its operands are invariant in the loop, its pointer points
    to constant memory, it has [!invariant.load] metadata. *)
Variable isLoadInst : ValueId -> bool.
Variable isUnordered : ValueId -> bool.
Variable hasLoopInvariantOperands : ValueId -> bool.
Variable pointsToConstantMemory : ValueId -> bool.
Variable hasInvariantLoadMetadata : ValueId -> bool.

Definition parseLoopICmp (ICIPred : Predicate) (LHS RHS : Value)
  : option LoopICmp :=
  let LHSS := getSCEV LHS in
  if isa_SCEVCouldNotCompute LHSS then None
  else
    let RHSS := getSCEV RHS in
    if isa_SCEVCouldNotCompute RHSS then None
    else
      let '(P, LHSS', RHSS') :=
        if SE_isLoopInvariant LHSS
        then (getSwappedPredicate ICIPred, RHSS, LHSS)
        else (ICIPred, LHSS, RHSS) in
      match getLoop LHSS' with
      | Some ARLoop =>
          if Pos.eqb ARLoop L
          then Some {| Pred := P; IV := LHSS'; Limit := RHSS' |}
          else None
      | None => None
      end.

(** The two overloads of [findInsertPt]. *)
Definition findInsertPt (Use : ValueId) (Ops : list Value) : InsertPt :=
  if forallb Loop_isLoopInvariant Ops then AtPreheaderTerminator
  else AtUse Use.

Definition findInsertPtSCEV (Use : ValueId) (Ops : list SCEV) : InsertPt :=
  if forallb (fun Op => SE_isLoopInvariant Op &&
                        isSafeToExpandAt Op AtPreheaderTerminator) Ops
  then AtPreheaderTerminator
  else AtUse Use.

Definition expandCheck (Guard : ValueId) (P : Predicate) (LHS RHS : SCEV)
  : Value :=
  let Ty := getType LHS in
  if SE_isLoopInvariant LHS && SE_isLoopInvariant RHS &&
     isLoopEntryGuardedByCond P LHS RHS then getTrue
  else if SE_isLoopInvariant LHS && SE_isLoopInvariant RHS &&
          isLoopEntryGuardedByCond (getInversePredicate P) LHS RHS
  then getFalse
  else
    let LHSV := expandCodeFor LHS Ty (findInsertPtSCEV Guard [LHS]) in
    let RHSV := expandCodeFor RHS Ty (findInsertPtSCEV Guard [RHS]) in
    CreateICmp (findInsertPt Guard [LHSV; RHSV]) P LHSV RHSV.

Definition isSafeToTruncateWideIVType (LatchCheck' : LoopICmp)
    (RangeCheckType : Type_) : bool :=
  if negb EnableIVTruncation then false
  else
    match Limit LatchCheck', getStart (IV LatchCheck') with
    | SCEVConstant LimitTy LimitV, SCEVConstant StartTy StartV =>
        if negb (isMonotonicPredicate (IV LatchCheck') (Pred LatchCheck'))
        then false
        else
          let RangeCheckTypeBitSize :=
            Z.of_N (getTypeSizeInBits RangeCheckType) in
          (getActiveBits StartTy StartV <? RangeCheckTypeBitSize)%Z &&
          (getActiveBits LimitTy LimitV <? RangeCheckTypeBitSize)%Z
    | _, _ => false
    end.

(** [RangeCheckType == LatchType] compares two [Type *]: a range check
    of a type other than the latch type and of the same size goes on to
    the truncation. *)
Definition generateLoopLatchCheck (LatchCheck' : LoopICmp)
    (RangeCheckType : Type_) : option LoopICmp :=
  let LatchType := getType (IV LatchCheck') in
  if Type_eqb RangeCheckType LatchType then Some LatchCheck'
  else if N.ltb (getTypeSizeInBits LatchType)
                (getTypeSizeInBits RangeCheckType) then None
  else if negb (isSafeToTruncateWideIVType LatchCheck' RangeCheckType)
  then None
  else
    let NewIV := getTruncateExpr (IV LatchCheck') RangeCheckType in
    match getLoop NewIV with
    | None => None
    | Some _ =>
        Some {| Pred := Pred LatchCheck';
                IV := NewIV;
                Limit := getTruncateExpr (Limit LatchCheck') RangeCheckType |}
    end.

Definition isSupportedStep (Step : SCEV) : bool :=
  isOne Step || (isAllOnesValue Step && EnableCountDownLoop).

Definition isLoopInvariantValue (S : SCEV) : bool :=
  if SE_isLoopInvariant S then true
  else
    match S with
    | SCEVUnknown _ U =>
        isLoadInst U && isUnordered U && hasLoopInvariantOperands U &&
        (pointsToConstantMemory U || hasInvariantLoadMetadata U)
    | _ => false
    end.

Definition widenICmpRangeCheckIncrementingLoop
    (LatchCheck' RangeCheck : LoopICmp) (Guard : ValueId)
  : Res (option Value) :=
  let Ty := getType (IV RangeCheck) in
  let GuardStart := getStart (IV RangeCheck) in
  let GuardLimit := Limit RangeCheck in
  let LatchStart := getStart (IV LatchCheck') in
  let LatchLimit := Limit LatchCheck' in
  if negb (isLoopInvariantValue GuardStart) ||
     negb (isLoopInvariantValue GuardLimit) ||
     negb (isLoopInvariantValue LatchStart) ||
     negb (isLoopInvariantValue LatchLimit) then Ret None
  else if negb (isSafeToExpandAt LatchStart (AtUse Guard)) ||
          negb (isSafeToExpandAt LatchLimit (AtUse Guard)) then Ret None
  else
    let RHS := getAddExpr (getMinusSCEV GuardLimit GuardStart)
                          (getMinusSCEV LatchStart (getOne Ty)) in
    (LimitCheckPred <- getFlippedStrictnessPredicate (Pred LatchCheck') ;;
     let LimitCheck := expandCheck Guard LimitCheckPred LatchLimit RHS in
     let FirstIterationCheck :=
       expandCheck Guard (Pred RangeCheck) GuardStart GuardLimit in
     Ret (Some (CreateAnd
                  (findInsertPt Guard [FirstIterationCheck; LimitCheck])
                  FirstIterationCheck LimitCheck)))%res.

Definition widenICmpRangeCheckDecrementingLoop
    (LatchCheck' RangeCheck : LoopICmp) (Guard : ValueId)
  : Res (option Value) :=
  let Ty := getType (IV RangeCheck) in
  let GuardStart := getStart (IV RangeCheck) in
  let GuardLimit := Limit RangeCheck in
  let LatchStart := getStart (IV LatchCheck') in
  let LatchLimit := Limit LatchCheck' in
  if negb (isLoopInvariantValue GuardStart) ||
     negb (isLoopInvariantValue GuardLimit) ||
     negb (isLoopInvariantValue LatchStart) ||
     negb (isLoopInvariantValue LatchLimit) then Ret None
  else if negb (isSafeToExpandAt LatchStart (AtUse Guard)) ||
          negb (isSafeToExpandAt LatchLimit (AtUse Guard)) then Ret None
  else
    let PostDecLatchCheckIV := getPostIncExpr (IV LatchCheck') in
    if negb (SCEV_eqb (IV RangeCheck) PostDecLatchCheckIV) then Ret None
    else
      (LimitCheckPred <- getFlippedStrictnessPredicate (Pred LatchCheck') ;;
       let FirstIterationCheck :=
         expandCheck Guard ICMP_ULT GuardStart GuardLimit in
       let LimitCheck :=
         expandCheck Guard LimitCheckPred LatchLimit (getOne Ty) in
       Ret (Some (CreateAnd
                    (findInsertPt Guard [FirstIterationCheck; LimitCheck])
                    FirstIterationCheck LimitCheck)))%res.

Definition normalizePredicate (RC : LoopICmp) : LoopICmp :=
  if isEquality (Pred RC) && isOne (getStepRecurrence (IV RC)) &&
     isKnownPredicate ICMP_ULE (getStart (IV RC)) (Limit RC)
  then {| Pred := if Predicate_eqb (Pred RC) ICMP_NE
                  then ICMP_ULT else ICMP_UGE;
          IV := IV RC; Limit := Limit RC |}
  else RC.

Definition widenICmpRangeCheck (ICIPred : Predicate) (LHS RHS : Value)
    (Guard : ValueId) : Res (option Value) :=
  match parseLoopICmp ICIPred LHS RHS with
  | None => Ret None
  | Some RangeCheck =>
      if negb (Predicate_eqb (Pred RangeCheck) ICMP_ULT) then Ret None
      else
        let RangeCheckIV := IV RangeCheck in
        if negb (isAffine RangeCheckIV) then Ret None
        else
          let Step := getStepRecurrence RangeCheckIV in
          if negb (isSupportedStep Step) then Ret None
          else
            let Ty := getType RangeCheckIV in
            match generateLoopLatchCheck LatchCheck Ty with
            | None => Ret None
            | Some CurrLatchCheck =>
                if negb (SCEV_eqb Step
                           (getStepRecurrence (IV CurrLatchCheck)))
                then Ret None
                else if isOne Step then
                  widenICmpRangeCheckIncrementingLoop CurrLatchCheck
                    RangeCheck Guard
                else
                  widenICmpRangeCheckDecrementingLoop CurrLatchCheck
                    RangeCheck Guard
            end
  end.

(** The loop of [collectChecks].  The head of [Worklist] is its back;
    [None] is "out of fuel". *)
Fixpoint collectChecks_loop (fuel : nat) (Guard : ValueId)
    (Worklist Visited : list Value) (WideableCond : option Value)
    (Checks : list Value) (NumWidened : nat)
  : option (Res (list Value * option Value * nat)) :=
  match fuel with
  | O => None
  | S fuel' =>
      match Worklist with
      | [] => Some (Ret (Checks, WideableCond, NumWidened))
      | Condition :: Worklist' =>
          if inPtrSet Condition Visited then
            collectChecks_loop fuel' Guard Worklist' Visited WideableCond
              Checks NumWidened
          else
            let Visited' := Condition :: Visited in
            match Condition with
            | And _ LHS RHS =>
                collectChecks_loop fuel' Guard (RHS :: LHS :: Worklist')
                  Visited' WideableCond Checks NumWidened
            | WidenableCondition _ =>
                collectChecks_loop fuel' Guard Worklist' Visited'
                  (Some Condition) Checks NumWidened
            | ICmp _ ICIPred LHS RHS =>
                match widenICmpRangeCheck ICIPred LHS RHS Guard with
                | Unreachable => Some Unreachable
                | NullDereference => Some NullDereference
                | Ret (Some NewRangeCheck) =>
                    collectChecks_loop fuel' Guard Worklist' Visited'
                      WideableCond (Checks ++ [NewRangeCheck])
                      (S NumWidened)
                | Ret None =>
                    collectChecks_loop fuel' Guard Worklist' Visited'
                      WideableCond (Checks ++ [Condition]) NumWidened
                end
            | _ =>
                collectChecks_loop fuel' Guard Worklist' Visited'
                  WideableCond (Checks ++ [Condition]) NumWidened
            end
      end
  end.

(** Number of nodes of a condition: the fuel its traversal needs. *)
Fixpoint Value_size (V : Value) : nat :=
  match V with
  | And _ LHS RHS => S (Value_size LHS + Value_size RHS)
  | ICmp _ _ LHS RHS => S (Value_size LHS + Value_size RHS)
  | NewICmp _ _ LHS RHS => S (Value_size LHS + Value_size RHS)
  | NewAnd _ LHS RHS => S (Value_size LHS + Value_size RHS)
  | _ => 1
  end.

(** [collectChecks]: the number of widened checks and the vector
    [Checks] after the call. *)
Definition collectChecks (Checks : list Value) (Condition : Value)
    (Guard : ValueId) : option (Res (nat * list Value)) :=
  match collectChecks_loop (S (Value_size Condition)) Guard [Condition] []
          None Checks 0 with
  | None => None
  | Some Unreachable => Some Unreachable
  | Some NullDereference => Some NullDereference
  | Some (Ret (Checks', WideableCond, NumWidened)) =>
      Some (Ret (NumWidened,
                 match WideableCond with
                 | Some WC => Checks' ++ [WC]
                 | None => Checks'
                 end))
  end.


(** The latch of the loop, the condition and the first successor of a
    block's terminator when it is a conditional branch, and the header of
    the loop. *)
Variable getLoopLatch : option BasicBlock.
Variable getConditionalBranch : BasicBlock -> option (Value * BasicBlock).
Variable getHeader : BasicBlock.

Definition IsUnsupportedPredicate (Step : SCEV) (P : Predicate) : bool :=
  if isOne Step then
    negb (Predicate_eqb P ICMP_ULT) && negb (Predicate_eqb P ICMP_SLT) &&
    negb (Predicate_eqb P ICMP_ULE) && negb (Predicate_eqb P ICMP_SLE)
  else
    negb (Predicate_eqb P ICMP_UGT) && negb (Predicate_eqb P ICMP_SGT) &&
    negb (Predicate_eqb P ICMP_UGE) && negb (Predicate_eqb P ICMP_SGE).

Definition parseLoopLatchICmp : option LoopICmp :=
  match getLoopLatch with
  | None => None
  | Some LoopLatch =>
      match getConditionalBranch LoopLatch with
      | Some (ICmp _ ICIPred LHS RHS, TrueDest) =>
          match parseLoopICmp ICIPred LHS RHS with
          | None => None
          | Some Parsed =>
              let Result :=
                if negb (Pos.eqb TrueDest getHeader)
                then {| Pred := getInversePredicate (Pred Parsed);
                        IV := IV Parsed; Limit := Limit Parsed |}
                else Parsed in
              if negb (isAffine (IV Result)) then None
              else
                let Step := getStepRecurrence (IV Result) in
                if negb (isSupportedStep Step) then None
                else
                  let Result' := normalizePredicate Result in
                  if IsUnsupportedPredicate Step (Pred Result') then None
                  else Some Result'
          end
      | _ => None
      end
  end.

(** *** Values of expressions and of emitted checks

    A state at the entry of the loop gives every value of the function
    its type and its integer.  A loop-invariant expression denotes an
    integer of its type; a recurrence has no value before the loop. *)

Record Env : Type := {
  typeOf : ValueId -> Type_;
  valueOf : ValueId -> Z
}.

Fixpoint evalSCEV (env : Env) (S : SCEV) : option Z :=
  match S with
  | SCEVCouldNotCompute => None
  | SCEVConstant Ty V => Some (wrap Ty V)
  | SCEVUnknown Ty U => Some (wrap Ty (valueOf env U))
  | SCEVTruncateExpr Op Ty =>
      match evalSCEV env Op with
      | Some v => Some (wrap Ty v)
      | None => None
      end
  | SCEVAddExpr A B =>
      match evalSCEV env A, evalSCEV env B with
      | Some a, Some b => Some (wrap (getType A) (a + b))
      | _, _ => None
      end
  | SCEVMulExpr A B =>
      match evalSCEV env A, evalSCEV env B with
      | Some a, Some b => Some (wrap (getType A) (a * b))
      | _, _ => None
      end
  | SCEVAddRecExpr _ _ _ _ => None
  end.

Fixpoint Value_getType (env : Env) (V : Value) : Type_ :=
  match V with
  | ConstantInt BitWidth _ => IntegerTy BitWidth
  | Argument Id => typeOf env Id
  | And _ LHS _ => Value_getType env LHS
  | NewAnd _ LHS _ => Value_getType env LHS
  | SCEVExpansion _ Ty _ => Ty
  | ICmp _ _ _ _ => IntegerTy 1
  | NewICmp _ _ _ _ => IntegerTy 1
  | WidenableCondition _ => IntegerTy 1
  end.

(** The integer of a value; [true] is 1. *)
Fixpoint evalValue (env : Env) (V : Value) : option Z :=
  match V with
  | ConstantInt Ty v => Some (wrap Ty v)
  | Argument Id => Some (wrap (typeOf env Id) (valueOf env Id))
  | WidenableCondition Id => Some (wrap 1 (valueOf env Id))
  | SCEVExpansion Expr _ _ => evalSCEV env Expr
  | And _ LHS RHS | NewAnd _ LHS RHS =>
      match evalValue env LHS, evalValue env RHS with
      | Some a, Some b => Some (Z.land a b)
      | _, _ => None
      end
  | ICmp _ P LHS RHS | NewICmp _ P LHS RHS =>
      match evalValue env LHS, evalValue env RHS with
      | Some a, Some b =>
          Some (Z.b2z (evalPredicate (Value_getType env LHS) P a b))
      | _, _ => None
      end
  end.

(** What the theorems on emitted values ask of the engine at [env]: its
    sums and differences denote the sum and the difference, the
    difference of two expressions of one size has the type of the
    first, and a condition it reports as guarding the entry of the loop
    holds there. *)
Definition SoundEngine (env : Env) : Prop :=
  (forall A B a b, evalSCEV env A = Some a -> evalSCEV env B = Some b ->
     evalSCEV env (getAddExpr A B) = Some (wrap (getType A) (a + b))) /\
  (forall A B a b,
     getTypeSizeInBits (getType A) = getTypeSizeInBits (getType B) ->
     evalSCEV env A = Some a -> evalSCEV env B = Some b ->
     evalSCEV env (getMinusSCEV A B) = Some (wrap (getType A) (a - b))) /\
  (forall A B, getType (getMinusSCEV A B) = getType A) /\
  (forall P A B a b, isLoopEntryGuardedByCond P A B = true ->
     evalSCEV env A = Some a -> evalSCEV env B = Some b ->
     evalPredicate (getType A) P a b = true).

(** The operands of a latch check and a range check are invariant and
    may be expanded: the two tests the widening makes before it emits. *)
Definition widenable (LatchCheck' RangeCheck : LoopICmp) (Guard : ValueId)
  : bool :=
  isLoopInvariantValue (getStart (IV RangeCheck)) &&
  isLoopInvariantValue (Limit RangeCheck) &&
  isLoopInvariantValue (getStart (IV LatchCheck')) &&
  isLoopInvariantValue (Limit LatchCheck') &&
  isSafeToExpandAt (getStart (IV LatchCheck')) (AtUse Guard) &&
  isSafeToExpandAt (Limit LatchCheck') (AtUse Guard).


(** The sub-conditions of a conjunction. *)
Fixpoint conjuncts (V : Value) : list Value :=
  match V with
  | And _ LHS RHS => conjuncts LHS ++ conjuncts RHS
  | _ => [V]
  end.


(** *** The traversal of [collectChecks] as a recursion

    The work list is a stack, so the loop handles a condition and all
    that it pushes before it comes back to what was below it:
    [visitCondition] is what the loop does from the pop of [Condition] to
    that moment. *)

Record Traversal : Type := {
  TVisited : list Value;
  TWideableCond : option Value;
  TChecks : list Value;
  TNumWidened : nat
}.

Definition widenedOrNone (Guard : ValueId) (ICIPred : Predicate)
    (LHS RHS : Value) : option Value :=
  match widenICmpRangeCheck ICIPred LHS RHS Guard with
  | Ret r => r
  | _ => None
  end.

Fixpoint visitCondition (Guard : ValueId) (Condition : Value)
    (st : Traversal) : Traversal :=
  if inPtrSet Condition (TVisited st) then st
  else
    let Visited' := Condition :: TVisited st in
    match Condition with
    | And _ LHS RHS =>
        visitCondition Guard LHS
          (visitCondition Guard RHS
             {| TVisited := Visited';
                TWideableCond := TWideableCond st;
                TChecks := TChecks st;
                TNumWidened := TNumWidened st |})
    | WidenableCondition _ =>
        {| TVisited := Visited';
           TWideableCond := Some Condition;
           TChecks := TChecks st;
           TNumWidened := TNumWidened st |}
    | ICmp _ ICIPred LHS RHS =>
        match widenedOrNone Guard ICIPred LHS RHS with
        | Some NewRangeCheck =>
            {| TVisited := Visited';
               TWideableCond := TWideableCond st;
               TChecks := TChecks st ++ [NewRangeCheck];
               TNumWidened := S (TNumWidened st) |}
        | None =>
            {| TVisited := Visited';
               TWideableCond := TWideableCond st;
               TChecks := TChecks st ++ [Condition];
               TNumWidened := TNumWidened st |}
        end
    | _ =>
        {| TVisited := Visited';
           TWideableCond := TWideableCond st;
           TChecks := TChecks st ++ [Condition];
           TNumWidened := TNumWidened st |}
    end.

(** Every widenable-condition call among the sub-conditions of a visited
    value outside [Pending] has been recorded. *)
Definition recordedExcept (Pending : list Value) (st : Traversal) : Prop :=
  forall V W, In V (TVisited st) -> ~ In V Pending ->
    In W (conjuncts V) -> isWidenableCondition W = true ->
    TWideableCond st <> None.

(** ** Properties *)

(** The operand [parseLoopICmp] takes as the induction variable: the
    right one when the left one is invariant in the loop, the left one
    otherwise. *)
Definition leftAfterSwap (LHS RHS : Value) : SCEV :=
  if SE_isLoopInvariant (getSCEV LHS) then getSCEV RHS else getSCEV LHS.

Definition rightAfterSwap (LHS RHS : Value) : SCEV :=
  if SE_isLoopInvariant (getSCEV LHS) then getSCEV LHS else getSCEV RHS.

(** C6, as the code has it: the parser gives no result exactly when the
    expression of an operand cannot be computed or the left side after
    the swap is not an add recurrence of this loop, affine or not;
    otherwise it gives the comparison of the left side with the right
    side, under the swapped predicate when the sides were exchanged. *)
Theorem parseLoopICmp_None_iff (ICIPred : Predicate) (LHS RHS : Value) :
  (parseLoopICmp ICIPred LHS RHS = None <->
     getSCEV LHS = SCEVCouldNotCompute \/
     getSCEV RHS = SCEVCouldNotCompute \/
     getLoop (leftAfterSwap LHS RHS) <> Some L) /\
  (parseLoopICmp ICIPred LHS RHS <> None ->
     parseLoopICmp ICIPred LHS RHS =
     Some {| Pred := if SE_isLoopInvariant (getSCEV LHS)
                     then getSwappedPredicate ICIPred else ICIPred;
             IV := leftAfterSwap LHS RHS;
             Limit := rightAfterSwap LHS RHS |}).
Proof.
  unfold parseLoopICmp, leftAfterSwap, rightAfterSwap.
  destruct (isa_SCEVCouldNotCompute (getSCEV LHS)) eqn:EL.
  { apply isa_SCEVCouldNotCompute_iff in EL. split; [|congruence].
    split; auto. }
  destruct (isa_SCEVCouldNotCompute (getSCEV RHS)) eqn:ER.
  { apply isa_SCEVCouldNotCompute_iff in ER. split; [|congruence].
    split; auto. }
  apply isa_SCEVCouldNotCompute_false in EL, ER.
  destruct (SE_isLoopInvariant (getSCEV LHS));
    match goal with
    | |- context [getLoop ?X] =>
        destruct (getLoop X) as [ARLoop|] eqn:EA;
          [destruct (Pos.eqb ARLoop L) eqn:EP;
           [apply Pos.eqb_eq in EP; subst ARLoop
           |apply Pos.eqb_neq in EP]|]
    end;
    (split; [split; [intro H; try discriminate; right; right; congruence
                    |intros [H|[H|H]]; congruence]
            |congruence]).
Qed.

Lemma evalPredicate_inverse (w : N) (P : Predicate) (a b : Z) :
  evalPredicate w (getInversePredicate P) a b = negb (evalPredicate w P a b).
Proof.
  destruct P; simpl;
    rewrite ?negb_involutive, ?Z.leb_antisym, ?Z.ltb_antisym,
      ?negb_involutive; reflexivity.
Qed.

Lemma land_b2z (a b : bool) : Z.land (Z.b2z a) (Z.b2z b) = Z.b2z (a && b).
Proof. destruct a, b; reflexivity. Qed.

Lemma wrap_add (w : N) (x y : Z) :
  wrap w (wrap w x + wrap w y) = wrap w (x + y).
Proof. unfold wrap. now rewrite <- Zplus_mod. Qed.

Lemma wrap_sub_r (w : N) (x y : Z) :
  wrap w (x - wrap w y) = wrap w (x - y).
Proof. unfold wrap. now rewrite Zminus_mod_idemp_r. Qed.

Lemma evalSCEV_wrapped (env : Env) (Expr : SCEV) (v : Z) :
  evalSCEV env Expr = Some v -> wrap (getType Expr) v = v.
Proof.
  assert (Hw : forall w x, wrap w (wrap w x) = wrap w x)
    by (intros; unfold wrap; apply Z.mod_mod; apply Z.pow_nonzero; lia).
  destruct Expr; simpl; try discriminate.
  - intros [= <-]. apply Hw.
  - intros [= <-]. apply Hw.
  - destruct (evalSCEV env Expr); [|discriminate]. intros [= <-]. apply Hw.
  - destruct (evalSCEV env Expr1), (evalSCEV env Expr2); try discriminate.
    intros [= <-]. apply Hw.
  - destruct (evalSCEV env Expr1), (evalSCEV env Expr2); try discriminate.
    intros [= <-]. apply Hw.
Qed.

Lemma wrap_b2z (b : bool) : wrap 1 (Z.b2z b) = Z.b2z b.
Proof. destruct b; reflexivity. Qed.

(** The value the expander returns computes the expression, in the type
    asked for. *)
Lemma expandCodeFor_value (env : Env) (SH : SCEV) (Ty : Type_)
    (At : InsertPt) :
  evalValue env (expandCodeFor SH Ty At) = evalSCEV env SH.
Proof.
  destruct SH; simpl; try reflexivity.
  destruct (Type_eqb Ty (IntegerTy BitWidth)); reflexivity.
Qed.

Lemma expandCodeFor_getType (env : Env) (SH : SCEV) (Ty : Type_)
    (At : InsertPt) :
  Value_getType env (expandCodeFor SH Ty At) = Ty.
Proof.
  destruct SH; simpl; try reflexivity.
  unfold Type_eqb.
  destruct (Type_eq_dec Ty (IntegerTy BitWidth)) as [->|]; reflexivity.
Qed.

(** What the builder returns for a comparison: a one-bit constant when
    it folds, a new comparison otherwise; its value is the truth of the
    predicate on the values of the operands in both cases. *)
Lemma CreateICmp_cases (At : InsertPt) (P : Predicate) (LHS RHS : Value) :
  (exists b, CreateICmp At P LHS RHS = ConstantInt 1 (Z.b2z b)) \/
  CreateICmp At P LHS RHS = NewICmp At P LHS RHS.
Proof.
  destruct LHS; try (right; reflexivity).
  destruct RHS; try (right; reflexivity).
  left. eexists. reflexivity.
Qed.

Lemma CreateICmp_value (env : Env) (At : InsertPt) (P : Predicate)
    (LHS RHS : Value) (a b : Z) :
  evalValue env LHS = Some a -> evalValue env RHS = Some b ->
  evalValue env (CreateICmp At P LHS RHS) =
  Some (Z.b2z (evalPredicate (Value_getType env LHS) P a b)).
Proof.
  intros HL HR.
  assert (HN : evalValue env (NewICmp At P LHS RHS) =
               Some (Z.b2z (evalPredicate (Value_getType env LHS) P a b)))
    by (cbn [evalValue]; now rewrite HL, HR).
  destruct LHS; try exact HN.
  destruct RHS; try exact HN.
  cbn [evalValue] in HL, HR. injection HL as <-. injection HR as <-.
  cbn [CreateICmp evalValue Value_getType getTypeSizeInBits].
  now rewrite wrap_b2z.
Qed.

(** The value of the check [expandCheck] emits is the truth of the
    predicate on the values of its two sides. *)
Lemma expandCheck_value (env : Env) (Guard : ValueId) (P : Predicate)
    (LHS RHS : SCEV) (l r : Z) :
  SoundEngine env ->
  evalSCEV env LHS = Some l -> evalSCEV env RHS = Some r ->
  evalValue env (expandCheck Guard P LHS RHS) =
  Some (Z.b2z (evalPredicate (getType LHS) P l r)).
Proof.
  intros (_ & _ & _ & Hsound) HL HR.
  assert (HC : forall At At1 At2,
             evalValue env
               (CreateICmp At P (expandCodeFor LHS (getType LHS) At1)
                                (expandCodeFor RHS (getType LHS) At2)) =
             Some (Z.b2z (evalPredicate (getType LHS) P l r))).
  { intros At At1 At2.
    rewrite (@CreateICmp_value env At P _ _ l r);
      [now rewrite expandCodeFor_getType
      |now rewrite expandCodeFor_value
      |now rewrite expandCodeFor_value]. }
  unfold expandCheck.
  destruct (SE_isLoopInvariant LHS && SE_isLoopInvariant RHS); simpl.
  - destruct (isLoopEntryGuardedByCond P LHS RHS) eqn:E1.
    + rewrite (Hsound _ _ _ _ _ E1 HL HR). reflexivity.
    + destruct (isLoopEntryGuardedByCond (getInversePredicate P) LHS RHS)
        eqn:E2.
      * pose proof (Hsound _ _ _ _ _ E2 HL HR) as H.
        rewrite evalPredicate_inverse in H.
        apply negb_true_iff in H. rewrite H. reflexivity.
      * apply HC.
  - apply HC.
Qed.

Definition isConstantInt (V : Value) : bool :=
  match V with
  | ConstantInt _ _ => true
  | _ => false
  end.

(** What [expandCheck] returns: the one-bit constant [true] or [false]
    when the engine knows the comparison or its negation at the entry of
    the loop, or when the builder folds the comparison of two constants;
    a new comparison of the expansions of its two sides otherwise. *)
Lemma expandCheck_cases (Guard : ValueId) (P : Predicate) (LHS RHS : SCEV) :
  (exists b, expandCheck Guard P LHS RHS = ConstantInt 1 (Z.b2z b)) \/
  exists At LHSV RHSV, expandCheck Guard P LHS RHS = NewICmp At P LHSV RHSV.
Proof.
  assert (HC : forall At LHSV RHSV,
             (exists b, CreateICmp At P LHSV RHSV = ConstantInt 1 (Z.b2z b)) \/
             exists At' LHSV' RHSV',
               CreateICmp At P LHSV RHSV = NewICmp At' P LHSV' RHSV').
  { intros At LHSV RHSV.
    destruct (CreateICmp_cases At P LHSV RHSV) as [H|H];
      [left; exact H|right; eauto]. }
  unfold expandCheck.
  destruct (SE_isLoopInvariant LHS && SE_isLoopInvariant RHS); simpl.
  - destruct (isLoopEntryGuardedByCond P LHS RHS);
      [left; exists true; reflexivity|].
    destruct (isLoopEntryGuardedByCond (getInversePredicate P) LHS RHS);
      [left; exists false; reflexivity|apply HC].
  - apply HC.
Qed.

Lemma isWidenableCondition_expandCheck (Guard : ValueId) (P : Predicate)
    (LHS RHS : SCEV) :
  isWidenableCondition (expandCheck Guard P LHS RHS) = false.
Proof.
  destruct (expandCheck_cases Guard P LHS RHS)
    as [[b ->]|(At & A & B & ->)]; reflexivity.
Qed.

(** What the builder returns for the [and] of two checks: the first
    check when the second is the constant [true], a new [and] when the
    second is not a constant. *)
Lemma CreateAnd_cases (At : InsertPt) (LHS RHS : Value) :
  (RHS = getTrue -> CreateAnd At LHS RHS = LHS) /\
  (isConstantInt RHS = false -> CreateAnd At LHS RHS = NewAnd At LHS RHS).
Proof.
  split.
  - intros ->. reflexivity.
  - destruct RHS; simpl; intros H; try discriminate; reflexivity.
Qed.

(** The value of the [and] of two checks is the conjunction of the two
    comparisons, whatever the builder folds. *)
Lemma CreateAnd_checks_value (env : Env) (At : InsertPt) (Guard : ValueId)
    (P1 P2 : Predicate) (L1 R1 L2 R2 : SCEV) (l1 r1 l2 r2 : Z) :
  SoundEngine env ->
  evalSCEV env L1 = Some l1 -> evalSCEV env R1 = Some r1 ->
  evalSCEV env L2 = Some l2 -> evalSCEV env R2 = Some r2 ->
  evalValue env (CreateAnd At (expandCheck Guard P1 L1 R1)
                              (expandCheck Guard P2 L2 R2)) =
  Some (Z.b2z (evalPredicate (getType L1) P1 l1 r1 &&
               evalPredicate (getType L2) P2 l2 r2)).
Proof.
  intros Hsound E1 F1 E2 F2.
  pose proof (@expandCheck_value env Guard P1 _ _ _ _ Hsound E1 F1) as V1.
  pose proof (@expandCheck_value env Guard P2 _ _ _ _ Hsound E2 F2) as V2.
  destruct (expandCheck_cases Guard P2 L2 R2) as [[b2 H2]|(At2 & A2 & B2 & H2)];
    rewrite H2 in V2 |- *.
  - cbn [evalValue] in V2. rewrite wrap_b2z in V2.
    assert (Hp2 : evalPredicate (getType L2) P2 l2 r2 = b2)
      by (destruct b2, (evalPredicate (getType L2) P2 l2 r2);
          try reflexivity; discriminate).
    rewrite Hp2. destruct b2.
    + cbn [CreateAnd Z.b2z]. change (isMinusOne 1 1) with true. cbv iota.
      rewrite V1. now rewrite andb_true_r.
    + rewrite andb_false_r.
      destruct (expandCheck_cases Guard P1 L1 R1)
        as [[b1 H1]|(At1 & A1 & B1 & H1)]; rewrite H1 in V1 |- *.
      * destruct b1; reflexivity.
      * cbn [CreateAnd Z.b2z]. change (isMinusOne 1 0) with false. cbv iota.
        cbn [evalValue] in V1 |- *.
        destruct (evalValue env A1), (evalValue env B1); try discriminate.
        simpl. now rewrite Z.land_0_r.
  - cbn [CreateAnd]. cbn [evalValue] in V2 |- *. rewrite V1.
    destruct (evalValue env A2), (evalValue env B2); try discriminate.
    injection V2 as ->. now rewrite land_b2z.
Qed.

Lemma isWidenableCondition_CreateAnd (At : InsertPt) (Guard : ValueId)
    (P1 P2 : Predicate) (L1 R1 L2 R2 : SCEV) :
  isWidenableCondition
    (CreateAnd At (expandCheck Guard P1 L1 R1) (expandCheck Guard P2 L2 R2))
  = false.
Proof.
  destruct (expandCheck_cases Guard P2 L2 R2) as [[b2 H2]|(At2 & A2 & B2 & H2)];
    rewrite H2.
  - destruct b2.
    + apply isWidenableCondition_expandCheck.
    + destruct (expandCheck_cases Guard P1 L1 R1)
        as [[b1 H1]|(At1 & A1 & B1 & H1)]; rewrite H1;
        [destruct b1|]; reflexivity.
  - reflexivity.
Qed.

(** The check emitted for an increasing loop, and its value. *)
Lemma widenIncrementing_value (env : Env)
    (LatchCheck' RangeCheck : LoopICmp) (Guard : ValueId)
    (gs gl ls ll : Z) :
  let Ty := getType (IV RangeCheck) in
  let GuardStart := getStart (IV RangeCheck) in
  let GuardLimit := Limit RangeCheck in
  let LatchStart := getStart (IV LatchCheck') in
  let LatchLimit := Limit LatchCheck' in
  let RHS := getAddExpr (getMinusSCEV GuardLimit GuardStart)
                        (getMinusSCEV LatchStart (getOne Ty)) in
  SoundEngine env ->
  getType GuardStart = Ty /\ getType GuardLimit = Ty /\
  getType LatchStart = Ty /\ getType LatchLimit = Ty ->
  evalSCEV env GuardStart = Some gs /\ evalSCEV env GuardLimit = Some gl /\
  evalSCEV env LatchStart = Some ls /\ evalSCEV env LatchLimit = Some ll ->
  widenable LatchCheck' RangeCheck Guard = true ->
  isEquality (Pred LatchCheck') = false ->
  exists LimitCheckPred At,
    match Pred LatchCheck' with
    | ICMP_ULT => LimitCheckPred = ICMP_ULE
    | ICMP_ULE => LimitCheckPred = ICMP_ULT
    | ICMP_SLT => LimitCheckPred = ICMP_SLE
    | ICMP_SLE => LimitCheckPred = ICMP_SLT
    | _ => getFlippedStrictnessPredicate (Pred LatchCheck') =
           Ret LimitCheckPred
    end /\
    let FirstIterationCheck :=
      expandCheck Guard (Pred RangeCheck) GuardStart GuardLimit in
    let LimitCheck := expandCheck Guard LimitCheckPred LatchLimit RHS in
    widenICmpRangeCheckIncrementingLoop LatchCheck' RangeCheck Guard =
      Ret (Some (CreateAnd At FirstIterationCheck LimitCheck)) /\
    (isConstantInt LimitCheck = false ->
     CreateAnd At FirstIterationCheck LimitCheck =
       NewAnd At FirstIterationCheck LimitCheck) /\
    (LimitCheck = getTrue ->
     CreateAnd At FirstIterationCheck LimitCheck = FirstIterationCheck) /\
    evalSCEV env RHS = Some (wrap Ty (gl - gs + (ls - 1))) /\
    evalValue env (CreateAnd At FirstIterationCheck LimitCheck) =
    Some (Z.b2z (evalPredicate Ty (Pred RangeCheck) gs gl &&
                 evalPredicate Ty LimitCheckPred ll
                   (wrap Ty (gl - gs + (ls - 1))))).
Proof.
  intros Ty GuardStart GuardLimit LatchStart LatchLimit RHS
    Hsound (TGS & TGL & TLS & TLL) (EGS & EGL & ELS & ELL) Hwiden Hneq.
  pose proof Hsound as (Hadd & Hminus & Hmty & _).
  assert (ERHS : evalSCEV env RHS = Some (wrap Ty (gl - gs + (ls - 1)))).
  { unfold RHS.
    assert (E1 : evalSCEV env (getMinusSCEV GuardLimit GuardStart) =
                 Some (wrap Ty (gl - gs))).
    { rewrite (Hminus _ _ gl gs); [now rewrite TGL|congruence| |]; assumption. }
    assert (E2 : evalSCEV env (getMinusSCEV LatchStart (getOne Ty)) =
                 Some (wrap Ty (ls - wrap Ty 1))).
    { rewrite (Hminus _ _ ls (wrap Ty 1)); [now rewrite TLS| | |];
        try assumption; try reflexivity. now rewrite TLS. }
    rewrite (Hadd _ _ _ _ E1 E2), Hmty, TGL, wrap_sub_r, wrap_add.
    reflexivity. }
  unfold widenable in Hwiden.
  repeat (apply andb_true_iff in Hwiden; destruct Hwiden as [Hwiden ?]).
  assert (Hres : exists P', getFlippedStrictnessPredicate (Pred LatchCheck')
                            = Ret P' /\
            match Pred LatchCheck' with
            | ICMP_ULT => P' = ICMP_ULE
            | ICMP_ULE => P' = ICMP_ULT
            | ICMP_SLT => P' = ICMP_SLE
            | ICMP_SLE => P' = ICMP_SLT
            | _ => getFlippedStrictnessPredicate (Pred LatchCheck') = Ret P'
            end).
  { destruct (Pred LatchCheck'); try discriminate; simpl; eauto. }
  destruct Hres as (P' & HP' & Htab).
  exists P'.
  eexists. split; [exact Htab|]. cbv zeta.
  split; [|split; [|split; [|split; [exact ERHS|]]]].
  - unfold widenICmpRangeCheckIncrementingLoop. cbv zeta.
    subst RHS GuardStart GuardLimit LatchStart LatchLimit Ty.
    repeat match goal with
           | H : _ = true |- _ => rewrite H; clear H
           end.
    simpl. rewrite HP'. simpl. reflexivity.
  - apply CreateAnd_cases.
  - apply CreateAnd_cases.
  - rewrite (@CreateAnd_checks_value env _ Guard (Pred RangeCheck) P'
               _ _ _ _ _ _ _ _ Hsound EGS EGL ELL ERHS).
    rewrite TGS, TLL. reflexivity.
Qed.



(** The range check [i u< N] of an induction variable starting at 0, and
    the latch check [j s< M] of one starting at [c], both of step 1 and
    of the integer type of [BitWidth] bits. *)
Definition guardFromZero (BitWidth : N) (N : SCEV) : LoopICmp :=
  {| Pred := ICMP_ULT;
     IV := SCEVAddRecExpr (SCEVConstant BitWidth 0) (SCEVConstant BitWidth 1)
             [] L;
     Limit := N |}.

Definition latchFrom (BitWidth : N) (c : Z) (M : SCEV) : LoopICmp :=
  {| Pred := ICMP_SLT;
     IV := SCEVAddRecExpr (SCEVConstant BitWidth c) (SCEVConstant BitWidth 1)
             [] L;
     Limit := M |}.

Lemma wrap_small (Ty : N) (x : Z) :
  (0 < Ty)%N -> (0 <= x <= 1)%Z -> wrap Ty x = x.
Proof.
  intros HTy Hx. unfold wrap. apply Z.mod_small.
  assert (2 ^ 1 <= 2 ^ Z.of_N Ty)%Z by (apply Z.pow_le_mono_r; lia).
  change (2 ^ 1)%Z with 2%Z in *. lia.
Qed.

(** C1, as the code has it: for the guard [i u< N], [i] from 0, and the
    latch [i++ ; i s< M], whose induction variable starts at 1, the check
    emitted has the value of [(0 u< N) && (M s<= N)].  It has the value
    of [(0 u< N) && (M s<= N - 1)] when the latch compares the induction
    variable before its increment, that is one starting at 0.  [Ty] is
    the width of the integer type of [i], [N] and [M]. *)
Theorem widenICmpRangeCheckIncrementingLoop_from_zero (env : Env)
    (Ty : N) (N M : SCEV) (Guard : ValueId) (n m : Z) :
  (0 < Ty)%N ->
  SoundEngine env ->
  getType N = IntegerTy Ty /\ getType M = IntegerTy Ty ->
  evalSCEV env N = Some n /\ evalSCEV env M = Some m ->
  (widenable (latchFrom Ty 1 M) (guardFromZero Ty N) Guard = true ->
   exists Check,
     widenICmpRangeCheckIncrementingLoop (latchFrom Ty 1 M)
       (guardFromZero Ty N) Guard = Ret (Some Check) /\
     evalValue env Check =
     Some (Z.b2z (evalPredicate Ty ICMP_ULT 0 n &&
                  evalPredicate Ty ICMP_SLE m n))) /\
  (widenable (latchFrom Ty 0 M) (guardFromZero Ty N) Guard = true ->
   exists Check,
     widenICmpRangeCheckIncrementingLoop (latchFrom Ty 0 M)
       (guardFromZero Ty N) Guard = Ret (Some Check) /\
     evalValue env Check =
     Some (Z.b2z (evalPredicate Ty ICMP_ULT 0 n &&
                  evalPredicate Ty ICMP_SLE m (wrap Ty (n - 1))))).
Proof.
  intros HTy Hsound (TN & TM) (EN & EM).
  assert (Hn : wrap Ty n = n)
    by (pose proof (evalSCEV_wrapped _ _ EN) as H; rewrite TN in H;
        exact H).
  assert (W0 : wrap Ty 0 = 0%Z) by (apply wrap_small; [assumption|lia]).
  assert (W1 : wrap Ty 1 = 1%Z) by (apply wrap_small; [assumption|lia]).
  split; intros Hwiden.
  - destruct (@widenIncrementing_value env (latchFrom Ty 1 M)
                (guardFromZero Ty N) Guard (wrap Ty 0) n (wrap Ty 1) m)
      as (P' & At & HP & Hres & _ & _ & _ & Hval); simpl; auto.
    simpl in HP. subst P'.
    eexists. split; [exact Hres|].
    simpl in Hval |- *. rewrite Hval.
    rewrite ?W0, ?W1.
    match goal with
    | |- context [wrap Ty ?x] => replace x with n by lia
    end.
    rewrite Hn. reflexivity.
  - destruct (@widenIncrementing_value env (latchFrom Ty 0 M)
                (guardFromZero Ty N) Guard (wrap Ty 0) n (wrap Ty 0) m)
      as (P' & At & HP & Hres & _ & _ & _ & Hval); simpl; auto.
    simpl in HP. subst P'.
    eexists. split; [exact Hres|].
    simpl in Hval |- *. rewrite Hval.
    rewrite ?W0, ?W1.
    match goal with
    | |- context [wrap Ty ?x] => replace x with (n - 1)%Z by lia
    end.
    reflexivity.
Qed.

(** *** [collectChecks] *)

Lemma generateLoopLatchCheck_Pred (LatchCheck' C : LoopICmp) (Ty : Type_) :
  generateLoopLatchCheck LatchCheck' Ty = Some C -> Pred C = Pred LatchCheck'.
Proof.
  unfold generateLoopLatchCheck.
  destruct (Type_eqb Ty (getType (IV LatchCheck'))); [now intros [= <-]|].
  destruct (N.ltb _ _); [discriminate|].
  destruct (negb (isSafeToTruncateWideIVType LatchCheck' Ty));
    [discriminate|].
  destruct (getLoop (getTruncateExpr (IV LatchCheck') Ty)); [|discriminate].
  now intros [= <-].
Qed.

Lemma getFlippedStrictnessPredicate_Ret (P : Predicate) :
  isEquality P = false ->
  exists P', getFlippedStrictnessPredicate P = Ret P'.
Proof. destruct P; simpl; try discriminate; eauto. Qed.

(** With a latch predicate that is not an equality, the widening of a
    comparison never reaches [llvm_unreachable], and what it emits is
    not a call of the widenable-condition intrinsic. *)
Lemma widenICmpRangeCheck_Ret (ICIPred : Predicate) (LHS RHS : Value)
    (Guard : ValueId) :
  isEquality (Pred LatchCheck) = false ->
  exists r, widenICmpRangeCheck ICIPred LHS RHS Guard = Ret r /\
            forall V, r = Some V -> isWidenableCondition V = false.
Proof.
  intros Hneq. unfold widenICmpRangeCheck.
  assert (Hnone : exists r : option Value, Ret (@None Value) = Ret r /\
            forall V, r = Some V -> isWidenableCondition V = false)
    by (exists None; split; [reflexivity|discriminate]).
  destruct (parseLoopICmp ICIPred LHS RHS) as [RangeCheck|]; [|exact Hnone].
  destruct (negb (Predicate_eqb (Pred RangeCheck) ICMP_ULT)); [exact Hnone|].
  destruct (negb (isAffine (IV RangeCheck))); [exact Hnone|].
  destruct (negb (isSupportedStep (getStepRecurrence (IV RangeCheck))));
    [exact Hnone|].
  destruct (generateLoopLatchCheck LatchCheck (getType (IV RangeCheck)))
    as [C|] eqn:EC; [|exact Hnone].
  apply generateLoopLatchCheck_Pred in EC.
  destruct (getFlippedStrictnessPredicate_Ret (Pred C)) as (P' & HP');
    [congruence|].
  destruct (negb (SCEV_eqb _ _)); [exact Hnone|].
  destruct (isOne (getStepRecurrence (IV RangeCheck))).
  - unfold widenICmpRangeCheckIncrementingLoop.
    destruct (_ || _ || _ || _); [exact Hnone|].
    destruct (_ || _); [exact Hnone|].
    rewrite HP'. cbn [bindRes]. eexists. split; [reflexivity|].
    intros V [= <-]. apply isWidenableCondition_CreateAnd.
  - unfold widenICmpRangeCheckDecrementingLoop.
    destruct (_ || _ || _ || _); [exact Hnone|].
    destruct (_ || _); [exact Hnone|].
    destruct (negb (SCEV_eqb _ _)); [exact Hnone|].
    rewrite HP'. cbn [bindRes]. eexists. split; [reflexivity|].
    intros V [= <-]. apply isWidenableCondition_CreateAnd.
Qed.

Lemma Value_size_pos (V : Value) : 1 <= Value_size V.
Proof. destruct V; simpl; lia. Qed.

(** The loop, from the pop of [Condition] to the pop of what was below
    it, is [visitCondition]; it uses at most [Value_size Condition] units
    of fuel. *)
Lemma collectChecks_loop_visit (Guard : ValueId) :
  isEquality (Pred LatchCheck) = false ->
  forall (Condition : Value) (Worklist : list Value) (fuel : nat)
         (st : Traversal),
  exists fuel',
    fuel - Value_size Condition <= fuel' /\
    collectChecks_loop fuel Guard (Condition :: Worklist) (TVisited st)
      (TWideableCond st) (TChecks st) (TNumWidened st) =
    collectChecks_loop fuel' Guard Worklist
      (TVisited (visitCondition Guard Condition st))
      (TWideableCond (visitCondition Guard Condition st))
      (TChecks (visitCondition Guard Condition st))
      (TNumWidened (visitCondition Guard Condition st)).
Proof.
  intros Hneq.
  induction Condition; intros Worklist fuel st;
    (destruct fuel as [|fuel];
     [exists 0; split; [lia|reflexivity]|]);
    cbn [collectChecks_loop visitCondition];
    match goal with
    | |- context [inPtrSet ?C ?Vs] => destruct (inPtrSet C Vs) eqn:EV
    end;
    try (exists fuel; split; [simpl; lia|reflexivity]).
  - (* And *)
    destruct (IHCondition2 (Condition1 :: Worklist) fuel
                {| TVisited := And Id Condition1 Condition2 :: TVisited st;
                   TWideableCond := TWideableCond st;
                   TChecks := TChecks st;
                   TNumWidened := TNumWidened st |}) as (f1 & Hf1 & E1).
    simpl in E1. rewrite E1.
    destruct (IHCondition1 Worklist f1
                (visitCondition Guard Condition2
                   {| TVisited := And Id Condition1 Condition2 :: TVisited st;
                      TWideableCond := TWideableCond st;
                      TChecks := TChecks st;
                      TNumWidened := TNumWidened st |})) as (f2 & Hf2 & E2).
    exists f2. split; [simpl; lia|exact E2].
  - (* ICmp *)
    unfold widenedOrNone.
    destruct (widenICmpRangeCheck_Ret Pred0 Condition1 Condition2 Guard Hneq)
      as (r & Hr & _).
    rewrite Hr. exists fuel. split; [simpl; lia|].
    destruct r; reflexivity.
Qed.

Lemma inPtrSet_In (V : Value) (Vs : list Value) :
  inPtrSet V Vs = true <-> In V Vs.
Proof.
  unfold inPtrSet. destruct (in_dec Value_eq_dec V Vs); split; auto.
  discriminate.
Qed.

(** What one visit adds: checks that are not widenable-condition calls,
    and at most a change of the recorded call to one of the
    sub-conditions visited. *)
Lemma visitCondition_adds (Guard : ValueId) :
  isEquality (Pred LatchCheck) = false ->
  forall (Condition : Value) (st : Traversal),
    (exists Others,
       TChecks (visitCondition Guard Condition st) = TChecks st ++ Others /\
       Forall (fun V => isWidenableCondition V = false) Others) /\
    (forall W, TWideableCond (visitCondition Guard Condition st) = Some W ->
       TWideableCond st = Some W \/
       (isWidenableCondition W = true /\ In W (conjuncts Condition))) /\
    (TWideableCond st <> None ->
     TWideableCond (visitCondition Guard Condition st) <> None) /\
    (forall V, In V (TVisited st) ->
       In V (TVisited (visitCondition Guard Condition st))).
Proof.
  intros Hneq.
  assert (Hsame : forall st : Traversal,
    (exists Others, TChecks st = TChecks st ++ Others /\
       Forall (fun V => isWidenableCondition V = false) Others))
    by (intro st; exists []; rewrite app_nil_r; split; constructor).
  assert (Hone : forall (st : Traversal) V,
    isWidenableCondition V = false ->
    exists Others, TChecks st ++ [V] = TChecks st ++ Others /\
       Forall (fun V => isWidenableCondition V = false) Others)
    by (intros st V HV; exists [V]; split; [reflexivity|];
        repeat constructor; assumption).
  induction Condition; intros st; cbn [visitCondition];
    match goal with
    | |- context [inPtrSet ?C ?Vs] => destruct (inPtrSet C Vs) eqn:EV
    end;
    try (split; [apply Hsame|split; [|split]]; auto; fail);
    try (cbn [TChecks TWideableCond TVisited];
         split; [apply Hone; reflexivity|split; [|split]]; auto;
         intros V' HV; right; exact HV).
  - (* And *)
    set (st1 := {| TVisited := And Id Condition1 Condition2 :: TVisited st;
                   TWideableCond := TWideableCond st;
                   TChecks := TChecks st;
                   TNumWidened := TNumWidened st |}).
    destruct (IHCondition2 st1) as ((O2 & HO2 & HF2) & HW2 & HM2 & HV2).
    destruct (IHCondition1 (visitCondition Guard Condition2 st1))
      as ((O1 & HO1 & HF1) & HW1 & HM1 & HV1).
    split; [|split; [|split]].
    + exists (O2 ++ O1). rewrite HO1, HO2. simpl. rewrite app_assoc.
      split; [reflexivity|]. apply Forall_app. split; assumption.
    + intros W HW. simpl. destruct (HW1 W HW) as [H|(H1 & H2)].
      * destruct (HW2 W H) as [H'|(H1 & H2)]; [left; exact H'|].
        right. split; [assumption|]. apply in_app_iff. now right.
      * right. split; [assumption|]. apply in_app_iff. now left.
    + intros H. apply HM1, HM2. exact H.
    + intros V HV. apply HV1, HV2. right. exact HV.
  - (* ICmp *)
    unfold widenedOrNone.
    destruct (widenICmpRangeCheck_Ret Pred0 Condition1 Condition2 Guard Hneq)
      as (r & Hr & HWC).
    rewrite Hr. destruct r as [New|]; cbn [TChecks TWideableCond TVisited];
      (split; [apply Hone; auto|split; [|split]]; auto;
       intros V' HV; right; exact HV).
  - (* WidenableCondition *)
    cbn [TChecks TWideableCond TVisited]. split; [|split; [|split]].
    + apply Hsame.
    + intros W [= <-]. right. split; [reflexivity|]. now left.
    + discriminate.
    + intros V HV. right. exact HV.
Qed.

(** A visit records every widenable-condition call among the
    sub-conditions of what it visits. *)
Lemma visitCondition_records (Guard : ValueId) :
  isEquality (Pred LatchCheck) = false ->
  forall (Condition : Value) (Pending : list Value) (st : Traversal),
    (forall V, In V Pending -> Value_size Condition < Value_size V) ->
    recordedExcept Pending st ->
    recordedExcept Pending (visitCondition Guard Condition st) /\
    (forall W, In W (conjuncts Condition) -> isWidenableCondition W = true ->
       TWideableCond (visitCondition Guard Condition st) <> None).
Proof.
  intros Hneq.
  assert (Hleaf : forall (C : Value) (Pending : list Value) (st st' : Traversal),
    conjuncts C = [C] -> isWidenableCondition C = false ->
    TVisited st' = C :: TVisited st ->
    TWideableCond st' = TWideableCond st ->
    recordedExcept Pending st ->
    recordedExcept Pending st' /\
    (forall W, In W (conjuncts C) -> isWidenableCondition W = true ->
       TWideableCond st' <> None)).
  { intros C Pending st st' HC HW HV HWC Hrec. split.
    - intros V W HVin HP HWin HWw. rewrite HWC. rewrite HV in HVin.
      destruct HVin as [<-|HVin].
      + rewrite HC in HWin. destruct HWin as [<-|[]]. congruence.
      + exact (Hrec V W HVin HP HWin HWw).
    - intros W HWin HWw. rewrite HC in HWin. destruct HWin as [<-|[]].
      congruence. }
  induction Condition; intros Pending st Hsize Hrec; cbn [visitCondition];
    match goal with
    | |- context [inPtrSet ?C ?Vs] => destruct (inPtrSet C Vs) eqn:EV
    end;
    try (split; [exact Hrec|];
         intros W HWin HWw; apply inPtrSet_In in EV;
         refine (Hrec _ W EV _ HWin HWw);
         intros HP; apply Hsize in HP; lia);
    try (apply Hleaf with (st := st); auto; fail).
  - (* And *)
    set (C := And Id Condition1 Condition2) in *.
    set (st1 := {| TVisited := C :: TVisited st;
                   TWideableCond := TWideableCond st;
                   TChecks := TChecks st;
                   TNumWidened := TNumWidened st |}).
    assert (Hrec1 : recordedExcept (C :: Pending) st1).
    { intros V W HVin HP HWin HWw. simpl in HVin |- *.
      destruct HVin as [<-|HVin]; [elim HP; now left|].
      apply (Hrec V W HVin); auto. intros H. apply HP. now right. }
    assert (Hs2 : forall V, In V (C :: Pending) ->
                    Value_size Condition2 < Value_size V).
    { intros V [<-|HV]; [simpl; lia|]. apply Hsize in HV. simpl in HV. lia. }
    assert (Hs1 : forall V, In V (C :: Pending) ->
                    Value_size Condition1 < Value_size V).
    { intros V [<-|HV]; [simpl; lia|]. apply Hsize in HV. simpl in HV. lia. }
    destruct (IHCondition2 (C :: Pending) st1 Hs2 Hrec1) as (Hrec2 & Hleaves2).
    destruct (IHCondition1 (C :: Pending) _ Hs1 Hrec2) as (Hrec3 & Hleaves1).
    destruct (visitCondition_adds Guard Hneq Condition1
                (visitCondition Guard Condition2 st1))
      as (_ & _ & Hmono & _).
    assert (Hall : forall W, In W (conjuncts C) ->
              isWidenableCondition W = true ->
              TWideableCond
                (visitCondition Guard Condition1
                   (visitCondition Guard Condition2 st1)) <> None).
    { intros W HWin HWw. simpl in HWin. apply in_app_iff in HWin.
      destruct HWin as [HWin|HWin].
      - exact (Hleaves1 W HWin HWw).
      - apply Hmono. exact (Hleaves2 W HWin HWw). }
    split; [|exact Hall].
    intros V W HVin HP HWin HWw.
    destruct (Value_eq_dec V C) as [->|HVC].
    + exact (Hall W HWin HWw).
    + apply (Hrec3 V W HVin); auto. intros [H|H]; [congruence|auto].
  - (* ICmp *)
    unfold widenedOrNone.
    destruct (widenICmpRangeCheck Pred0 Condition1 Condition2 Guard)
      as [[New|]| |]; apply Hleaf with (st := st); auto.
  - (* WidenableCondition *)
    split.
    + intros V W _ _ _ _. discriminate.
    + intros W _ _. discriminate.
Qed.

Lemma parseLoopLatchICmp_supported (Result : LoopICmp) :
  parseLoopLatchICmp = Some Result -> isEquality (Pred Result) = false.
Proof.
  unfold parseLoopLatchICmp.
  destruct getLoopLatch as [LoopLatch|]; [|discriminate].
  destruct (getConditionalBranch LoopLatch) as [[[] TrueDest]|];
    try discriminate.
  destruct (parseLoopICmp Pred0 LHS RHS) as [Parsed|]; [|discriminate].
  cbv zeta.
  destruct (negb (isAffine _)); [discriminate|].
  destruct (negb (isSupportedStep _)); [discriminate|].
  destruct (IsUnsupportedPredicate _ _) eqn:EU; [discriminate|].
  intros [= <-]. unfold IsUnsupportedPredicate in EU.
  destruct (Pred (normalizePredicate _)); try reflexivity;
    destruct (isOne _); discriminate.
Qed.

(** C10: the widenable-condition calls of a guard condition are dropped
    from the list of checks, whatever their number, and one of them is put
    back after all other checks; the list has none when the condition has
    none. *)
Theorem collectChecks_keeps_one_widenable_condition
    (Checks : list Value) (Condition : Value) (Guard : ValueId) :
  parseLoopLatchICmp = Some LatchCheck ->
  exists NumWidened Others Kept,
    collectChecks Checks Condition Guard =
      Some (Ret (NumWidened, Checks ++ Others ++ Kept)) /\
    Forall (fun V => isWidenableCondition V = false) Others /\
    ((existsb isWidenableCondition (conjuncts Condition) = false /\
      Kept = []) \/
     (exists W, Kept = [W] /\ isWidenableCondition W = true /\
                In W (conjuncts Condition))).
Proof.
  intros Hlatch.
  pose proof (parseLoopLatchICmp_supported Hlatch) as Hneq.
  set (st0 := {| TVisited := []; TWideableCond := None;
                 TChecks := Checks; TNumWidened := 0 |}).
  destruct (collectChecks_loop_visit Guard Hneq Condition []
              (S (Value_size Condition)) st0) as (fuel' & Hfuel & Hloop).
  destruct (visitCondition_adds Guard Hneq Condition st0)
    as ((Others & HO & HF) & HW & _ & _).
  assert (Hrec : forall W, In W (conjuncts Condition) ->
            isWidenableCondition W = true ->
            TWideableCond (visitCondition Guard Condition st0) <> None).
  { apply (@visitCondition_records Guard Hneq Condition [] st0).
    - intros V [].
    - intros V W []. }
  change (TVisited st0) with (@nil Value) in Hloop.
  change (TWideableCond st0) with (@None Value) in Hloop.
  change (TChecks st0) with Checks in Hloop, HO.
  change (TNumWidened st0) with 0 in Hloop.
  unfold collectChecks. rewrite Hloop.
  destruct fuel' as [|fuel']; [lia|]. cbn [collectChecks_loop].
  exists (TNumWidened (visitCondition Guard Condition st0)), Others.
  destruct (TWideableCond (visitCondition Guard Condition st0)) as [W|] eqn:EW.
  - exists [W]. rewrite HO, <- app_assoc. split; [reflexivity|].
    split; [exact HF|]. right. exists W.
    destruct (HW W eq_refl) as [H|(H1 & H2)]; [discriminate|]. auto.
  - exists []. rewrite HO, app_nil_r. split; [reflexivity|].
    split; [exact HF|]. left. split; [|reflexivity].
    destruct (existsb isWidenableCondition (conjuncts Condition)) eqn:EX;
      [|reflexivity].
    apply existsb_exists in EX. destruct EX as (W & HWin & HWw).
    elim (Hrec W HWin HWw). reflexivity.
Qed.

(** ** Further properties of the widening *)


(** X18: what a comparison must be for [widenICmpRangeCheck] to widen
    it.  It parses as a comparison [iv u< limit] whose induction variable
    is an affine recurrence of this loop with step 1, or -1 when
    count-down loops are enabled; the latch check can be restated in the
    type of that variable, with the same step; the four operands are
    invariant and the two latch operands may be expanded at the guard;
    and, for step -1, the variable is the latch variable after its
    decrement.  What is emitted is what the builder returns for the
    [and] of the first-iteration check [start u< limit] and of a check
    of the latch limit under the latch predicate with its strictness
    flipped. *)
Theorem widenICmpRangeCheck_requires (ICIPred : Predicate) (LHS RHS : Value)
    (Guard : ValueId) (V : Value) :
  widenICmpRangeCheck ICIPred LHS RHS Guard = Ret (Some V) ->
  exists RangeCheck CurrLatchCheck,
    parseLoopICmp ICIPred LHS RHS = Some RangeCheck /\
    Pred RangeCheck = ICMP_ULT /\
    getLoop (IV RangeCheck) = Some L /\
    isAffine (IV RangeCheck) = true /\
    isSupportedStep (getStepRecurrence (IV RangeCheck)) = true /\
    generateLoopLatchCheck LatchCheck (getType (IV RangeCheck)) =
      Some CurrLatchCheck /\
    getStepRecurrence (IV RangeCheck) =
      getStepRecurrence (IV CurrLatchCheck) /\
    widenable CurrLatchCheck RangeCheck Guard = true /\
    (isOne (getStepRecurrence (IV RangeCheck)) = false ->
     IV RangeCheck = getPostIncExpr (IV CurrLatchCheck)) /\
    exists At LimitCheckPred LimitRHS,
      getFlippedStrictnessPredicate (Pred CurrLatchCheck) =
        Ret LimitCheckPred /\
      V = CreateAnd At
            (expandCheck Guard ICMP_ULT (getStart (IV RangeCheck))
               (Limit RangeCheck))
            (expandCheck Guard LimitCheckPred (Limit CurrLatchCheck)
               LimitRHS).
Proof.
  unfold widenICmpRangeCheck.
  destruct (parseLoopICmp ICIPred LHS RHS) as [RangeCheck|] eqn:EP;
    [|discriminate].
  destruct (Predicate_eqb (Pred RangeCheck) ICMP_ULT) eqn:EPred;
    [|discriminate]. simpl.
  destruct (isAffine (IV RangeCheck)) eqn:EAff; [|discriminate]. simpl.
  destruct (isSupportedStep (getStepRecurrence (IV RangeCheck))) eqn:EStep;
    [|discriminate]. simpl.
  destruct (generateLoopLatchCheck LatchCheck (getType (IV RangeCheck)))
    as [C|] eqn:EC; [|discriminate].
  destruct (SCEV_eqb (getStepRecurrence (IV RangeCheck))
              (getStepRecurrence (IV C))) eqn:ESame; [|discriminate]. simpl.
  intros Hw. exists RangeCheck, C.
  assert (HL : getLoop (IV RangeCheck) = Some L).
  { unfold parseLoopICmp in EP.
    destruct (isa_SCEVCouldNotCompute (getSCEV LHS)); [discriminate|].
    destruct (isa_SCEVCouldNotCompute (getSCEV RHS)); [discriminate|].
    destruct (SE_isLoopInvariant (getSCEV LHS));
      match type of EP with
      | match getLoop ?S with _ => _ end = _ =>
          destruct (getLoop S) as [ARLoop|] eqn:EL; [|discriminate];
          destruct (Pos.eqb ARLoop L) eqn:EQ; [|discriminate];
          apply Pos.eqb_eq in EQ; subst ARLoop;
          injection EP as <-; exact EL
      end. }
  assert (HPred : Pred RangeCheck = ICMP_ULT).
  { unfold Predicate_eqb in EPred.
    destruct (Predicate_eq_dec (Pred RangeCheck) ICMP_ULT);
      [assumption|discriminate]. }
  apply SCEV_eqb_eq in ESame.
  assert (Hrest :
    widenable C RangeCheck Guard = true /\
    (isOne (getStepRecurrence (IV RangeCheck)) = false ->
     IV RangeCheck = getPostIncExpr (IV C)) /\
    exists At LimitCheckPred LimitRHS,
      getFlippedStrictnessPredicate (Pred C) = Ret LimitCheckPred /\
      V = CreateAnd At
            (expandCheck Guard ICMP_ULT (getStart (IV RangeCheck))
               (Limit RangeCheck))
            (expandCheck Guard LimitCheckPred (Limit C) LimitRHS)).
  { unfold widenable.
    destruct (isOne (getStepRecurrence (IV RangeCheck))).
    - unfold widenICmpRangeCheckIncrementingLoop in Hw.
      destruct (isLoopInvariantValue (getStart (IV RangeCheck)));
        [|discriminate].
      destruct (isLoopInvariantValue (Limit RangeCheck)); [|discriminate].
      destruct (isLoopInvariantValue (getStart (IV C))); [|discriminate].
      destruct (isLoopInvariantValue (Limit C)); [|discriminate].
      destruct (isSafeToExpandAt (getStart (IV C)) (AtUse Guard));
        [|discriminate].
      destruct (isSafeToExpandAt (Limit C) (AtUse Guard)); [|discriminate].
      simpl in Hw |- *.
      destruct (getFlippedStrictnessPredicate (Pred C)) as [P'| |];
        [|discriminate..].
      cbn [bindRes] in Hw. injection Hw as <-. rewrite HPred.
      split; [reflexivity|]. split; [discriminate|]. eauto.
    - unfold widenICmpRangeCheckDecrementingLoop in Hw.
      destruct (isLoopInvariantValue (getStart (IV RangeCheck)));
        [|discriminate].
      destruct (isLoopInvariantValue (Limit RangeCheck)); [|discriminate].
      destruct (isLoopInvariantValue (getStart (IV C))); [|discriminate].
      destruct (isLoopInvariantValue (Limit C)); [|discriminate].
      destruct (isSafeToExpandAt (getStart (IV C)) (AtUse Guard));
        [|discriminate].
      destruct (isSafeToExpandAt (Limit C) (AtUse Guard)); [|discriminate].
      simpl in Hw |- *.
      destruct (SCEV_eqb (IV RangeCheck) (getPostIncExpr (IV C))) eqn:EPost;
        [|discriminate].
      apply SCEV_eqb_eq in EPost. simpl in Hw.
      destruct (getFlippedStrictnessPredicate (Pred C)) as [P'| |];
        [|discriminate..].
      cbn [bindRes] in Hw. injection Hw as <-.
      split; [reflexivity|]. split; [intros _; exact EPost|]. eauto. }
  destruct Hrest as (H1 & H2 & H3).
  repeat (split; [assumption || reflexivity|]). exact H3.
Qed.

(** X19: the normalization of an equality predicate.  It changes the
    predicate only, and only of [!=], which becomes [u<], and of [==],
    which becomes [u>=], when the step is 1 and the start is known to be
    [u<=] the limit; applied twice it does what it does applied once. *)
Theorem normalizePredicate_outcome (RC : LoopICmp) :
  IV (normalizePredicate RC) = IV RC /\
  Limit (normalizePredicate RC) = Limit RC /\
  normalizePredicate (normalizePredicate RC) = normalizePredicate RC /\
  (isEquality (Pred RC) = false -> normalizePredicate RC = RC) /\
  (Pred (normalizePredicate RC) <> Pred RC ->
   isOne (getStepRecurrence (IV RC)) = true /\
   isKnownPredicate ICMP_ULE (getStart (IV RC)) (Limit RC) = true /\
   ((Pred RC = ICMP_NE /\ Pred (normalizePredicate RC) = ICMP_ULT) \/
    (Pred RC = ICMP_EQ /\ Pred (normalizePredicate RC) = ICMP_UGE))).
Proof.
  assert (Hsame : normalizePredicate RC = RC ->
    IV (normalizePredicate RC) = IV RC /\
    Limit (normalizePredicate RC) = Limit RC /\
    normalizePredicate (normalizePredicate RC) = normalizePredicate RC /\
    (isEquality (Pred RC) = false -> normalizePredicate RC = RC) /\
    (Pred (normalizePredicate RC) <> Pred RC ->
     isOne (getStepRecurrence (IV RC)) = true /\
     isKnownPredicate ICMP_ULE (getStart (IV RC)) (Limit RC) = true /\
     ((Pred RC = ICMP_NE /\ Pred (normalizePredicate RC) = ICMP_ULT) \/
      (Pred RC = ICMP_EQ /\ Pred (normalizePredicate RC) = ICMP_UGE)))).
  { intros E. rewrite !E. split; [reflexivity|]. split; [reflexivity|].
    split; [reflexivity|]. split; [intros _; reflexivity|].
    intros Hne. now elim Hne. }
  destruct (isEquality (Pred RC)) eqn:EE.
  2:{ apply Hsame. unfold normalizePredicate. rewrite EE. reflexivity. }
  destruct (isOne (getStepRecurrence (IV RC))) eqn:EO.
  2:{ apply Hsame. unfold normalizePredicate. rewrite EE, EO. reflexivity. }
  destruct (isKnownPredicate ICMP_ULE (getStart (IV RC)) (Limit RC)) eqn:EK.
  2:{ apply Hsame. unfold normalizePredicate. rewrite EE, EO, EK.
      reflexivity. }
  clear Hsame. unfold normalizePredicate. rewrite EE, EO, EK. simpl.
  split; [reflexivity|]. split; [reflexivity|].
  destruct (Pred RC) eqn:EPr; try discriminate; simpl.
  - (* ICMP_EQ *)
    split; [reflexivity|]. split; [discriminate|]. intros _.
    split; [reflexivity|]. split; [reflexivity|].
    right. split; reflexivity.
  - (* ICMP_NE *)
    split; [reflexivity|]. split; [discriminate|]. intros _.
    split; [reflexivity|]. split; [reflexivity|].
    left. split; reflexivity.
Qed.

(** X20: the latch check that [parseLoopLatchICmp] returns.  The latch
    ends in a conditional branch on a comparison; the induction variable
    is the side of the comparison that is not invariant, an affine
    recurrence of this loop with a supported step, and the limit is the
    other side; the predicate is one of [u<], [s<], [u<=], [s<=] for
    step 1 and one of [u>], [s>], [u>=], [s>=] otherwise. *)
Theorem parseLoopLatchICmp_shape (Result : LoopICmp) :
  parseLoopLatchICmp = Some Result ->
  getLoop (IV Result) = Some L /\
  isAffine (IV Result) = true /\
  isSupportedStep (getStepRecurrence (IV Result)) = true /\
  (if isOne (getStepRecurrence (IV Result))
   then In (Pred Result) [ICMP_ULT; ICMP_SLT; ICMP_ULE; ICMP_SLE]
   else In (Pred Result) [ICMP_UGT; ICMP_SGT; ICMP_UGE; ICMP_SGE]) /\
  exists LoopLatch Id ICIPred LHS RHS TrueDest,
    getLoopLatch = Some LoopLatch /\
    getConditionalBranch LoopLatch =
      Some (ICmp Id ICIPred LHS RHS, TrueDest) /\
    IV Result = leftAfterSwap LHS RHS /\
    Limit Result = rightAfterSwap LHS RHS.
Proof.
  unfold parseLoopLatchICmp.
  destruct getLoopLatch as [LoopLatch|]; [|discriminate].
  destruct (getConditionalBranch LoopLatch) as [[[] TrueDest]|] eqn:EB;
    try discriminate.
  destruct (parseLoopICmp Pred0 LHS RHS) as [Parsed|] eqn:EP; [|discriminate].
  cbv zeta.
  assert (HParsed : getLoop (IV Parsed) = Some L /\
                    IV Parsed = leftAfterSwap LHS RHS /\
                    Limit Parsed = rightAfterSwap LHS RHS).
  { unfold parseLoopICmp in EP. unfold leftAfterSwap, rightAfterSwap.
    destruct (isa_SCEVCouldNotCompute (getSCEV LHS)); [discriminate|].
    destruct (isa_SCEVCouldNotCompute (getSCEV RHS)); [discriminate|].
    destruct (SE_isLoopInvariant (getSCEV LHS));
      match type of EP with
      | match getLoop ?S with _ => _ end = _ =>
          destruct (getLoop S) as [ARLoop|] eqn:EL; [|discriminate];
          destruct (Pos.eqb ARLoop L) eqn:EQ; [|discriminate];
          apply Pos.eqb_eq in EQ; subst ARLoop;
          injection EP as <-; repeat split; exact EL
      end. }
  destruct HParsed as (HL & HIV & HLim).
  set (Result0 := if negb (Pos.eqb TrueDest getHeader)
                  then {| Pred := getInversePredicate (Pred Parsed);
                          IV := IV Parsed; Limit := Limit Parsed |}
                  else Parsed).
  assert (HIV0 : IV Result0 = IV Parsed /\ Limit Result0 = Limit Parsed)
    by (unfold Result0; destruct (negb (Pos.eqb TrueDest getHeader));
        split; reflexivity).
  destruct HIV0 as (HIV0 & HLim0).
  destruct (isAffine (IV Result0)) eqn:EAff; [|discriminate]. simpl.
  destruct (isSupportedStep (getStepRecurrence (IV Result0))) eqn:ES;
    [|discriminate]. simpl.
  destruct (IsUnsupportedPredicate (getStepRecurrence (IV Result0))
              (Pred (normalizePredicate Result0))) eqn:EU; [discriminate|].
  intros [= <-].
  assert (HN : IV (normalizePredicate Result0) = IV Result0 /\
               Limit (normalizePredicate Result0) = Limit Result0).
  { unfold normalizePredicate.
    destruct (isEquality (Pred Result0) &&
              isOne (getStepRecurrence (IV Result0)) &&
              isKnownPredicate ICMP_ULE (getStart (IV Result0))
                (Limit Result0)); split; reflexivity. }
  destruct HN as (HN1 & HN2). rewrite HN1, HN2, HIV0, HLim0.
  rewrite HIV0 in EAff, ES, EU.
  split; [exact HL|]. split; [exact EAff|]. split; [exact ES|]. split.
  - unfold IsUnsupportedPredicate in EU.
    destruct (isOne (getStepRecurrence (IV Parsed)));
      destruct (Pred (normalizePredicate Result0)); simpl in EU |- *;
      try discriminate; auto 6.
  - exists LoopLatch, Id, Pred0, LHS, RHS, TrueDest. auto.
Qed.

(** ** The truncation of a wide latch check *)

Lemma getActiveBits_bound (Ty : N) (V n : Z) :
  (getActiveBits Ty V < n)%Z -> (0 <= wrap Ty V < 2 ^ (n - 1))%Z.
Proof.
  unfold getActiveBits. intros H.
  assert (H0 : (0 <= wrap Ty V)%Z).
  { unfold wrap. apply Z.mod_pos_bound. apply Z.pow_pos_nonneg; lia. }
  destruct (wrap Ty V =? 0)%Z eqn:E.
  - apply Z.eqb_eq in E. rewrite E. split; [lia|].
    apply Z.pow_pos_nonneg; lia.
  - apply Z.eqb_neq in E. split; [exact H0|].
    assert (Hpos : (0 < wrap Ty V)%Z) by lia.
    pose proof (Z.log2_spec _ Hpos) as (_ & Hlt).
    pose proof (Z.log2_nonneg (wrap Ty V)) as Hnn.
    apply Z.lt_le_trans with (1 := Hlt).
    apply Z.pow_le_mono_r; lia.
Qed.

Lemma fits_in_type (Ty : N) (v : Z) :
  (0 <= v < 2 ^ (Z.of_N Ty - 1))%Z -> wrap Ty v = v /\ signed Ty v = v.
Proof.
  intros (H0 & H1).
  assert (Hpos : (0 < Z.of_N Ty)%Z).
  { pose proof (N2Z.is_nonneg Ty) as Hnn.
    destruct (Z.eq_dec (Z.of_N Ty) 0) as [E|E]; [|lia].
    rewrite E in H1. simpl in H1. lia. }
  assert (Hle : (2 ^ (Z.of_N Ty - 1) < 2 ^ Z.of_N Ty)%Z)
    by (apply Z.pow_lt_mono_r; lia).
  split.
  - unfold wrap. apply Z.mod_small. lia.
  - unfold signed. destruct (v <? 2 ^ (Z.of_N Ty - 1))%Z eqn:E;
      [reflexivity|]. apply Z.ltb_ge in E. lia.
Qed.

(** X21: when the truncation of the wide latch check is found safe, the
    option that enables it is set, the predicate is monotonic on the
    latch induction variable, and the limit and the start of that
    variable are constants that fit in the narrower type as non-negative
    signed numbers: truncated to that type they keep their value, read
    unsigned or signed. *)
Theorem isSafeToTruncateWideIVType_fits (LatchCheck' : LoopICmp)
    (RangeCheckType : Type_) :
  isSafeToTruncateWideIVType LatchCheck' RangeCheckType = true ->
  EnableIVTruncation = true /\
  isMonotonicPredicate (IV LatchCheck') (Pred LatchCheck') = true /\
  exists LimitTy LimitV StartTy StartV,
    Limit LatchCheck' = SCEVConstant LimitTy LimitV /\
    getStart (IV LatchCheck') = SCEVConstant StartTy StartV /\
    forall v, v = wrap LimitTy LimitV \/ v = wrap StartTy StartV ->
      (0 <= v < 2 ^ (Z.of_N RangeCheckType - 1))%Z /\
      wrap RangeCheckType v = v /\ signed RangeCheckType v = v.
Proof.
  unfold isSafeToTruncateWideIVType.
  destruct EnableIVTruncation; [|discriminate]. simpl.
  destruct (Limit LatchCheck') as [ | LimitTy LimitV | | | | | ];
    try discriminate.
  destruct (getStart (IV LatchCheck')) as [ | StartTy StartV | | | | | ];
    try discriminate.
  destruct (isMonotonicPredicate (IV LatchCheck') (Pred LatchCheck'));
    [|discriminate]. simpl.
  intros H. apply andb_true_iff in H. destruct H as (HS & HL).
  apply Z.ltb_lt in HS, HL.
  apply getActiveBits_bound in HS, HL.
  split; [reflexivity|]. split; [reflexivity|].
  exists LimitTy, LimitV, StartTy, StartV.
  split; [reflexivity|]. split; [reflexivity|].
  intros v [-> | ->]; (split; [assumption|apply fits_in_type; assumption]).
Qed.

Lemma isSafeToTruncateWideIVType_fits_limit (LatchCheck' : LoopICmp)
    (RangeCheckType : Type_) :
  isSafeToTruncateWideIVType LatchCheck' RangeCheckType = true ->
  exists LimitTy LimitV,
    Limit LatchCheck' = SCEVConstant LimitTy LimitV /\
    (0 <= wrap LimitTy LimitV < 2 ^ (Z.of_N RangeCheckType - 1))%Z /\
    wrap RangeCheckType (wrap LimitTy LimitV) = wrap LimitTy LimitV /\
    signed RangeCheckType (wrap LimitTy LimitV) = wrap LimitTy LimitV.
Proof.
  unfold isSafeToTruncateWideIVType.
  destruct EnableIVTruncation; [|discriminate]. simpl.
  destruct (Limit LatchCheck') as [ | LimitTy LimitV | | | | | ];
    try discriminate.
  destruct (getStart (IV LatchCheck')) as [ | StartTy StartV | | | | | ];
    try discriminate.
  destruct (isMonotonicPredicate (IV LatchCheck') (Pred LatchCheck'));
    [|discriminate]. simpl.
  intros H. apply andb_true_iff in H. destruct H as (_ & HL).
  apply Z.ltb_lt in HL. apply getActiveBits_bound in HL.
  exists LimitTy, LimitV. split; [reflexivity|]. split; [exact HL|].
  apply fits_in_type. exact HL.
Qed.

Lemma generateLoopLatchCheck_cases (LatchCheck' C : LoopICmp)
    (RangeCheckType : Type_) :
  generateLoopLatchCheck LatchCheck' RangeCheckType = Some C ->
  (RangeCheckType = getType (IV LatchCheck') /\ C = LatchCheck') \/
  (RangeCheckType <> getType (IV LatchCheck') /\
   (getTypeSizeInBits RangeCheckType <=
    getTypeSizeInBits (getType (IV LatchCheck')))%N /\
   isSafeToTruncateWideIVType LatchCheck' RangeCheckType = true /\
   Pred C = Pred LatchCheck' /\
   IV C = getTruncateExpr (IV LatchCheck') RangeCheckType /\
   Limit C = getTruncateExpr (Limit LatchCheck') RangeCheckType /\
   getLoop (IV C) <> None).
Proof.
  unfold generateLoopLatchCheck.
  unfold Type_eqb.
  destruct (Type_eq_dec RangeCheckType (getType (IV LatchCheck'))) as [E|E].
  - intros [= <-]. left. auto.
  - destruct (N.ltb (getTypeSizeInBits (getType (IV LatchCheck')))
                    (getTypeSizeInBits RangeCheckType)) eqn:EL;
      [discriminate|]. apply N.ltb_ge in EL.
    destruct (isSafeToTruncateWideIVType LatchCheck' RangeCheckType);
      [|discriminate]. simpl.
    destruct (getLoop (getTruncateExpr (IV LatchCheck') RangeCheckType))
      as [ARLoop|] eqn:EG; [|discriminate].
    intros [= <-]. right. simpl. rewrite EG.
    repeat split; try assumption; try lia; discriminate.
Qed.

(** X22: the latch check restated in the type of a range check.  It has
    the predicate of the latch check.  It is the latch check itself when
    the two types are the same type.  Otherwise the latch type is not
    smaller than the type of the range check, and is larger when both
    are integer types: a type of the same size that is another type, a
    pointer type against an integer type, goes the same way.  The
    induction variable and the limit are then the truncations of those
    of the latch check, and, the engine's truncation of an expression
    denoting the truncation of its value, the new limit has the value of
    the old one, which is not negative in the type of the range
    check. *)
Theorem generateLoopLatchCheck_keeps_limit (env : Env)
    (LatchCheck' C : LoopICmp) (RangeCheckType : Type_) :
  (forall Expr Ty v, evalSCEV env Expr = Some v ->
     evalSCEV env (getTruncateExpr Expr Ty) = Some (wrap Ty v)) ->
  generateLoopLatchCheck LatchCheck' RangeCheckType = Some C ->
  Pred C = Pred LatchCheck' /\
  (RangeCheckType = getType (IV LatchCheck') -> C = LatchCheck') /\
  (RangeCheckType <> getType (IV LatchCheck') ->
   (getTypeSizeInBits RangeCheckType <=
    getTypeSizeInBits (getType (IV LatchCheck')))%N /\
   (forall RangeBits LatchBits,
      RangeCheckType = IntegerTy RangeBits ->
      getType (IV LatchCheck') = IntegerTy LatchBits ->
      (RangeBits < LatchBits)%N) /\
   IV C = getTruncateExpr (IV LatchCheck') RangeCheckType /\
   Limit C = getTruncateExpr (Limit LatchCheck') RangeCheckType /\
   exists v, evalSCEV env (Limit LatchCheck') = Some v /\
             evalSCEV env (Limit C) = Some v /\
             signed RangeCheckType v = v).
Proof.
  intros Htrunc HC.
  destruct (generateLoopLatchCheck_cases _ _ HC)
    as [(HT & ->)|(HT & Hlt & Hsafe & HP & HIV & HLim & _)].
  - split; [reflexivity|]. split; [reflexivity|]. intros H. now elim H.
  - split; [exact HP|]. split; [intros H; now elim HT|]. intros _.
    split; [exact Hlt|].
    split.
    { intros RangeBits LatchBits ER EL. rewrite ER, EL in Hlt, HT.
      simpl in Hlt. apply N.le_neq. split; [exact Hlt|].
      intros ->. now elim HT. }
    split; [exact HIV|]. split; [exact HLim|].
    apply isSafeToTruncateWideIVType_fits_limit in Hsafe.
    destruct Hsafe as (LimitTy & LimitV & HL & H0 & H1 & H2).
    exists (wrap LimitTy LimitV). rewrite HLim, HL.
    split; [reflexivity|]. split; [|exact H2].
    rewrite (Htrunc (SCEVConstant LimitTy LimitV) RangeCheckType
               (wrap LimitTy LimitV) eq_refl).
    now rewrite H1.
Qed.

(** ** The number of widened checks *)

Definition isICmp (V : Value) : bool :=
  match V with
  | ICmp _ _ _ _ => true
  | _ => false
  end.

(** A value the widening returns: what the builder gives for the [and]
    of two checks made by [expandCheck] at the guard.  It is a new
    [and], or the first check when the second is [true], or a constant
    when the builder folds. *)
Definition isWidenedCheck (Guard : ValueId) (V : Value) : Prop :=
  exists At P1 L1 R1 P2 L2 R2,
    V = CreateAnd At (expandCheck Guard P1 L1 R1)
                     (expandCheck Guard P2 L2 R2).

Lemma widenedOrNone_emitted (Guard : ValueId) (ICIPred : Predicate)
    (LHS RHS : Value) (V : Value) :
  widenedOrNone Guard ICIPred LHS RHS = Some V -> isWidenedCheck Guard V.
Proof.
  unfold widenedOrNone, widenICmpRangeCheck, isWidenedCheck.
  destruct (parseLoopICmp ICIPred LHS RHS) as [RangeCheck|]; [|discriminate].
  destruct (negb (Predicate_eqb (Pred RangeCheck) ICMP_ULT)); [discriminate|].
  destruct (negb (isAffine (IV RangeCheck))); [discriminate|].
  destruct (negb (isSupportedStep (getStepRecurrence (IV RangeCheck))));
    [discriminate|].
  destruct (generateLoopLatchCheck LatchCheck (getType (IV RangeCheck)))
    as [C|]; [|discriminate].
  destruct (negb (SCEV_eqb _ _)); [discriminate|].
  destruct (isOne (getStepRecurrence (IV RangeCheck))).
  - unfold widenICmpRangeCheckIncrementingLoop.
    destruct (_ || _ || _ || _); [discriminate|].
    destruct (_ || _); [discriminate|].
    destruct (getFlippedStrictnessPredicate (Pred C)); [|discriminate..].
    cbn [bindRes]. intros [= <-]. eauto 10.
  - unfold widenICmpRangeCheckDecrementingLoop.
    destruct (_ || _ || _ || _); [discriminate|].
    destruct (_ || _); [discriminate|].
    destruct (negb (SCEV_eqb _ _)); [discriminate|].
    destruct (getFlippedStrictnessPredicate (Pred C)); [|discriminate..].
    cbn [bindRes]. intros [= <-]. eauto 10.
Qed.

(** What one visit adds to the checks and to the count of widened
    checks. *)
Lemma visitCondition_counts (Guard : ValueId) :
  forall (Condition : Value) (st : Traversal),
    exists Others n,
      TChecks (visitCondition Guard Condition st) = TChecks st ++ Others /\
      TNumWidened (visitCondition Guard Condition st) = TNumWidened st + n /\
      n <= length Others /\
      n <= length (filter isICmp (conjuncts Condition)) /\
      Forall (fun V => In V (conjuncts Condition) \/ isWidenedCheck Guard V) Others /\
      (n = 0 -> Forall (fun V => In V (conjuncts Condition)) Others).
Proof.
  assert (Hnone : forall (C : Value) (st : Traversal),
    exists Others n,
      TChecks st = TChecks st ++ Others /\
      TNumWidened st = TNumWidened st + n /\
      n <= length Others /\
      n <= length (filter isICmp (conjuncts C)) /\
      Forall (fun V => In V (conjuncts C) \/ isWidenedCheck Guard V) Others /\
      (n = 0 -> Forall (fun V => In V (conjuncts C)) Others)).
  { intros C st. exists [], 0. rewrite app_nil_r.
    repeat split; try lia; constructor. }
  assert (Hleaf : forall (C : Value) (st : Traversal) (w : nat),
    conjuncts C = [C] ->
    exists Others n,
      TChecks st ++ [C] = TChecks st ++ Others /\
      w = w + n /\
      n <= length Others /\
      n <= length (filter isICmp (conjuncts C)) /\
      Forall (fun V => In V (conjuncts C) \/ isWidenedCheck Guard V) Others /\
      (n = 0 -> Forall (fun V => In V (conjuncts C)) Others)).
  { intros C st w HC. exists [C], 0. rewrite HC.
    repeat split; try lia; repeat constructor; now left. }
  induction Condition; intros st; cbn [visitCondition];
    match goal with
    | |- context [inPtrSet ?C ?Vs] => destruct (inPtrSet C Vs) eqn:EV
    end;
    try (apply Hnone; fail);
    try (cbn [TChecks TNumWidened]; apply Hleaf; reflexivity).
  - (* And *)
    set (st1 := {| TVisited := And Id Condition1 Condition2 :: TVisited st;
                   TWideableCond := TWideableCond st;
                   TChecks := TChecks st;
                   TNumWidened := TNumWidened st |}).
    destruct (IHCondition2 st1)
      as (O2 & n2 & HO2 & HN2 & HL2 & HI2 & HF2 & HZ2).
    destruct (IHCondition1 (visitCondition Guard Condition2 st1))
      as (O1 & n1 & HO1 & HN1 & HL1 & HI1 & HF1 & HZ1).
    exists (O2 ++ O1), (n2 + n1). simpl.
    rewrite HO1, HO2, HN1, HN2, filter_app, !length_app. simpl.
    split; [now rewrite app_assoc|]. split; [lia|]. split; [lia|].
    split; [lia|]. split.
    + apply Forall_app. split.
      * eapply Forall_impl; [|exact HF2]. intros V [H|H]; [left|now right].
        apply in_app_iff. now right.
      * eapply Forall_impl; [|exact HF1]. intros V [H|H]; [left|now right].
        apply in_app_iff. now left.
    + intros Hz. apply Forall_app. split.
      * eapply Forall_impl; [|apply HZ2; lia]. intros V H.
        apply in_app_iff. now right.
      * eapply Forall_impl; [|apply HZ1; lia]. intros V H.
        apply in_app_iff. now left.
  - (* ICmp *)
    destruct (widenedOrNone Guard Pred0 Condition1 Condition2)
      as [New|] eqn:EW; cbn [TChecks TNumWidened].
    + exists [New], 1. simpl.
      split; [reflexivity|]. split; [lia|]. split; [lia|]. split; [lia|].
      split; [|discriminate]. constructor; [|constructor]. right.
      exact (widenedOrNone_emitted _ _ _ _ EW).
    + exists [ICmp Id Pred0 Condition1 Condition2], 0. simpl.
      repeat split; try lia; repeat constructor; now left.
  - (* WidenableCondition *)
    cbn [TChecks TNumWidened]. exists [], 0. rewrite app_nil_r. simpl.
    repeat split; try lia; constructor.
Qed.

(** X23: the count that [collectChecks] returns.  The checks it appends
    are sub-conditions of the condition or values the widening returned,
    each what the builder gives for the [and] of two checks made by
    [expandCheck]; the count is at most their number and at most the
    number of comparisons among the sub-conditions; and when it is zero,
    which is when the guard is left as it is, every check appended is a
    sub-condition: nothing was widened. *)
Theorem collectChecks_widened_count
    (Checks : list Value) (Condition : Value) (Guard : ValueId) :
  parseLoopLatchICmp = Some LatchCheck ->
  exists NumWidened New,
    collectChecks Checks Condition Guard =
      Some (Ret (NumWidened, Checks ++ New)) /\
    NumWidened <= length New /\
    NumWidened <= length (filter isICmp (conjuncts Condition)) /\
    Forall (fun V => In V (conjuncts Condition) \/ isWidenedCheck Guard V) New /\
    (NumWidened = 0 -> Forall (fun V => In V (conjuncts Condition)) New).
Proof.
  intros Hlatch.
  pose proof (parseLoopLatchICmp_supported Hlatch) as Hneq.
  set (st0 := {| TVisited := []; TWideableCond := None;
                 TChecks := Checks; TNumWidened := 0 |}).
  destruct (collectChecks_loop_visit Guard Hneq Condition []
              (S (Value_size Condition)) st0) as (fuel' & Hfuel & Hloop).
  destruct (visitCondition_counts Guard Condition st0)
    as (Others & n & HO & HN & HL & HI & HF & HZ).
  destruct (visitCondition_adds Guard Hneq Condition st0)
    as (_ & HW & _ & _).
  change (TVisited st0) with (@nil Value) in Hloop.
  change (TWideableCond st0) with (@None Value) in Hloop.
  change (TChecks st0) with Checks in Hloop, HO.
  change (TNumWidened st0) with 0 in Hloop, HN.
  unfold collectChecks. rewrite Hloop.
  destruct fuel' as [|fuel']; [lia|]. cbn [collectChecks_loop].
  rewrite HN, HO. simpl.
  destruct (TWideableCond (visitCondition Guard Condition st0)) as [W|] eqn:EW.
  - assert (HWin : In W (conjuncts Condition)).
    { destruct (HW W eq_refl) as [H|(_ & H)]; [discriminate|exact H]. }
    exists n, (Others ++ [W]). rewrite <- app_assoc, length_app. simpl.
    split; [reflexivity|]. split; [lia|]. split; [exact HI|]. split.
    + apply Forall_app. split; [exact HF|]. constructor; [now left|constructor].
    + intros Hz. apply Forall_app. split; [exact (HZ Hz)|].
      constructor; [exact HWin|constructor].
  - exists n, Others. auto.
Qed.
End Predication.

(** ** A concrete loop

    Loop 1 over 32-bit integers.  Values 1, 2 and 3 are the invariant
    bounds, with 5, 5 and 10 at the entry of the loop; values 5, 8 and 11
    are induction variables, 11 being value 5 after its increment.  The
    latch, block 2, branches back to the header, block 2, on
    [11 s< 12], value 12 being bound 2.  The engine builds sums and
    differences without simplifying them and knows no condition at the
    entry of the loop. *)

Definition exampleLoop : Loop := 1%positive.

Definition exampleIsLoopInvariant (Expr : SCEV) : bool :=
  match Expr with
  | SCEVAddRecExpr _ _ _ _ => false
  | SCEVCouldNotCompute => false
  | _ => true
  end.

Definition exampleMinusSCEV (A B : SCEV) : SCEV :=
  SCEVAddExpr A (SCEVMulExpr (SCEVConstant (getType B) (-1)) B).

Definition exampleGuardedByCond (_ : Predicate) (_ _ : SCEV) : bool := false.

Definition exampleEnv : Env :=
  {| typeOf := fun _ => i32;
     valueOf := fun Id =>
       match Id with
       | 1%positive => 5%Z
       | 2%positive => 5%Z
       | 3%positive => 10%Z
       | _ => 0%Z
       end |}.

Definition boundN : SCEV := SCEVUnknown i32 1%positive.
Definition boundM : SCEV := SCEVUnknown i32 2%positive.
Definition boundTen : SCEV := SCEVUnknown i32 3%positive.

(** [{0,+,1,+,1}<1>], an induction variable that is not affine. *)
Definition quadraticIV : SCEV :=
  SCEVAddRecExpr (SCEVConstant 32 0) (SCEVConstant 32 1) [SCEVConstant 32 1]
    exampleLoop.

Definition exampleGetSCEV (V : Value) : SCEV :=
  match V with
  | Argument 5%positive =>
      SCEVAddRecExpr (SCEVConstant 32 0) (SCEVConstant 32 1) [] exampleLoop
  | Argument 6%positive => boundN
  | Argument 8%positive => quadraticIV
  | Argument 11%positive =>
      SCEVAddRecExpr (SCEVConstant 32 1) (SCEVConstant 32 1) [] exampleLoop
  | Argument 12%positive => boundM
  | Argument Id => SCEVUnknown i32 Id
  | _ => SCEVCouldNotCompute
  end.

Definition exampleWiden (LatchCheck' RangeCheck : LoopICmp) (Guard : ValueId)
  : Res (option Value) :=
  widenICmpRangeCheckIncrementingLoop exampleIsLoopInvariant
    exampleGuardedByCond (fun _ _ => true) SCEVAddExpr exampleMinusSCEV
    (fun _ => true) (fun _ => false) (fun _ => false) (fun _ => false)
    (fun _ => false) (fun _ => false) LatchCheck' RangeCheck Guard.

Definition exampleWidenable (LatchCheck' RangeCheck : LoopICmp)
    (Guard : ValueId) : bool :=
  widenable exampleIsLoopInvariant (fun _ _ => true)
    (fun _ => false) (fun _ => false) (fun _ => false)
    (fun _ => false) (fun _ => false) LatchCheck' RangeCheck Guard.

Definition exampleCollectChecks (LatchCheck : LoopICmp)
    (Checks : list Value) (Condition : Value) (Guard : ValueId)
  : option (Res (nat * list Value)) :=
  collectChecks exampleLoop LatchCheck true true exampleGetSCEV
    exampleIsLoopInvariant exampleGuardedByCond (fun _ _ => true)
    (fun _ _ => true) SCEVTruncateExpr SCEVAddExpr exampleMinusSCEV
    (fun Expr => Expr) (fun _ => true)
    (fun _ => false) (fun _ => false) (fun _ => false)
    (fun _ => false) (fun _ => false) Checks Condition Guard.

(** The guard condition [wc() && ((i u< N) && wc())], with two calls of
    the widenable-condition intrinsic. *)
Definition exampleCondition : Value :=
  And 1%positive (WidenableCondition 2%positive)
    (And 3%positive
       (ICmp 4%positive ICMP_ULT (Argument 5%positive) (Argument 6%positive))
       (WidenableCondition 7%positive)).

Lemma exampleEngine_sound (env : Env) :
  SoundEngine exampleGuardedByCond SCEVAddExpr exampleMinusSCEV env.
Proof.
  unfold SoundEngine. split; [|split; [|split]].
  - intros A B a b HA HB. simpl. rewrite HA, HB. reflexivity.
  - intros A B a b HT HA HB. unfold exampleMinusSCEV. simpl.
    rewrite HA, HB. rewrite <- HT. f_equal. unfold wrap.
    rewrite Zplus_mod_idemp_r, <- Zplus_mod_idemp_r,
      Zmult_mod_idemp_l, Zplus_mod_idemp_r.
    f_equal; lia.
  - reflexivity.
  - unfold exampleGuardedByCond. discriminate.
Qed.

(** C1, as stated, fails: with [N = 5] and [M = 5] the check emitted for
    the guard [i u< N] and the latch [i++ ; i s< M] is true, and
    [(0 u< N) && (M s<= N - 1)] is false. *)
Lemma incrementing_loop_check_counterexample :
  evalSCEV exampleEnv boundN = Some 5%Z /\
  evalSCEV exampleEnv boundM = Some 5%Z /\
  (exists Check,
     exampleWiden (latchFrom exampleLoop 32 1 boundM)
       (guardFromZero exampleLoop 32 boundN) 9%positive = Ret (Some Check) /\
     evalValue exampleEnv Check = Some 1%Z) /\
  Z.b2z (evalPredicate 32 ICMP_ULT 0 5 &&
         evalPredicate 32 ICMP_SLE 5 (wrap 32 (5 - 1))) = 0%Z.
Proof.
  split; [reflexivity|]. split; [reflexivity|]. split; [|reflexivity].
  eexists. split; [vm_compute; reflexivity|vm_compute; reflexivity].
Qed.

Lemma widenICmpRangeCheckIncrementingLoop_from_zero_witness :
  (0 < 32)%N /\
  (getType boundN = IntegerTy 32 /\ getType boundM = IntegerTy 32) /\
  (evalSCEV exampleEnv boundN = Some 5%Z /\
   evalSCEV exampleEnv boundM = Some 5%Z) /\
  exampleWidenable (latchFrom exampleLoop 32 1 boundM)
    (guardFromZero exampleLoop 32 boundN) 9%positive = true /\
  exists Check,
    exampleWiden (latchFrom exampleLoop 32 1 boundM)
      (guardFromZero exampleLoop 32 boundN) 9%positive = Ret (Some Check) /\
    evalValue exampleEnv Check =
    Some (Z.b2z (evalPredicate 32 ICMP_ULT 0 5 &&
                 evalPredicate 32 ICMP_SLE 5 5)).
Proof.
  split; [reflexivity|]. split; [split; reflexivity|].
  split; [split; reflexivity|]. split; [reflexivity|].
  exact (proj1 (@widenICmpRangeCheckIncrementingLoop_from_zero
                  exampleLoop exampleIsLoopInvariant exampleGuardedByCond
                  (fun _ _ => true) SCEVAddExpr exampleMinusSCEV
                  (fun _ => true) (fun _ => false) (fun _ => false)
                  (fun _ => false) (fun _ => false) (fun _ => false)
                  exampleEnv 32%N boundN boundM 9%positive 5%Z 5%Z
                  eq_refl (exampleEngine_sound exampleEnv)
                  (conj eq_refl eq_refl) (conj eq_refl eq_refl))
           eq_refl).
Defined.



(** C6, as stated, fails: a comparison whose left side is an add
    recurrence of the loop that is not affine is parsed. *)
Lemma parseLoopICmp_not_affine_counterexample :
  exampleGetSCEV (Argument 8%positive) = quadraticIV /\
  getLoop quadraticIV = Some exampleLoop /\
  isAffine quadraticIV = false /\
  parseLoopICmp exampleLoop exampleGetSCEV exampleIsLoopInvariant ICMP_ULT
    (Argument 8%positive) (Argument 6%positive) =
  Some {| Pred := ICMP_ULT; IV := quadraticIV; Limit := boundN |}.
Proof. repeat split. Qed.

(** The two widenable-condition calls of the example: the comparison is
    widened, the call visited last is kept, and it comes last. *)
Example collectChecks_example :
  exists Widened,
    exampleCollectChecks (latchFrom exampleLoop 32 1 boundM) []
      exampleCondition 9%positive =
    Some (Ret (1, [Widened; WidenableCondition 2%positive])) /\
    isWidenableCondition Widened = false.
Proof. eexists. split; vm_compute; reflexivity. Qed.

Definition exampleParseLoopLatchICmp : option LoopICmp :=
  parseLoopLatchICmp exampleLoop true exampleGetSCEV exampleIsLoopInvariant
    (fun _ _ _ => false) (Some 2%positive)
    (fun BB =>
       match BB with
       | 2%positive =>
           Some (ICmp 10%positive ICMP_SLT (Argument 11%positive)
                   (Argument 12%positive), 2%positive)
       | _ => None
       end)
    2%positive.

Lemma collectChecks_keeps_one_widenable_condition_witness :
  exampleParseLoopLatchICmp = Some (latchFrom exampleLoop 32 1 boundM) /\
  exists NumWidened Others Kept,
    exampleCollectChecks (latchFrom exampleLoop 32 1 boundM) []
      exampleCondition 9%positive =
      Some (Ret (NumWidened, [] ++ Others ++ Kept)) /\
    Forall (fun V => isWidenableCondition V = false) Others /\
    ((existsb isWidenableCondition (conjuncts exampleCondition) = false /\
      Kept = []) \/
     (exists W, Kept = [W] /\ isWidenableCondition W = true /\
                In W (conjuncts exampleCondition))).
Proof.
  split; [reflexivity|].
  exact (@collectChecks_keeps_one_widenable_condition
           exampleLoop (latchFrom exampleLoop 32 1 boundM) true true
           exampleGetSCEV exampleIsLoopInvariant exampleGuardedByCond
           (fun _ _ _ => false) (fun _ _ => true) (fun _ _ => true)
           SCEVTruncateExpr SCEVAddExpr
           exampleMinusSCEV (fun Expr => Expr) (fun _ => true)
           (fun _ => false) (fun _ => false) (fun _ => false)
           (fun _ => false) (fun _ => false)
           (Some 2%positive)
           (fun BB =>
              match BB with
              | 2%positive =>
                  Some (ICmp 10%positive ICMP_SLT (Argument 11%positive)
                          (Argument 12%positive), 2%positive)
              | _ => None
              end)
           2%positive
           [] exampleCondition 9%positive eq_refl).
Defined.


(** ** A count-down loop and a wide induction variable

    The latch of the count-down loop compares [{N,+,-1}] with bound [M]
    by [u>], and its guard compares the same variable after its
    decrement with the bound ten by [u<].  The wide latch check is on 64
    bits, from 1 to the constant 100. *)


Definition exampleTruncateExpr (Expr : SCEV) (Ty : Type_) : SCEV :=
  match Expr with
  | SCEVAddRecExpr Start Step More Lp =>
      SCEVAddRecExpr (SCEVTruncateExpr Start Ty) (SCEVTruncateExpr Step Ty)
        (map (fun Op => SCEVTruncateExpr Op Ty) More) Lp
  | _ => SCEVTruncateExpr Expr Ty
  end.



Definition wideLatch : LoopICmp :=
  {| Pred := ICMP_SLT;
     IV := SCEVAddRecExpr (SCEVConstant 64 1) (SCEVConstant 64 1) []
             exampleLoop;
     Limit := SCEVConstant 64 100 |}.

(** A pointer type of 64 bits. *)
Definition examplePointerTy : Type_ := PointerTy 1%positive 64.

Definition exampleExpandCheck : ValueId -> Predicate -> SCEV -> SCEV -> Value :=
  expandCheck exampleIsLoopInvariant exampleGuardedByCond (fun _ _ => true)
    (fun _ => true).

(** The builder folds the comparison of two constants where the engine
    does not answer: no instruction is made.  A comparison with one
    constant side is a new instruction whose constant operand is the
    constant itself. *)
Example expandCheck_constants :
  exampleExpandCheck 9%positive ICMP_ULT
    (SCEVConstant 32 5) (SCEVConstant 32 7) = getTrue /\
  exampleExpandCheck 9%positive ICMP_SLT
    (SCEVConstant 32 5) (SCEVConstant 32 (-1)) = getFalse /\
  CreateAnd AtPreheaderTerminator getFalse getFalse = getFalse /\
  exampleExpandCheck 9%positive ICMP_ULT (SCEVConstant 32 5) boundN =
    NewICmp AtPreheaderTerminator ICMP_ULT (ConstantInt 32 5)
      (SCEVExpansion boundN i32 AtPreheaderTerminator).
Proof. repeat split; vm_compute; reflexivity. Qed.


Definition exampleWidenICmpRangeCheck (LatchCheck : LoopICmp)
  : Predicate -> Value -> Value -> ValueId -> Res (option Value) :=
  widenICmpRangeCheck exampleLoop LatchCheck true true exampleGetSCEV
    exampleIsLoopInvariant exampleGuardedByCond (fun _ _ => true)
    (fun _ _ => true) SCEVTruncateExpr SCEVAddExpr exampleMinusSCEV
    (fun Expr => Expr) (fun _ => true)
    (fun _ => false) (fun _ => false) (fun _ => false)
    (fun _ => false) (fun _ => false).

Definition exampleLatchBranch (BB : BasicBlock)
  : option (Value * BasicBlock) :=
  match BB with
  | 2%positive =>
      Some (ICmp 10%positive ICMP_SLT (Argument 11%positive)
              (Argument 12%positive), 2%positive)
  | _ => None
  end.

(** An engine that knows, at the entry of the loop, that bound [M] is
    [s<=] whatever it is compared with. *)
Definition limitKnownGuardedByCond (P : Predicate) (A _ : SCEV) : bool :=
  match P with
  | ICMP_SLE => SCEV_eqb A boundM
  | _ => false
  end.

(** With the limit check known at the entry of the loop, the widening
    makes no [and]: the builder returns the first-iteration check, a
    comparison. *)
Example widenICmpRangeCheckIncrementingLoop_limit_known :
  exists At,
    widenICmpRangeCheckIncrementingLoop exampleIsLoopInvariant
      limitKnownGuardedByCond (fun _ _ => true) SCEVAddExpr exampleMinusSCEV
      (fun _ => true) (fun _ => false) (fun _ => false) (fun _ => false)
      (fun _ => false) (fun _ => false)
      (latchFrom exampleLoop 32 1 boundM)
      (guardFromZero exampleLoop 32 boundTen) 9%positive =
    Ret (Some (NewICmp At ICMP_ULT (ConstantInt 32 0)
                 (SCEVExpansion boundTen (IntegerTy 32)
                    AtPreheaderTerminator))).
Proof. eexists. vm_compute. reflexivity. Qed.

(** A range check of a pointer type of 64 bits against the latch check
    on 64-bit integers: the two types are not the same type, and the
    latch check is truncated, as it is for the narrower [i32]. *)
Example generateLoopLatchCheck_pointer :
  getType (IV wideLatch) = i64 /\
  getTypeSizeInBits examplePointerTy = getTypeSizeInBits i64 /\
  generateLoopLatchCheck true (fun _ _ => true) exampleTruncateExpr
    wideLatch i64 = Some wideLatch /\
  generateLoopLatchCheck true (fun _ _ => true) exampleTruncateExpr
    wideLatch examplePointerTy =
    Some {| Pred := ICMP_SLT;
            IV := exampleTruncateExpr (IV wideLatch) examplePointerTy;
            Limit := exampleTruncateExpr (Limit wideLatch)
                       examplePointerTy |}.
Proof. repeat split. Qed.

Lemma exampleTruncateExpr_sound (env : Env) (Expr : SCEV) (Ty : Type_)
    (v : Z) :
  evalSCEV env Expr = Some v ->
  evalSCEV env (exampleTruncateExpr Expr Ty) = Some (wrap Ty v).
Proof.
  destruct Expr; simpl; try discriminate; intros H; try rewrite H;
    try reflexivity.
  - now injection H as <-.
  - now injection H as <-.
Qed.


Lemma widenICmpRangeCheck_requires_witness :
  exists V,
    exampleWidenICmpRangeCheck (latchFrom exampleLoop 32 1 boundM) ICMP_ULT
      (Argument 5%positive) (Argument 6%positive) 9%positive =
      Ret (Some V) /\
    exists RangeCheck CurrLatchCheck,
      parseLoopICmp exampleLoop exampleGetSCEV exampleIsLoopInvariant
        ICMP_ULT (Argument 5%positive) (Argument 6%positive) =
        Some RangeCheck /\
      Pred RangeCheck = ICMP_ULT /\
      getLoop (IV RangeCheck) = Some exampleLoop /\
      isAffine (IV RangeCheck) = true /\
      isSupportedStep true (getStepRecurrence (IV RangeCheck)) = true /\
      generateLoopLatchCheck true (fun _ _ => true) SCEVTruncateExpr
        (latchFrom exampleLoop 32 1 boundM) (getType (IV RangeCheck)) =
        Some CurrLatchCheck /\
      getStepRecurrence (IV RangeCheck) =
        getStepRecurrence (IV CurrLatchCheck) /\
      exampleWidenable CurrLatchCheck RangeCheck 9%positive = true /\
      (isOne (getStepRecurrence (IV RangeCheck)) = false ->
       IV RangeCheck = (fun Expr : SCEV => Expr) (IV CurrLatchCheck)) /\
      exists At LimitCheckPred LimitRHS,
        getFlippedStrictnessPredicate (Pred CurrLatchCheck) =
          Ret LimitCheckPred /\
        V = CreateAnd At
              (exampleExpandCheck 9%positive ICMP_ULT
                 (getStart (IV RangeCheck)) (Limit RangeCheck))
              (exampleExpandCheck 9%positive LimitCheckPred
                 (Limit CurrLatchCheck) LimitRHS).
Proof.
  eexists. split; [vm_compute; reflexivity|].
  apply (@widenICmpRangeCheck_requires exampleLoop
           (latchFrom exampleLoop 32 1 boundM) true true exampleGetSCEV
           exampleIsLoopInvariant exampleGuardedByCond (fun _ _ => true)
           (fun _ _ => true) SCEVTruncateExpr SCEVAddExpr exampleMinusSCEV
           (fun Expr => Expr) (fun _ => true)
           (fun _ => false) (fun _ => false) (fun _ => false)
           (fun _ => false) (fun _ => false)
           ICMP_ULT (Argument 5%positive) (Argument 6%positive) 9%positive).
  vm_compute. reflexivity.
Defined.

Lemma parseLoopLatchICmp_shape_witness :
  parseLoopLatchICmp exampleLoop true exampleGetSCEV exampleIsLoopInvariant
    (fun _ _ _ => false) (Some 2%positive) exampleLatchBranch 2%positive =
    Some (latchFrom exampleLoop 32 1 boundM) /\
  getLoop (IV (latchFrom exampleLoop 32 1 boundM)) = Some exampleLoop /\
  isAffine (IV (latchFrom exampleLoop 32 1 boundM)) = true /\
  isSupportedStep true
    (getStepRecurrence (IV (latchFrom exampleLoop 32 1 boundM))) = true /\
  (if isOne (getStepRecurrence (IV (latchFrom exampleLoop 32 1 boundM)))
   then In (Pred (latchFrom exampleLoop 32 1 boundM))
          [ICMP_ULT; ICMP_SLT; ICMP_ULE; ICMP_SLE]
   else In (Pred (latchFrom exampleLoop 32 1 boundM))
          [ICMP_UGT; ICMP_SGT; ICMP_UGE; ICMP_SGE]) /\
  exists LoopLatch Id ICIPred LHS RHS TrueDest,
    Some 2%positive = Some LoopLatch /\
    exampleLatchBranch LoopLatch =
      Some (ICmp Id ICIPred LHS RHS, TrueDest) /\
    IV (latchFrom exampleLoop 32 1 boundM) =
      leftAfterSwap exampleGetSCEV exampleIsLoopInvariant LHS RHS /\
    Limit (latchFrom exampleLoop 32 1 boundM) =
      rightAfterSwap exampleGetSCEV exampleIsLoopInvariant LHS RHS.
Proof.
  split; [reflexivity|].
  exact (@parseLoopLatchICmp_shape exampleLoop true exampleGetSCEV
           exampleIsLoopInvariant (fun _ _ _ => false) (Some 2%positive)
           exampleLatchBranch 2%positive
           (latchFrom exampleLoop 32 1 boundM) eq_refl).
Defined.

Lemma isSafeToTruncateWideIVType_fits_witness :
  isSafeToTruncateWideIVType true (fun _ _ => true) wideLatch i32 = true /\
  true = true /\
  (fun (_ : SCEV) (_ : Predicate) => true) (IV wideLatch) (Pred wideLatch) =
    true /\
  exists LimitTy LimitV StartTy StartV,
    Limit wideLatch = SCEVConstant LimitTy LimitV /\
    getStart (IV wideLatch) = SCEVConstant StartTy StartV /\
    forall v, v = wrap LimitTy LimitV \/ v = wrap StartTy StartV ->
      (0 <= v < 2 ^ (Z.of_N i32 - 1))%Z /\
      wrap i32 v = v /\ signed i32 v = v.
Proof.
  split; [reflexivity|].
  exact (@isSafeToTruncateWideIVType_fits true (fun _ _ => true)
           wideLatch i32 eq_refl).
Defined.

Lemma generateLoopLatchCheck_keeps_limit_witness :
  (forall Expr Ty v, evalSCEV exampleEnv Expr = Some v ->
     evalSCEV exampleEnv (exampleTruncateExpr Expr Ty) = Some (wrap Ty v)) /\
  generateLoopLatchCheck true (fun _ _ => true) exampleTruncateExpr
    wideLatch i32 =
    Some {| Pred := ICMP_SLT;
            IV := exampleTruncateExpr (IV wideLatch) i32;
            Limit := exampleTruncateExpr (Limit wideLatch) i32 |} /\
  ICMP_SLT = Pred wideLatch /\
  (i32 = getType (IV wideLatch) ->
   {| Pred := ICMP_SLT;
      IV := exampleTruncateExpr (IV wideLatch) i32;
      Limit := exampleTruncateExpr (Limit wideLatch) i32 |} = wideLatch) /\
  (i32 <> getType (IV wideLatch) ->
   (getTypeSizeInBits i32 <= getTypeSizeInBits (getType (IV wideLatch)))%N /\
   (forall RangeBits LatchBits,
      i32 = IntegerTy RangeBits ->
      getType (IV wideLatch) = IntegerTy LatchBits ->
      (RangeBits < LatchBits)%N) /\
   exampleTruncateExpr (IV wideLatch) i32 =
     exampleTruncateExpr (IV wideLatch) i32 /\
   exampleTruncateExpr (Limit wideLatch) i32 =
     exampleTruncateExpr (Limit wideLatch) i32 /\
   exists v, evalSCEV exampleEnv (Limit wideLatch) = Some v /\
             evalSCEV exampleEnv (exampleTruncateExpr (Limit wideLatch) i32) =
               Some v /\
             signed i32 v = v).
Proof.
  split; [exact (exampleTruncateExpr_sound exampleEnv)|].
  split; [reflexivity|].
  exact (@generateLoopLatchCheck_keeps_limit true (fun _ _ => true)
           exampleTruncateExpr exampleEnv wideLatch
           {| Pred := ICMP_SLT;
              IV := exampleTruncateExpr (IV wideLatch) i32;
              Limit := exampleTruncateExpr (Limit wideLatch) i32 |}
           i32 (exampleTruncateExpr_sound exampleEnv) eq_refl).
Defined.

Lemma collectChecks_widened_count_witness :
  parseLoopLatchICmp exampleLoop true exampleGetSCEV exampleIsLoopInvariant
    (fun _ _ _ => false) (Some 2%positive) exampleLatchBranch 2%positive =
    Some (latchFrom exampleLoop 32 1 boundM) /\
  exists NumWidened New,
    exampleCollectChecks (latchFrom exampleLoop 32 1 boundM) []
      exampleCondition 9%positive = Some (Ret (NumWidened, [] ++ New)) /\
    NumWidened <= length New /\
    NumWidened <= length (filter isICmp (conjuncts exampleCondition)) /\
    Forall (fun V => In V (conjuncts exampleCondition) \/
                     isWidenedCheck exampleIsLoopInvariant
                       exampleGuardedByCond (fun _ _ => true)
                       (fun _ => true) 9%positive V)
      New /\
    (NumWidened = 0 ->
     Forall (fun V => In V (conjuncts exampleCondition)) New).
Proof.
  split; [reflexivity|].
  exact (@collectChecks_widened_count
           exampleLoop (latchFrom exampleLoop 32 1 boundM) true true
           exampleGetSCEV exampleIsLoopInvariant exampleGuardedByCond
           (fun _ _ _ => false) (fun _ _ => true) (fun _ _ => true)
           SCEVTruncateExpr SCEVAddExpr
           exampleMinusSCEV (fun Expr => Expr) (fun _ => true)
           (fun _ => false) (fun _ => false) (fun _ => false)
           (fun _ => false) (fun _ => false)
           (Some 2%positive) exampleLatchBranch 2%positive
           [] exampleCondition 9%positive eq_refl).
Defined.
End LoopPredication.
